(** * The bounded buffer and the thread pool of the thread-programming demos

    A shallow embedding of [c-threads/src/producer_consumer.c] and
    [c-threads/src/thread_pool.c].

    Both files protect a circular buffer with one critical section and two
    condition variables.  Everything a thread does between
    [EnterCriticalSection] and the next [LeaveCriticalSection] or
    [SleepConditionVariableCS] is one atomic pass over the shared record, so
    a pass is a function from the record to an outcome: the thread goes to
    sleep on a condition variable, or it returns a value after issuing its
    wake-up calls, or the pass is undefined C (an array index outside the
    array, a pool that was already freed).  An execution of the program is
    then a sequence of such passes, in the order in which the lock was
    taken.  The one place that writes the shared record without the
    lock, the failure path of [thread_pool_start], is treated where it
    occurs. *)

From Stdlib Require Import ZArith Lia.
From stdpp Require Import base tactics option list numbers gmap.

Local Open Scope Z_scope.

(** ** C integers and arrays *)

Module CInt.

Definition INT_MAX : Z := 2147483647.
Definition INT_MIN : Z := -2147483648.

(** The value of an [int] expression whose mathematical value is [z]. *)
Definition wrap (z : Z) : Z := (z + 2 ^ 31) mod 2 ^ 32 - 2 ^ 31.

(** [x++] and [x--] on an [int]. *)
Definition incr (x : Z) : Z := wrap (x + 1).
Definition decr (x : Z) : Z := wrap (x - 1).

(** [(i + 1) % n]: the sum is an [int], [%] truncates towards zero. *)
Definition next_index (i n : Z) : Z := Z.rem (wrap (i + 1)) n.

Lemma wrap_small z : INT_MIN <= z <= INT_MAX -> wrap z = z.
Proof.
  unfold wrap, INT_MIN, INT_MAX. intros H.
  rewrite Z.mod_small; lia.
Qed.

Lemma wrap_range z : INT_MIN <= wrap z <= INT_MAX.
Proof.
  unfold wrap, INT_MIN, INT_MAX.
  pose proof (Z.mod_pos_bound (z + 2 ^ 31) (2 ^ 32)). lia.
Qed.

Lemma incr_small x : INT_MIN <= x < INT_MAX -> incr x = x + 1.
Proof. intros H. apply wrap_small. lia. Qed.

Lemma decr_small x : INT_MIN < x <= INT_MAX -> decr x = x - 1.
Proof. intros H. apply wrap_small. lia. Qed.

(** Inside an array of [n] slots the next index is the successor, or [0]
    after the last slot. *)
Lemma next_index_spec i n :
  0 <= i < n -> n <= INT_MAX ->
  next_index i n = if decide (i + 1 = n) then 0 else i + 1.
Proof.
  intros Hi Hn. unfold next_index.
  rewrite wrap_small by (unfold INT_MIN; lia).
  rewrite Z.rem_mod_nonneg by lia.
  case_decide as E.
  - rewrite E. apply Z.mod_same. lia.
  - apply Z.mod_small. lia.
Qed.

Lemma next_index_mod i n :
  0 <= i < n -> n <= INT_MAX -> next_index i n = (i + 1) mod n.
Proof.
  intros Hi Hn. unfold next_index.
  rewrite wrap_small by (unfold INT_MIN; lia).
  apply Z.rem_mod_nonneg; lia.
Qed.

Lemma next_index_range i n :
  0 <= i < n -> n <= INT_MAX -> 0 <= next_index i n < n.
Proof.
  intros Hi Hn. rewrite next_index_spec by assumption.
  case_decide; lia.
Qed.

(** [(a + l) mod n] for an index [a] and at most one lap [l]. *)
Lemma mod_one_lap a l n :
  0 <= a < n -> 0 <= l <= n ->
  (a + l) mod n = if decide (a + l < n) then a + l else a + l - n.
Proof.
  intros Ha Hl. case_decide as E.
  - apply Z.mod_small. lia.
  - symmetry. apply (Z.mod_unique_pos _ _ 1); lia.
Qed.

End CInt.

(** An array access outside the array is undefined behaviour; the accessors
    report it as [None]. *)

Definition arr_get {A} (a : list A) (i : Z) : option A :=
  if decide (0 <= i) then a !! Z.to_nat i else None.

Definition arr_set {A} (a : list A) (i : Z) (x : A) : option (list A) :=
  if decide (0 <= i < Z.of_nat (length a))
  then Some (<[Z.to_nat i := x]> a) else None.

Lemma arr_get_Some {A} (a : list A) i :
  0 <= i < Z.of_nat (length a) -> is_Some (arr_get a i).
Proof.
  intros H. unfold arr_get. rewrite decide_True by lia.
  apply lookup_lt_is_Some. lia.
Qed.

Lemma arr_set_Some {A} (a : list A) i x :
  0 <= i < Z.of_nat (length a) ->
  arr_set a i x = Some (<[Z.to_nat i := x]> a).
Proof. intros H. unfold arr_set. by rewrite decide_True. Qed.

Lemma arr_get_bounds {A} (a : list A) i x :
  arr_get a i = Some x -> 0 <= i < Z.of_nat (length a).
Proof.
  unfold arr_get. case_decide as Hi; [|done].
  intros H%lookup_lt_Some. lia.
Qed.

Lemma arr_set_bounds {A} (a a' : list A) i x :
  arr_set a i x = Some a' ->
  0 <= i < Z.of_nat (length a) /\ a' = <[Z.to_nat i := x]> a.
Proof.
  unfold arr_set. destruct (decide _) as [Hi|Hi]; [|done].
  by intros [= <-].
Qed.

(** ** The items held by a circular buffer

    [ring_items n a start len] reads [len] slots of the array [a] of [n]
    slots, from index [start] on and around the end. *)

Fixpoint ring_items {A} (n : Z) (a : list A) (start : Z) (len : nat) : list A :=
  match len with
  | O => []
  | S len' =>
      match arr_get a start with
      | Some x => x :: ring_items n a ((start + 1) mod n) len'
      | None => []
      end
  end.

Section Ring.
Context {A : Type}.
Variable n : Z.
Implicit Types (a : list A) (start : Z) (len : nat).

Lemma ring_items_S a start len :
  ring_items n a start (S len)
  = match arr_get a start with
    | Some x => x :: ring_items n a ((start + 1) mod n) len
    | None => []
    end.
Proof. reflexivity. Qed.

Lemma ring_items_length a start len :
  Z.of_nat (length a) = n -> 0 <= start < n ->
  length (ring_items n a start len) = len.
Proof.
  intros Hlen. revert start.
  induction len as [|len IH]; intros start Hs; [done|].
  simpl. destruct (arr_get_Some a start) as [x ->]; [lia|].
  simpl. rewrite IH; [done|].
  apply Z.mod_pos_bound. lia.
Qed.

(** Storing at the slot after the last item appends the item. *)
Lemma ring_items_push a start len x :
  Z.of_nat (length a) = n -> 0 <= start < n -> Z.of_nat len < n ->
  ring_items n (<[Z.to_nat ((start + Z.of_nat len) mod n) := x]> a)
    start (S len)
  = ring_items n a start len ++ [x].
Proof.
  intros Hlen. revert start.
  induction len as [|len IH]; intros start Hs Hl.
  - simpl. rewrite Z.add_0_r, Z.mod_small by lia.
    unfold arr_get. rewrite decide_True by lia.
    rewrite list_lookup_insert_eq by lia. done.
  - rewrite !(ring_items_S _ _ (S len)), (ring_items_S a _ len).
    assert (Hne : (start + Z.of_nat (S len)) mod n <> start).
    { rewrite CInt.mod_one_lap by lia. case_decide; lia. }
    pose proof (Z.mod_pos_bound (start + Z.of_nat (S len)) n ltac:(lia)) as Hb.
    unfold arr_get. rewrite !decide_True by lia.
    rewrite list_lookup_insert_ne by lia.
    destruct (lookup_lt_is_Some_2 a (Z.to_nat start) ltac:(lia)) as [y ->].
    simpl. f_equal.
    replace ((start + Z.of_nat (S len)) mod n)
      with (((start + 1) mod n + Z.of_nat len) mod n).
    + apply IH; [apply Z.mod_pos_bound; lia|lia].
    + rewrite Zplus_mod_idemp_l. f_equal. lia.
Qed.

(** Reading the first item and advancing the start drops the head. *)
Lemma ring_items_pop a start len :
  Z.of_nat (length a) = n -> 0 <= start < n ->
  exists x, arr_get a start = Some x /\
    ring_items n a start (S len) = x :: ring_items n a ((start + 1) mod n) len.
Proof.
  intros Hlen Hs. destruct (arr_get_Some a start) as [x Hx]; [lia|].
  exists x. split; [done|]. simpl. by rewrite Hx.
Qed.

End Ring.

(** ** One pass through a critical section *)

(** The wake-up calls of the Windows API on a condition variable. *)
Inductive wake (CV : Type) : Type :=
  | WakeConditionVariable (cv : CV)
  | WakeAllConditionVariable (cv : CV).
Arguments WakeConditionVariable {CV} cv.
Arguments WakeAllConditionVariable {CV} cv.

(** What a thread that holds the lock does with the shared record [S]:
    - [Sleep cv s]: the loop predicate held, the thread calls
      [SleepConditionVariableCS] on [cv] and will test the predicate again
      when it is woken;
    - [Done r ws s]: the thread left the critical section with result [r]
      after the wake-up calls [ws];
    - [Undefined]: the pass has no defined behaviour in C. *)
Inductive pass (CV S R : Type) : Type :=
  | Sleep (cv : CV) (s : S)
  | Done (r : R) (ws : list (wake CV)) (s : S)
  | Undefined.
Arguments Sleep {CV S R} cv s.
Arguments Done {CV S R} r ws s.
Arguments Undefined {CV S R}.

(** ** producer_consumer.c *)

Module ProducerConsumer.

Inductive condvar := not_full | not_empty.

(** [bounded_buffer_t] without its lock and condition variables, which
    the passes account for. *)
Record bounded_buffer_t := {
  buffer : list Z;   (* int buffer[BUFFER_SIZE] *)
  count : Z;
  in_ : Z;           (* the field [in] *)
  out : Z
}.

Section Buffer.
Variable BUFFER_SIZE : Z.

(** The global [buffer] before [init_buffer]: static storage is zeroed. *)
Definition static_buffer : bounded_buffer_t :=
  {| buffer := replicate (Z.to_nat BUFFER_SIZE) 0;
     count := 0; in_ := 0; out := 0 |}.

Definition init_buffer (b : bounded_buffer_t) : bounded_buffer_t :=
  {| buffer := buffer b; count := 0; in_ := 0; out := 0 |}.

Definition buffer_insert (item : Z) (b : bounded_buffer_t)
  : pass condvar bounded_buffer_t unit :=
  if count b =? BUFFER_SIZE then Sleep not_full b
  else
    match arr_set (buffer b) (in_ b) item with
    | None => Undefined
    | Some a =>
        Done tt [WakeConditionVariable not_empty]
          {| buffer := a;
             count := CInt.incr (count b);
             in_ := CInt.next_index (in_ b) BUFFER_SIZE;
             out := out b |}
    end.

Definition buffer_remove (b : bounded_buffer_t)
  : pass condvar bounded_buffer_t Z :=
  if count b =? 0 then Sleep not_empty b
  else
    match arr_get (buffer b) (out b) with
    | None => Undefined
    | Some item =>
        Done item [WakeConditionVariable not_full]
          {| buffer := buffer b;
             count := CInt.decr (count b);
             in_ := in_ b;
             out := CInt.next_index (out b) BUFFER_SIZE |}
    end.

(** *** Executions: the passes in the order the lock was taken *)

Inductive op := Insert (item : Z) | Remove.

Inductive event :=
  | Inserted (item : Z)
  | Removed (item : Z)
  | Slept (cv : condvar).

Definition exec (o : op) (b : bounded_buffer_t)
  : option (event * bounded_buffer_t) :=
  match o with
  | Insert item =>
      match buffer_insert item b with
      | Sleep cv b' => Some (Slept cv, b')
      | Done _ _ b' => Some (Inserted item, b')
      | Undefined => None
      end
  | Remove =>
      match buffer_remove b with
      | Sleep cv b' => Some (Slept cv, b')
      | Done item _ b' => Some (Removed item, b')
      | Undefined => None
      end
  end.

Fixpoint run (ops : list op) (b : bounded_buffer_t)
  : option (list event * bounded_buffer_t) :=
  match ops with
  | [] => Some ([], b)
  | o :: ops' =>
      match exec o b with
      | None => None
      | Some (e, b') =>
          match run ops' b' with
          | None => None
          | Some (es, b'') => Some (e :: es, b'')
          end
      end
  end.

Definition inserted (es : list event) : list Z :=
  omap (fun e => match e with Inserted x => Some x | _ => None end) es.

Definition removed (es : list event) : list Z :=
  omap (fun e => match e with Removed x => Some x | _ => None end) es.

(** The items in the buffer, oldest first. *)
Definition contents (b : bounded_buffer_t) : list Z :=
  ring_items BUFFER_SIZE (buffer b) (out b) (Z.to_nat (count b)).

(** The bookkeeping of the circular buffer. *)
Record wf (b : bounded_buffer_t) : Prop := {
  wf_length : Z.of_nat (length (buffer b)) = BUFFER_SIZE;
  wf_count : 0 <= count b <= BUFFER_SIZE;
  wf_out : 0 <= out b < BUFFER_SIZE;
  wf_in : in_ b = (out b + count b) mod BUFFER_SIZE
}.

Hypothesis size_ok : 0 < BUFFER_SIZE <= CInt.INT_MAX.

Lemma wf_in_range b : wf b -> 0 <= in_ b < BUFFER_SIZE.
Proof. intros [_ _ _ ->]. apply Z.mod_pos_bound. lia. Qed.

Lemma buffer_wf_init b :
  Z.of_nat (length (buffer b)) = BUFFER_SIZE -> wf (init_buffer b).
Proof.
  intros H. split; simpl; try lia. by rewrite Z.mod_small by lia.
Qed.

Lemma wf_static : wf (init_buffer static_buffer).
Proof. apply buffer_wf_init. simpl. rewrite length_replicate. lia. Qed.

Lemma contents_init b : contents (init_buffer b) = [].
Proof. reflexivity. Qed.

(** A pass of [buffer_insert]: it sleeps exactly on a full buffer and
    otherwise appends the item. *)
Lemma buffer_insert_spec item b :
  wf b ->
  (count b = BUFFER_SIZE /\ buffer_insert item b = Sleep not_full b)
  \/ (count b < BUFFER_SIZE /\
      exists b', buffer_insert item b
                 = Done tt [WakeConditionVariable not_empty] b' /\
        wf b' /\ count b' = count b + 1 /\
        contents b' = contents b ++ [item]).
Proof.
  intros Hwf. pose proof (wf_in_range b Hwf) as Hin.
  destruct Hwf as [Hlen Hc Ho Hi].
  unfold buffer_insert. destruct (Z.eqb_spec (count b) BUFFER_SIZE) as [E|E].
  { by left. }
  right. split; [lia|].
  rewrite arr_set_Some by lia. eexists. split; [reflexivity|].
  assert (Hincr : CInt.incr (count b) = count b + 1).
  { apply CInt.incr_small. unfold CInt.INT_MIN. lia. }
  split; [|split].
  - split; simpl.
    + rewrite length_insert. lia.
    + lia.
    + lia.
    + rewrite CInt.next_index_mod by lia. rewrite Hi, Hincr.
      rewrite Zplus_mod_idemp_l. f_equal. lia.
  - done.
  - unfold contents. simpl. rewrite Hincr.
    replace (Z.to_nat (count b + 1)) with (S (Z.to_nat (count b))) by lia.
    rewrite Hi.
    replace (count b) with (Z.of_nat (Z.to_nat (count b))) at 1 by lia.
    apply ring_items_push; lia.
Qed.

(** A pass of [buffer_remove]: it sleeps exactly on an empty buffer and
    otherwise takes the oldest item. *)
Lemma buffer_remove_spec b :
  wf b ->
  (count b = 0 /\ buffer_remove b = Sleep not_empty b)
  \/ (0 < count b /\
      exists item b', buffer_remove b
                 = Done item [WakeConditionVariable not_full] b' /\
        wf b' /\ count b' = count b - 1 /\
        contents b = item :: contents b').
Proof.
  intros Hwf. pose proof (wf_in_range b Hwf) as Hin.
  destruct Hwf as [Hlen Hc Ho Hi].
  unfold buffer_remove. destruct (Z.eqb_spec (count b) 0) as [E|E].
  { by left. }
  right. split; [lia|].
  assert (Hdecr : CInt.decr (count b) = count b - 1).
  { apply CInt.decr_small. unfold CInt.INT_MIN. lia. }
  destruct (ring_items_pop BUFFER_SIZE (buffer b) (out b)
              (Z.to_nat (count b - 1)) Hlen Ho) as (item & Hget & Hitems).
  rewrite Hget. exists item. eexists. split; [reflexivity|].
  split; [|split].
  - split; simpl.
    + done.
    + lia.
    + apply CInt.next_index_range; lia.
    + rewrite CInt.next_index_mod by lia. rewrite Hi, Hdecr.
      rewrite Zplus_mod_idemp_l. f_equal. lia.
  - done.
  - unfold contents. simpl. rewrite Hdecr.
    rewrite CInt.next_index_mod by lia.
    replace (Z.to_nat (count b)) with (S (Z.to_nat (count b - 1))) by lia.
    exact Hitems.
Qed.

Lemma buffer_contents_length b : wf b -> Z.of_nat (length (contents b)) = count b.
Proof.
  intros [Hlen Hc Ho _]. unfold contents.
  rewrite (ring_items_length BUFFER_SIZE) by lia. lia.
Qed.

Lemma buffer_run_app ops1 ops2 b :
  run (ops1 ++ ops2) b
  = match run ops1 b with
    | None => None
    | Some (es1, b1) =>
        match run ops2 b1 with
        | None => None
        | Some (es2, b2) => Some (es1 ++ es2, b2)
        end
    end.
Proof.
  revert b. induction ops1 as [|o ops1 IH]; intros b; simpl.
  - by destruct (run ops2 b) as [[??]|].
  - destruct (exec o b) as [[e b1]|]; [|done].
    rewrite IH. destruct (run ops1 b1) as [[es1 b2]|]; [|done].
    by destruct (run ops2 b2) as [[??]|].
Qed.

(** Every execution from a well-formed buffer is defined, keeps the
    buffer well formed, and hands the items over in order: what was in
    the buffer followed by what was inserted is what was removed
    followed by what is left. *)
Lemma buffer_run_spec ops b :
  wf b ->
  exists es b', run ops b = Some (es, b') /\ wf b' /\
    contents b ++ inserted es = removed es ++ contents b'.
Proof.
  revert b. induction ops as [|o ops IH]; intros b Hwf.
  - exists [], b. simpl. by rewrite app_nil_r.
  - destruct o as [item|]; simpl.
    + destruct (buffer_insert_spec item b Hwf)
        as [[_ ->]|(_ & b1 & -> & Hwf1 & _ & Hc)].
      * destruct (IH b Hwf) as (es & b' & -> & Hwf' & Heq).
        by exists (Slept not_full :: es), b'.
      * destruct (IH b1 Hwf1) as (es & b' & -> & Hwf' & Heq).
        exists (Inserted item :: es), b'. split; [done|]. split; [done|].
        change (contents b ++ item :: inserted es
                = removed es ++ contents b').
        rewrite <- Heq, Hc, <- app_assoc. done.
    + destruct (buffer_remove_spec b Hwf)
        as [[_ ->]|(_ & item & b1 & -> & Hwf1 & _ & Hc)].
      * destruct (IH b Hwf) as (es & b' & -> & Hwf' & Heq).
        by exists (Slept not_empty :: es), b'.
      * destruct (IH b1 Hwf1) as (es & b' & -> & Hwf' & Heq).
        exists (Removed item :: es), b'. split; [done|]. split; [done|].
        change (contents b ++ inserted es
                = item :: removed es ++ contents b').
        rewrite <- Heq, Hc. done.
Qed.

(** Inserting into free slots never sleeps. *)
Lemma run_inserts xs b :
  wf b -> count b + Z.of_nat (length xs) <= BUFFER_SIZE ->
  exists b', run (map Insert xs) b = Some (map Inserted xs, b') /\
    wf b' /\ contents b' = contents b ++ xs.
Proof.
  revert b. induction xs as [|x xs IH]; intros b Hwf Hroom.
  - exists b. by rewrite app_nil_r.
  - simpl in Hroom.
    destruct (buffer_insert_spec x b Hwf)
      as [[E _]|(_ & b1 & Hb1 & Hwf1 & Hcnt & Hc)]; [lia|].
    destruct (IH b1 Hwf1) as (b' & Hrun & Hwf' & Hc'); [lia|].
    exists b'. simpl. rewrite Hb1, Hrun. split; [done|]. split; [done|].
    rewrite Hc', Hc, <- app_assoc. done.
Qed.

(** Removing what the buffer holds never sleeps. *)
Lemma run_removes xs rest b :
  wf b -> contents b = xs ++ rest ->
  exists b', run (replicate (length xs) Remove) b
             = Some (map Removed xs, b') /\
    wf b' /\ contents b' = rest.
Proof.
  revert b. induction xs as [|x xs IH]; intros b Hwf Hc.
  - by exists b.
  - destruct (buffer_remove_spec b Hwf)
      as [[E _]|(_ & item & b1 & Hb1 & Hwf1 & Hcnt & Hc1)].
    { pose proof (buffer_contents_length b Hwf) as Hl.
      rewrite Hc in Hl. simpl in Hl. lia. }
    rewrite Hc in Hc1. simpl in Hc1. injection Hc1 as -> Hc1.
    destruct (IH b1 Hwf1) as (b' & Hrun & Hwf' & Hc'); [done|].
    exists b'. simpl. rewrite Hb1, Hrun. done.
Qed.

(** How one pass changes the count. *)
Definition count_step (e : event) (before after : Z) : Prop :=
  match e with
  | Inserted _ => before < BUFFER_SIZE /\ after = before + 1
  | Removed _ => 0 < before /\ after = before - 1
  | Slept _ => after = before
  end.

Lemma buffer_exec_spec o b :
  wf b ->
  exists e b', exec o b = Some (e, b') /\ wf b' /\
    count_step e (count b) (count b').
Proof.
  intros Hwf. destruct o as [item|]; simpl.
  - destruct (buffer_insert_spec item b Hwf)
      as [[_ ->]|(Hlt & b1 & -> & Hwf1 & Hcnt & _)].
    + by eexists _, b.
    + by eexists _, b1.
  - destruct (buffer_remove_spec b Hwf)
      as [[_ ->]|(Hlt & item & b1 & -> & Hwf1 & Hcnt & _)].
    + by eexists _, b.
    + by eexists _, b1.
Qed.

End Buffer.
End ProducerConsumer.

(** ** thread_pool.c: the shared record and its critical sections *)

Module ThreadPool.

Inductive condvar := queue_not_empty | queue_not_full.

(** A work item: the address of the function and the address of its
    argument. *)
Record work_item_t := { function : Z; argument : Z }.

(** A thread handle; [0] is [NULL]. *)
Definition HANDLE := nat.

(** [thread_pool_t] without its lock and condition variables. *)
Record thread_pool_t := {
  queue : list work_item_t;       (* work_item_t queue[MAX_QUEUE_SIZE] *)
  queue_size : Z;
  head : Z;
  tail : Z;
  worker_threads : list HANDLE;   (* HANDLE worker_threads[THREAD_POOL_SIZE] *)
  shutdown : bool
}.

Definition set_shutdown (tp : thread_pool_t) : thread_pool_t :=
  {| queue := queue tp; queue_size := queue_size tp; head := head tp;
     tail := tail tp; worker_threads := worker_threads tp;
     shutdown := true |}.

(** What a worker does after its critical section: leave the loop, or
    call the work item it copied out of the queue. *)
Inductive worker_next := Exit | Work (work : work_item_t).

Section Queue.
Variable MAX_QUEUE_SIZE : Z.

(** [thread_pool_init] on the block [mem] that [malloc] returned: the
    arrays keep whatever the block held. *)
Definition thread_pool_init (mem : thread_pool_t) : thread_pool_t :=
  {| queue := queue mem; queue_size := 0; head := 0; tail := 0;
     worker_threads := worker_threads mem; shutdown := false |}.

(** [thread_pool_add_work], from [EnterCriticalSection] on. *)
Definition add_work_cs (function argument : Z) (tp : thread_pool_t)
  : pass condvar thread_pool_t bool :=
  if (queue_size tp =? MAX_QUEUE_SIZE) && negb (shutdown tp)
  then Sleep queue_not_full tp
  else if shutdown tp then Done false [] tp
  else
    match arr_set (queue tp) (tail tp)
            {| function := function; argument := argument |} with
    | None => Undefined
    | Some q =>
        Done true [WakeConditionVariable queue_not_empty]
          {| queue := q;
             queue_size := CInt.incr (queue_size tp);
             head := head tp;
             tail := CInt.next_index (tail tp) MAX_QUEUE_SIZE;
             worker_threads := worker_threads tp;
             shutdown := shutdown tp |}
    end.

(** One turn of the loop of [worker_thread], up to
    [LeaveCriticalSection]. *)
Definition worker_cs (tp : thread_pool_t)
  : pass condvar thread_pool_t worker_next :=
  if (queue_size tp =? 0) && negb (shutdown tp)
  then Sleep queue_not_empty tp
  else if shutdown tp && (queue_size tp =? 0) then Done Exit [] tp
  else
    match arr_get (queue tp) (head tp) with
    | None => Undefined
    | Some work =>
        Done (Work work) [WakeConditionVariable queue_not_full]
          {| queue := queue tp;
             queue_size := CInt.decr (queue_size tp);
             head := CInt.next_index (head tp) MAX_QUEUE_SIZE;
             tail := tail tp;
             worker_threads := worker_threads tp;
             shutdown := shutdown tp |}
    end.

(** The critical section of [thread_pool_shutdown]. *)
Definition shutdown_cs (tp : thread_pool_t)
  : pass condvar thread_pool_t unit :=
  Done tt [WakeAllConditionVariable queue_not_empty] (set_shutdown tp).

(** *** Executions of the critical sections *)

Inductive op :=
  | AddWork (function argument : Z)
  | WorkerTurn
  | Shutdown.

Inductive event :=
  | Accepted (work : work_item_t)
  | Rejected (work : work_item_t)
  | Took (work : work_item_t)
  | WorkerExit
  | FlagSet
  | Slept (cv : condvar).

Definition exec (o : op) (tp : thread_pool_t)
  : option (event * thread_pool_t) :=
  match o with
  | AddWork f a =>
      let work := {| function := f; argument := a |} in
      match add_work_cs f a tp with
      | Sleep cv tp' => Some (Slept cv, tp')
      | Done true _ tp' => Some (Accepted work, tp')
      | Done false _ tp' => Some (Rejected work, tp')
      | Undefined => None
      end
  | WorkerTurn =>
      match worker_cs tp with
      | Sleep cv tp' => Some (Slept cv, tp')
      | Done (Work work) _ tp' => Some (Took work, tp')
      | Done Exit _ tp' => Some (WorkerExit, tp')
      | Undefined => None
      end
  | Shutdown =>
      match shutdown_cs tp with
      | Done _ _ tp' => Some (FlagSet, tp')
      | _ => None
      end
  end.

Fixpoint run (ops : list op) (tp : thread_pool_t)
  : option (list event * thread_pool_t) :=
  match ops with
  | [] => Some ([], tp)
  | o :: ops' =>
      match exec o tp with
      | None => None
      | Some (e, tp') =>
          match run ops' tp' with
          | None => None
          | Some (es, tp'') => Some (e :: es, tp'')
          end
      end
  end.

Definition accepted (es : list event) : list work_item_t :=
  omap (fun e => match e with Accepted w => Some w | _ => None end) es.

Definition took (es : list event) : list work_item_t :=
  omap (fun e => match e with Took w => Some w | _ => None end) es.

(** The queued work items, oldest first. *)
Definition contents (tp : thread_pool_t) : list work_item_t :=
  ring_items MAX_QUEUE_SIZE (queue tp) (head tp) (Z.to_nat (queue_size tp)).

Record wf (tp : thread_pool_t) : Prop := {
  wf_length : Z.of_nat (length (queue tp)) = MAX_QUEUE_SIZE;
  wf_size : 0 <= queue_size tp <= MAX_QUEUE_SIZE;
  wf_head : 0 <= head tp < MAX_QUEUE_SIZE;
  wf_tail : tail tp = (head tp + queue_size tp) mod MAX_QUEUE_SIZE
}.

Hypothesis size_ok : 0 < MAX_QUEUE_SIZE <= CInt.INT_MAX.

Lemma wf_tail_range tp : wf tp -> 0 <= tail tp < MAX_QUEUE_SIZE.
Proof. intros [_ _ _ ->]. apply Z.mod_pos_bound. lia. Qed.

Lemma queue_wf_init mem :
  Z.of_nat (length (queue mem)) = MAX_QUEUE_SIZE ->
  wf (thread_pool_init mem).
Proof.
  intros H. split; simpl; try lia. by rewrite Z.mod_small by lia.
Qed.

Lemma wf_set_shutdown tp : wf tp -> wf (set_shutdown tp).
Proof. by intros []. Qed.

Lemma queue_contents_length tp :
  wf tp -> Z.of_nat (length (contents tp)) = queue_size tp.
Proof.
  intros [Hlen Hc Ho _]. unfold contents.
  rewrite (ring_items_length MAX_QUEUE_SIZE) by lia. lia.
Qed.

Lemma contents_empty tp : queue_size tp = 0 -> contents tp = [].
Proof. unfold contents. by intros ->. Qed.

(** The four ways through [thread_pool_add_work]. *)
Lemma add_work_cs_spec f a tp :
  wf tp ->
  (shutdown tp = true /\ add_work_cs f a tp = Done false [] tp)
  \/ (shutdown tp = false /\ queue_size tp = MAX_QUEUE_SIZE /\
      add_work_cs f a tp = Sleep queue_not_full tp)
  \/ (shutdown tp = false /\ queue_size tp < MAX_QUEUE_SIZE /\
      exists tp', add_work_cs f a tp
                  = Done true [WakeConditionVariable queue_not_empty] tp' /\
        wf tp' /\ queue_size tp' = queue_size tp + 1 /\
        shutdown tp' = false /\
        worker_threads tp' = worker_threads tp /\
        contents tp' = contents tp ++ [{| function := f; argument := a |}]).
Proof.
  intros Hwf. pose proof (wf_tail_range tp Hwf) as Hin.
  destruct Hwf as [Hlen Hc Ho Hi].
  unfold add_work_cs. destruct (shutdown tp) eqn:Hsd.
  { left. by rewrite andb_false_r. }
  right. rewrite andb_true_r.
  destruct (Z.eqb_spec (queue_size tp) MAX_QUEUE_SIZE) as [E|E].
  { by left. }
  right. do 2 (split; [done || lia|]).
  rewrite arr_set_Some by lia. eexists. split; [reflexivity|].
  assert (Hincr : CInt.incr (queue_size tp) = queue_size tp + 1).
  { apply CInt.incr_small. unfold CInt.INT_MIN. lia. }
  split; [|split; [|split; [|split]]]; try done.
  - split; simpl.
    + rewrite length_insert. lia.
    + lia.
    + lia.
    + rewrite CInt.next_index_mod by lia. rewrite Hi, Hincr.
      rewrite Zplus_mod_idemp_l. f_equal. lia.
  - unfold contents. simpl. rewrite Hincr.
    replace (Z.to_nat (queue_size tp + 1))
      with (S (Z.to_nat (queue_size tp))) by lia.
    rewrite Hi.
    replace (queue_size tp)
      with (Z.of_nat (Z.to_nat (queue_size tp))) at 1 by lia.
    apply ring_items_push; lia.
Qed.

(** The three ways through a turn of the worker loop. *)
Lemma worker_cs_spec tp :
  wf tp ->
  (shutdown tp = false /\ queue_size tp = 0 /\
   worker_cs tp = Sleep queue_not_empty tp)
  \/ (shutdown tp = true /\ queue_size tp = 0 /\
      worker_cs tp = Done Exit [] tp)
  \/ (0 < queue_size tp /\
      exists work tp', worker_cs tp
                  = Done (Work work)
                      [WakeConditionVariable queue_not_full] tp' /\
        wf tp' /\ queue_size tp' = queue_size tp - 1 /\
        shutdown tp' = shutdown tp /\
        worker_threads tp' = worker_threads tp /\
        contents tp = work :: contents tp').
Proof.
  intros Hwf. pose proof (wf_tail_range tp Hwf) as Hin.
  destruct Hwf as [Hlen Hc Ho Hi].
  unfold worker_cs.
  destruct (Z.eqb_spec (queue_size tp) 0) as [E|E].
  { destruct (shutdown tp); [right; left|left]; done. }
  right; right. split; [lia|]. rewrite andb_false_r. simpl.
  assert (Hdecr : CInt.decr (queue_size tp) = queue_size tp - 1).
  { apply CInt.decr_small. unfold CInt.INT_MIN. lia. }
  destruct (ring_items_pop MAX_QUEUE_SIZE (queue tp) (head tp)
              (Z.to_nat (queue_size tp - 1)) Hlen Ho)
    as (work & Hget & Hitems).
  rewrite Hget. exists work. eexists. split; [reflexivity|].
  split; [|split; [|split; [|split]]]; try done.
  - split; simpl.
    + done.
    + lia.
    + apply CInt.next_index_range; lia.
    + rewrite CInt.next_index_mod by lia. rewrite Hi, Hdecr.
      rewrite Zplus_mod_idemp_l. f_equal. lia.
  - unfold contents. simpl. rewrite Hdecr.
    rewrite CInt.next_index_mod by lia.
    replace (Z.to_nat (queue_size tp))
      with (S (Z.to_nat (queue_size tp - 1))) by lia.
    exact Hitems.
Qed.

Lemma queue_run_app ops1 ops2 tp :
  run (ops1 ++ ops2) tp
  = match run ops1 tp with
    | None => None
    | Some (es1, tp1) =>
        match run ops2 tp1 with
        | None => None
        | Some (es2, tp2) => Some (es1 ++ es2, tp2)
        end
    end.
Proof.
  revert tp. induction ops1 as [|o ops1 IH]; intros tp; simpl.
  - by destruct (run ops2 tp) as [[??]|].
  - destruct (exec o tp) as [[e tp1]|]; [|done].
    rewrite IH. destruct (run ops1 tp1) as [[es1 tp2]|]; [|done].
    by destruct (run ops2 tp2) as [[??]|].
Qed.

Lemma accepted_app es1 es2 :
  accepted (es1 ++ es2) = accepted es1 ++ accepted es2.
Proof. apply omap_app. Qed.

Lemma took_app es1 es2 : took (es1 ++ es2) = took es1 ++ took es2.
Proof. apply omap_app. Qed.

(** One critical section from a well-formed pool: it is defined, the
    pool stays well formed, the shutdown flag is never cleared, and the
    queue changes by the one item the event names. *)
Lemma queue_exec_spec o tp :
  wf tp ->
  exists e tp', exec o tp = Some (e, tp') /\ wf tp' /\
    (shutdown tp = true -> shutdown tp' = true) /\
    contents tp ++ accepted [e] = took [e] ++ contents tp'.
Proof.
  intros Hwf. destruct o as [f a| |]; simpl.
  - destruct (add_work_cs_spec f a tp Hwf)
      as [[Hsd ->]|[(Hsd & _ & ->)|(Hsd & _ & tp1 & -> & Hwf1 & _ & _ & _ & Hc)]].
    + eexists _, tp. do 3 (split; [done|]). cbn. by rewrite app_nil_r.
    + eexists _, tp. do 3 (split; [done|]). cbn. by rewrite app_nil_r.
    + eexists _, tp1. rewrite Hsd. done.
  - destruct (worker_cs_spec tp Hwf)
      as [(Hsd & _ & ->)|[(Hsd & _ & ->)|(_ & w & tp1 & -> & Hwf1 & _ & Hsd & _ & Hc)]].
    + eexists _, tp. do 3 (split; [done|]). cbn. by rewrite app_nil_r.
    + eexists _, tp. do 3 (split; [done|]). cbn. by rewrite app_nil_r.
    + eexists _, tp1. rewrite Hsd, Hc. do 3 (split; [done|]).
      cbn. by rewrite app_nil_r.
  - eexists _, (set_shutdown tp).
    split; [done|]. split; [by apply wf_set_shutdown|].
    split; [done|]. cbn. by rewrite app_nil_r.
Qed.

(** Every execution from a well-formed pool is defined, and the queue
    hands the accepted work over in order. *)
Lemma queue_run_spec ops tp :
  wf tp ->
  exists es tp', run ops tp = Some (es, tp') /\ wf tp' /\
    (shutdown tp = true -> shutdown tp' = true) /\
    contents tp ++ accepted es = took es ++ contents tp'.
Proof.
  revert tp. induction ops as [|o ops IH]; intros tp Hwf.
  - exists [], tp. simpl. by rewrite app_nil_r.
  - destruct (queue_exec_spec o tp Hwf) as (e & tp1 & He & Hwf1 & Hsd1 & Hc1).
    destruct (IH tp1 Hwf1) as (es & tp' & Hr & Hwf' & Hsd' & Hc').
    exists (e :: es), tp'. cbn [run]. rewrite He, Hr.
    split; [done|]. split; [done|]. split; [auto|].
    change (e :: es) with ([e] ++ es).
    rewrite (accepted_app [e] es), (took_app [e] es).
    rewrite app_assoc, Hc1, <- !app_assoc, Hc'. done.
Qed.

(** After shutdown the workers still take every queued item, in
    order. *)
Lemma run_drain xs rest tp :
  wf tp -> contents tp = xs ++ rest ->
  exists tp', run (replicate (length xs) WorkerTurn) tp
              = Some (map Took xs, tp') /\
    wf tp' /\ shutdown tp' = shutdown tp /\ contents tp' = rest.
Proof.
  revert tp. induction xs as [|x xs IH]; intros tp Hwf Hc.
  - by exists tp.
  - destruct (worker_cs_spec tp Hwf)
      as [(_ & E & _)|[(_ & E & _)|(_ & w & tp1 & Hw & Hwf1 & _ & Hsd & _ & Hc1)]].
    1,2: pose proof (queue_contents_length tp Hwf) as Hl;
         rewrite Hc in Hl; simpl in Hl; lia.
    rewrite Hc in Hc1. simpl in Hc1. injection Hc1 as -> Hc1.
    destruct (IH tp1 Hwf1) as (tp' & Hrun & Hwf' & Hsd' & Hc'); [done|].
    exists tp'. simpl. rewrite Hw, Hrun. split; [done|].
    split; [done|]. split; [congruence|done].
Qed.

(** On a closed and empty queue every further turn of a worker leaves
    the loop. *)
Lemma run_closed_empty k tp :
  shutdown tp = true -> queue_size tp = 0 ->
  run (replicate k WorkerTurn) tp = Some (replicate k WorkerExit, tp).
Proof.
  intros Hsd Hz. induction k as [|k IH]; [done|].
  simpl. unfold worker_cs. rewrite Hsd, Hz. simpl.
  fold (replicate k WorkerTurn). rewrite IH. done.
Qed.

(** Once the flag is set nothing is accepted any more. *)
Lemma run_closed ops tp es tp' :
  shutdown tp = true -> run ops tp = Some (es, tp') ->
  accepted es = [] /\ shutdown tp' = true.
Proof.
  revert tp es. induction ops as [|o ops IH]; intros tp es Hsd Hrun.
  - by injection Hrun as <- <-.
  - cbn [run] in Hrun.
    destruct (exec o tp) as [[e tp1]|] eqn:He; [|done].
    destruct (run ops tp1) as [[es1 tp2]|] eqn:Hr; [|done].
    injection Hrun as <- <-.
    assert (accepted [e] = [] /\ shutdown tp1 = true) as [He1 Hsd1].
    { destruct o as [f a| |]; simpl in He.
      - unfold add_work_cs in He. rewrite Hsd, andb_false_r in He.
        by injection He as <- <-.
      - unfold worker_cs in He. rewrite Hsd, andb_false_r in He. simpl in He.
        destruct (queue_size tp =? 0); [by injection He as <- <-|].
        destruct (arr_get _ _); [|done]. by injection He as <- <-.
      - by injection He as <- <-. }
    destruct (IH tp1 es1 Hsd1 Hr) as [Hacc Hsd2].
    change (e :: es1) with ([e] ++ es1).
    by rewrite accepted_app, He1, Hacc.
Qed.

(** How one critical section changes the queue size. *)
Definition size_step (e : event) (before after : Z) : Prop :=
  match e with
  | Accepted _ => before < MAX_QUEUE_SIZE /\ after = before + 1
  | Took _ => 0 < before /\ after = before - 1
  | _ => after = before
  end.

Lemma exec_size o tp :
  wf tp ->
  exists e tp', exec o tp = Some (e, tp') /\ wf tp' /\
    size_step e (queue_size tp) (queue_size tp').
Proof.
  intros Hwf. destruct o as [f a| |]; simpl.
  - destruct (add_work_cs_spec f a tp Hwf)
      as [[Hsd ->]|[(Hsd & _ & ->)|(Hsd & Hlt & tp1 & -> & Hwf1 & Hsz & _)]].
    + by eexists _, tp.
    + by eexists _, tp.
    + by eexists _, tp1.
  - destruct (worker_cs_spec tp Hwf)
      as [(Hsd & _ & ->)|[(Hsd & _ & ->)|(Hlt & w & tp1 & -> & Hwf1 & Hsz & _)]].
    + by eexists _, tp.
    + by eexists _, tp.
    + by eexists _, tp1.
  - eexists _, (set_shutdown tp).
    split; [done|]. split; [by apply wf_set_shutdown|done].
Qed.

End Queue.

(** ** thread_pool.c: the threads around the pool

    The pool of the demo is one heap block; the system below follows that
    block, the threads that [CreateThread] made, the threads asleep on
    the two condition variables and the client threads that are blocked
    inside a call. *)

Inductive thread := Client (t : nat) | Worker (i : nat).

#[global] Instance thread_eq_dec : EqDecision thread.
Proof. solve_decision. Defined.

(** Where a created thread stands in [worker_thread]. *)
Inductive worker_pc :=
  | AtLoop                          (* before the test of the wait loop *)
  | Calling (work : work_item_t)    (* before work.function(work.argument) *)
  | Exited.

#[global] Instance work_item_eq_dec : EqDecision work_item_t.
Proof. solve_decision. Defined.

#[global] Instance worker_pc_eq_dec : EqDecision worker_pc.
Proof. solve_decision. Defined.

(** A thread made by [CreateThread], and whether its handle is open. *)
Record kthread := { pc : worker_pc; handle_open : bool }.

(** The argument [tp] of [thread_pool_shutdown]. *)
Inductive pointer := NULL | PoolPtr.

Inductive call :=
  | CallStart (created : nat -> bool)   (* which [CreateThread] succeed *)
  | CallAddWork (function argument : Z)
  | CallShutdown (tp : pointer).

(** Where a client that is inside a call goes on.  A caller that waits
    for a thread waits on the handle [h] that it read from
    [worker_threads] before it blocked, whatever the array holds when it
    runs again. *)
Inductive kont :=
  | InAddWork (function argument : Z)   (* asleep in the wait loop *)
  | InShutdownJoin (i : nat) (h : HANDLE)
      (* in WaitForSingleObject(h), turn i of the loop *)
  | InStartFailed (i : nat)
      (* CreateThread returned NULL at index i; before the flag is set *)
  | InStartJoin (j i : nat) (h : HANDLE).
      (* in WaitForSingleObject(h), turn j of the loop of the failure path *)

Inductive value := VBool (b : bool) | VVoid.

Inductive sys_event :=
  | Ret (t : nat) (c : call) (r : value)
  | Executed (i : nat) (work : work_item_t).

Record system := {
  pool : thread_pool_t;
  freed : bool;                  (* free(tp) was called *)
  lock_deleted : bool;           (* DeleteCriticalSection was called *)
  threads : list kthread;        (* handle [S k] names [threads !! k] *)
  asleep_not_empty : list thread;
  asleep_not_full : list thread;
  blocked : gmap nat (call * kont);
  trace : list sys_event
}.

Inductive outcome :=
  | Returned (r : value) (s : system)
  | Blocked (k : kont) (s : system)
  | Crash.

Definition with_pool (tp : thread_pool_t) (s : system) : system :=
  {| pool := tp; freed := freed s; lock_deleted := lock_deleted s;
     threads := threads s; asleep_not_empty := asleep_not_empty s;
     asleep_not_full := asleep_not_full s; blocked := blocked s;
     trace := trace s |}.

Definition with_threads (ths : list kthread) (s : system) : system :=
  {| pool := pool s; freed := freed s; lock_deleted := lock_deleted s;
     threads := ths; asleep_not_empty := asleep_not_empty s;
     asleep_not_full := asleep_not_full s; blocked := blocked s;
     trace := trace s |}.

Definition with_blocked (b : gmap nat (call * kont)) (s : system) : system :=
  {| pool := pool s; freed := freed s; lock_deleted := lock_deleted s;
     threads := threads s; asleep_not_empty := asleep_not_empty s;
     asleep_not_full := asleep_not_full s; blocked := b;
     trace := trace s |}.

Definition log (e : sys_event) (s : system) : system :=
  {| pool := pool s; freed := freed s; lock_deleted := lock_deleted s;
     threads := threads s; asleep_not_empty := asleep_not_empty s;
     asleep_not_full := asleep_not_full s; blocked := blocked s;
     trace := trace s ++ [e] |}.

Definition DeleteCriticalSection (s : system) : system :=
  {| pool := pool s; freed := freed s; lock_deleted := true;
     threads := threads s; asleep_not_empty := asleep_not_empty s;
     asleep_not_full := asleep_not_full s; blocked := blocked s;
     trace := trace s |}.

Definition free (s : system) : system :=
  {| pool := pool s; freed := true; lock_deleted := lock_deleted s;
     threads := threads s; asleep_not_empty := asleep_not_empty s;
     asleep_not_full := asleep_not_full s; blocked := blocked s;
     trace := trace s |}.

Definition sleepers (cv : condvar) (s : system) : list thread :=
  match cv with
  | queue_not_empty => asleep_not_empty s
  | queue_not_full => asleep_not_full s
  end.

Definition with_sleepers (cv : condvar) (l : list thread) (s : system)
  : system :=
  match cv with
  | queue_not_empty =>
      {| pool := pool s; freed := freed s; lock_deleted := lock_deleted s;
         threads := threads s; asleep_not_empty := l;
         asleep_not_full := asleep_not_full s; blocked := blocked s;
         trace := trace s |}
  | queue_not_full =>
      {| pool := pool s; freed := freed s; lock_deleted := lock_deleted s;
         threads := threads s; asleep_not_empty := asleep_not_empty s;
         asleep_not_full := l; blocked := blocked s;
         trace := trace s |}
  end.

Definition is_asleep (th : thread) (s : system) : bool :=
  bool_decide (th ∈ asleep_not_empty s ++ asleep_not_full s).

(** [WakeConditionVariable] takes one sleeper off the condition variable,
    if there is one; which one is up to the system ([pick]). *)
Definition wake_one (pick : nat) (l : list thread) : list thread :=
  match l with
  | [] => []
  | _ :: _ => delete (pick `mod` length l)%nat l
  end.

Definition apply_wake (pick : nat) (w : wake condvar) (s : system) : system :=
  match w with
  | WakeConditionVariable cv =>
      with_sleepers cv (wake_one pick (sleepers cv s)) s
  | WakeAllConditionVariable cv => with_sleepers cv [] s
  end.

(** A thread takes the lock and runs the pass [p].  [None] is undefined
    behaviour; otherwise the result of the pass, or no result when the
    thread went to sleep. *)
Definition critical_section {R} (me : thread) (pick : nat)
    (p : thread_pool_t -> pass condvar thread_pool_t R) (s : system)
  : option (option R * system) :=
  if freed s || lock_deleted s then None
  else
    match p (pool s) with
    | Undefined => None
    | Sleep cv tp' =>
        let s' := with_pool tp' s in
        Some (None, with_sleepers cv (sleepers cv s' ++ [me]) s')
    | Done r ws tp' =>
        Some (Some r, foldl (fun s w => apply_wake pick w s) (with_pool tp' s) ws)
    end.

(** [CreateThread]: a new thread at the start of [worker_thread] and its
    handle, or [NULL]. *)
Definition CreateThread (ok : bool) (s : system) : HANDLE * system :=
  if ok
  then (S (length (threads s)),
        with_threads (threads s ++ [{| pc := AtLoop; handle_open := true |}]) s)
  else (0%nat, s).

(** [WaitForSingleObject(h, INFINITE)]: [true] when the call returns, which
    it does at once on an invalid handle and otherwise when the thread has
    ended. *)
Definition WaitForSingleObject (h : HANDLE) (s : system) : bool :=
  match h with
  | O => true
  | S k =>
      match threads s !! k with
      | Some th => if handle_open th then bool_decide (pc th = Exited) else true
      | None => true
      end
  end.

Definition CloseHandle (h : HANDLE) (s : system) : system :=
  match h with
  | O => s
  | S k =>
      with_threads
        (alter (fun th => {| pc := pc th; handle_open := false |}) k (threads s)) s
  end.

Definition set_pc (i : nat) (p : worker_pc) (s : system) : system :=
  with_threads
    (alter (fun th => {| pc := p; handle_open := handle_open th |}) i (threads s)) s.

(** [for (; i < i + n; i++) { WaitForSingleObject(tp->worker_threads[i]);
    CloseHandle(tp->worker_threads[i]); }]: done, or blocked in the wait of
    a turn, on the handle that was read for it. *)
Fixpoint join_workers (n i : nat) (s : system)
  : option (option (nat * HANDLE) * system) :=
  match n with
  | O => Some (None, s)
  | S n' =>
      if freed s then None
      else
        match worker_threads (pool s) !! i with
        | None => None
        | Some h =>
            if WaitForSingleObject h s
            then join_workers n' (S i) (CloseHandle h s)
            else Some (Some (i, h), s)
        end
  end.

(** The loop taken up again by a caller that was blocked in
    [WaitForSingleObject(h)] in turn [i], with [n] turns to go after this
    one.  The wait is on [h] and reads nothing of the pool; once it has
    returned, [CloseHandle(tp->worker_threads[i])] reads the array again. *)
Definition rejoin_workers (n i : nat) (h : HANDLE) (s : system)
  : option (option (nat * HANDLE) * system) :=
  if WaitForSingleObject h s
  then
    if freed s then None
    else
      match worker_threads (pool s) !! i with
      | None => None
      | Some h' => join_workers n (S i) (CloseHandle h' s)
      end
  else Some (Some (i, h), s).

(** [thread_pool_start] writes the flag and notifies [queue_not_empty]
    without taking the lock (lines 86 and 87), so both can fall between
    the test of the wait loop by a worker, which found the queue empty and
    the flag clear (line 149), and its [SleepConditionVariableCS] (line
    150).  That worker holds the lock, so there is at most one; it goes to
    sleep after the notification and with the flag set.  A turn of the
    worker loop is one step of the system below, so this worker is among
    the sleepers already when the flag is written; [pick] says whether
    there is one and which: [0] for none, [S k] for thread [k]. *)
Definition late_sleeper (pick : nat) (s : system) : list thread :=
  match pick with
  | O => []
  | S k =>
      if (queue_size (pool s) =? 0) && negb (shutdown (pool s))
         && bool_decide (Worker k ∈ asleep_not_empty s)
      then [Worker k]
      else []
  end.

Section System.
Variable MAX_QUEUE_SIZE : Z.
Variable THREAD_POOL_SIZE : nat.

(** The system after [thread_pool_init] on the block [mem]. *)
Definition boot (mem : thread_pool_t) : system :=
  {| pool := thread_pool_init mem; freed := false; lock_deleted := false;
     threads := []; asleep_not_empty := []; asleep_not_full := [];
     blocked := ∅; trace := [] |}.

Definition thread_pool_add_work (t pick : nat) (function argument : Z)
    (s : system) : outcome :=
  match critical_section (Client t) pick
          (add_work_cs MAX_QUEUE_SIZE function argument) s with
  | None => Crash
  | Some (None, s') => Blocked (InAddWork function argument) s'
  | Some (Some r, s') => Returned (VBool r) s'
  end.

(** One step of the thread [i] in [worker_thread]. *)
Definition worker_thread (i pick : nat) (s : system) : option system :=
  match threads s !! i with
  | None => Some s
  | Some th =>
      match pc th with
      | Exited => Some s
      | Calling work => Some (log (Executed i work) (set_pc i AtLoop s))
      | AtLoop =>
          if is_asleep (Worker i) s then Some s
          else
            match critical_section (Worker i) pick
                    (worker_cs MAX_QUEUE_SIZE) s with
            | None => None
            | Some (None, s') => Some s'
            | Some (Some Exit, s') => Some (set_pc i Exited s')
            | Some (Some (Work work), s') => Some (set_pc i (Calling work) s')
            end
      end
  end.

(** The end of the failure path of [thread_pool_start]: the loop of the
    joins, then [DeleteCriticalSection] and [return false]; [i] threads
    were created. *)
Definition start_joined (i : nat)
    (r : option (option (nat * HANDLE) * system)) : outcome :=
  match r with
  | None => Crash
  | Some (Some (j, h), s') => Blocked (InStartJoin j i h) s'
  | Some (None, s') =>
      if freed s' || lock_deleted s' then Crash
      else Returned (VBool false) (DeleteCriticalSection s')
  end.

(** The joins of the failure path from turn [j] on. *)
Definition start_join (j i : nat) (s : system) : outcome :=
  start_joined i (join_workers (i - j) j s).

(** The same for a caller that was blocked in turn [j]. *)
Definition start_rejoin (j i : nat) (h : HANDLE) (s : system) : outcome :=
  start_joined i (rejoin_workers (i - S j) j h s).

(** The failure path of [thread_pool_start] from line 86 on, [i] being
    the index at which [CreateThread] returned [NULL]: the flag, the
    notification of [queue_not_empty], which the late sleeper misses, and
    the joins. *)
Definition start_failed (pick i : nat) (s : system) : outcome :=
  if freed s then Crash
  else
    let late := late_sleeper pick s in
    let s3 := with_pool (set_shutdown (pool s)) s in
    let s4 := apply_wake 0 (WakeAllConditionVariable queue_not_empty) s3 in
    start_join 0 i (with_sleepers queue_not_empty late s4).

Definition store_worker_thread (i : nat) (h : HANDLE) (tp : thread_pool_t)
  : thread_pool_t :=
  {| queue := queue tp; queue_size := queue_size tp; head := head tp;
     tail := tail tp; worker_threads := <[i := h]> (worker_threads tp);
     shutdown := shutdown tp |}.

(** The loop of [thread_pool_start] from index [i], [n] turns to go.  The
    threads are made in one step; when a [CreateThread] returns [NULL] the
    caller is held where the failure path begins, so that the threads made
    so far can run before the flag is set. *)
Fixpoint start_workers (created : nat -> bool) (n i : nat) (s : system)
  : outcome :=
  match n with
  | O => Returned (VBool true) s
  | S n' =>
      if freed s then Crash
      else if bool_decide (length (worker_threads (pool s)) <= i)%nat
      then Crash
      else
        let '(h, s1) := CreateThread (created i) s in
        let s2 := with_pool (store_worker_thread i h (pool s1)) s1 in
        match h with
        | O => Blocked (InStartFailed i) s2
        | S _ => start_workers created n' (S i) s2
        end
  end.

Definition thread_pool_start (created : nat -> bool) (s : system) : outcome :=
  start_workers created THREAD_POOL_SIZE 0 s.

(** The end of [thread_pool_shutdown]: the loop of the joins, then
    [DeleteCriticalSection] and [free]. *)
Definition shutdown_joined (r : option (option (nat * HANDLE) * system))
  : outcome :=
  match r with
  | None => Crash
  | Some (Some (i, h), s') => Blocked (InShutdownJoin i h) s'
  | Some (None, s') =>
      if freed s' || lock_deleted s' then Crash
      else Returned VVoid (free (DeleteCriticalSection s'))
  end.

(** [thread_pool_shutdown] from the join of turn [i] on. *)
Definition shutdown_join (i : nat) (s : system) : outcome :=
  shutdown_joined (join_workers (THREAD_POOL_SIZE - i) i s).

(** The same for a caller that was blocked in turn [i]. *)
Definition shutdown_rejoin (i : nat) (h : HANDLE) (s : system) : outcome :=
  shutdown_joined (rejoin_workers (THREAD_POOL_SIZE - S i) i h s).

Definition thread_pool_shutdown (t pick : nat) (tp : pointer) (s : system)
  : outcome :=
  match tp with
  | NULL => Returned VVoid s
  | PoolPtr =>
      match critical_section (Client t) pick shutdown_cs s with
      | None => Crash
      | Some (_, s') => shutdown_join 0 s'
      end
  end.

(** *** Schedules *)

Inductive action :=
  | Call (t : nat) (c : call)   (* client [t] calls the pool *)
  | Resume (t : nat)            (* a client inside a call runs again *)
  | RunWorker (i : nat)         (* created thread [i] takes a step *)
  | Spurious (cv : condvar).    (* a sleeper wakes without a signal *)

Definition invoke (t pick : nat) (c : call) (s : system) : outcome :=
  match c with
  | CallStart created => thread_pool_start created s
  | CallAddWork f a => thread_pool_add_work t pick f a s
  | CallShutdown tp => thread_pool_shutdown t pick tp s
  end.

Definition resume (t pick : nat) (k : kont) (s : system) : outcome :=
  match k with
  | InAddWork f a => thread_pool_add_work t pick f a s
  | InShutdownJoin i h => shutdown_rejoin i h s
  | InStartFailed i => start_failed pick i s
  | InStartJoin j i h => start_rejoin j i h s
  end.

Definition settle (t : nat) (c : call) (o : outcome) : option system :=
  match o with
  | Crash => None
  | Blocked k s' => Some (with_blocked (<[t := (c, k)]> (blocked s')) s')
  | Returned r s' =>
      Some (log (Ret t c r) (with_blocked (delete t (blocked s')) s'))
  end.

(** One step of the system; [pick] resolves the choice of
    [WakeConditionVariable].  A step of a thread that cannot run (it is
    asleep, blocked or gone) leaves the system as it is. *)
Definition step (a : action) (pick : nat) (s : system) : option system :=
  match a with
  | Call t c =>
      match blocked s !! t with
      | Some _ => Some s
      | None => settle t c (invoke t pick c s)
      end
  | Resume t =>
      match blocked s !! t with
      | None => Some s
      | Some (c, k) =>
          if is_asleep (Client t) s then Some s
          else settle t c (resume t pick k s)
      end
  | RunWorker i => worker_thread i pick s
  | Spurious cv => Some (apply_wake pick (WakeConditionVariable cv) s)
  end.

Fixpoint run_system (sched : list (action * nat)) (s : system)
  : option system :=
  match sched with
  | [] => Some s
  | (a, pick) :: sched' =>
      match step a pick s with
      | None => None
      | Some s' => run_system sched' s'
      end
  end.

(** The work that [thread_pool_add_work] accepted, the work that was
    called, and the work a thread holds between the two. *)
Definition jobs_accepted (s : system) : list work_item_t :=
  omap (fun e => match e with
                 | Ret _ (CallAddWork f a) (VBool true) =>
                     Some {| function := f; argument := a |}
                 | _ => None
                 end) (trace s).

Definition jobs_executed (s : system) : list work_item_t :=
  omap (fun e => match e with Executed _ w => Some w | _ => None end)
    (trace s).

Definition held (th : kthread) : option work_item_t :=
  match pc th with Calling w => Some w | _ => None end.

Definition jobs_in_flight (s : system) : list work_item_t :=
  omap held (threads s).

End System.
End ThreadPool.

(** ** Facts about the calls of the pool *)

Module ThreadPoolFacts.
Import ThreadPool.

Lemma with_pool_same s : with_pool (pool s) s = s.
Proof. by destruct s. Qed.

(** The thread that [CreateThread] makes. *)
Definition fresh_thread : kthread := {| pc := AtLoop; handle_open := true |}.

(** *** What a step shows of the system

    The accounting of the work items looks at the pool, at where every
    created thread stands, and at the trace. *)

Definition pcs (s : system) : list worker_pc := map pc (threads s).

Definition held_pc (p : worker_pc) : option work_item_t :=
  match p with Calling w => Some w | _ => None end.

Definition accepted_of (e : sys_event) : option work_item_t :=
  match e with
  | Ret _ (CallAddWork f a) (VBool true) =>
      Some {| function := f; argument := a |}
  | _ => None
  end.

Definition executed_of (e : sys_event) : option work_item_t :=
  match e with Executed _ w => Some w | _ => None end.

(** A blocked client is blocked inside the call it made. *)
Definition kont_of_call (c : call) (k : kont) : Prop :=
  match k with
  | InAddWork f a => c = CallAddWork f a
  | InShutdownJoin _ _ => c = CallShutdown PoolPtr
  | InStartFailed _ => exists created, c = CallStart created
  | InStartJoin _ _ _ => exists created, c = CallStart created
  end.

Lemma pcs_set_pc i p s : pcs (set_pc i p s) = alter (fun _ => p) i (pcs s).
Proof.
  unfold pcs, set_pc. simpl. apply list_fmap_alter. by apply Forall_true.
Qed.

Lemma pcs_CloseHandle h s : pcs (CloseHandle h s) = pcs s.
Proof.
  unfold pcs, CloseHandle. destruct h as [|k]; [done|]. simpl.
  rewrite (list_fmap_alter _ _ id) by (by apply Forall_true).
  by apply list_alter_id.
Qed.

Lemma in_flight_pcs s : jobs_in_flight s = omap held_pc (pcs s).
Proof.
  unfold jobs_in_flight, pcs. induction (threads s) as [|th l IH]; [done|].
  change (omap held (th :: l))
    with (match held th with
          | Some w => w :: omap held l
          | None => omap held l
          end).
  change (omap held_pc (map pc (th :: l)))
    with (match held_pc (pc th) with
          | Some w => w :: omap held_pc (map pc l)
          | None => omap held_pc (map pc l)
          end).
  by rewrite IH.
Qed.

(** Changing one entry of a list changes what [omap] keeps of it by that
    entry only. *)
Lemma omap_alter_Permutation {A B} (f : A -> option B) (g : A -> A) l i x :
  l !! i = Some x ->
  option_list (f x) ++ omap f (alter g i l)
  ≡ₚ option_list (f (g x)) ++ omap f l.
Proof.
  revert i. induction l as [|y l IH]; intros [|i] Hi; try done.
  - simpl in Hi. injection Hi as ->. simpl.
    destruct (f x), (f (g x)); simpl; try done. apply perm_swap.
  - simpl in Hi. specialize (IH i Hi). simpl.
    destruct (f y) as [z|]; [|done].
    rewrite <- !Permutation_middle. by constructor.
Qed.

Lemma Exited_alter i p (ps : list worker_pc) :
  p <> Exited -> Exited ∈ alter (fun _ => p) i ps -> Exited ∈ ps.
Proof.
  intros Hp [j Hj]%list_elem_of_lookup.
  destruct (decide (i = j)) as [->|Hne].
  - rewrite list_lookup_alter_eq in Hj.
    destruct (ps !! j); simpl in Hj; congruence.
  - rewrite list_lookup_alter_ne in Hj by done.
    by eapply list_elem_of_lookup_2.
Qed.

Lemma pcs_lookup s i th : threads s !! i = Some th -> pcs s !! i = Some (pc th).
Proof. intros H. unfold pcs. by rewrite list_lookup_fmap, H. Qed.

Section Calls.
Variable MAX_QUEUE_SIZE : Z.
Variable THREAD_POOL_SIZE : nat.

(** On a pool whose flag is set, [thread_pool_add_work] returns [false]
    from its first test of the loop predicate, whatever the queue
    holds. *)
Lemma add_work_closed t pick f a s :
  shutdown (pool s) = true -> freed s = false -> lock_deleted s = false ->
  thread_pool_add_work MAX_QUEUE_SIZE t pick f a s = Returned (VBool false) s.
Proof.
  intros Hsd Hfr Hld. unfold thread_pool_add_work, critical_section.
  rewrite Hfr, Hld. simpl. unfold add_work_cs.
  rewrite Hsd, andb_false_r. simpl. by rewrite with_pool_same.
Qed.

(** On a closed and empty queue a turn of the worker loop leaves the
    loop. *)
Lemma worker_closed_empty i pick s th :
  shutdown (pool s) = true -> queue_size (pool s) = 0 ->
  freed s = false -> lock_deleted s = false ->
  threads s !! i = Some th -> pc th = AtLoop ->
  is_asleep (Worker i) s = false ->
  worker_thread MAX_QUEUE_SIZE i pick s = Some (set_pc i Exited s).
Proof.
  intros Hsd Hz Hfr Hld Hth Hpc Hawake. unfold worker_thread.
  rewrite Hth, Hpc, Hawake. unfold critical_section.
  rewrite Hfr, Hld. simpl. unfold worker_cs.
  rewrite Hsd, Hz. simpl. by rewrite with_pool_same.
Qed.

(** [thread_pool_shutdown] returns nothing, from the call and from a
    join that was blocked. *)
Lemma shutdown_joined_returns o r s' :
  shutdown_joined o = Returned r s' -> r = VVoid.
Proof.
  destruct o as [[[[j' h]|] s2]|]; simpl; try done.
  destruct (_ || _); [done|]. by intros [= <- _].
Qed.

Lemma shutdown_join_returns i s r s' :
  shutdown_join THREAD_POOL_SIZE i s = Returned r s' -> r = VVoid.
Proof. apply shutdown_joined_returns. Qed.

Lemma shutdown_rejoin_returns i h s r s' :
  shutdown_rejoin THREAD_POOL_SIZE i h s = Returned r s' -> r = VVoid.
Proof. apply shutdown_joined_returns. Qed.

Lemma thread_pool_shutdown_returns t pick tp s r s' :
  thread_pool_shutdown THREAD_POOL_SIZE t pick tp s = Returned r s' ->
  r = VVoid.
Proof.
  destruct tp; cbn [thread_pool_shutdown]; [by intros [= <- _]|].
  destruct (critical_section (Client t) pick shutdown_cs s)
    as [[r0 s1]|]; [|done].
  apply shutdown_join_returns.
Qed.

(** The notifications.  Accepted work wakes one sleeper of
    [queue_not_empty]; the critical section of the shutdown empties
    [queue_not_empty] and leaves [queue_not_full] alone. *)
Lemma add_work_wakes_one t pick f a s s' :
  thread_pool_add_work MAX_QUEUE_SIZE t pick f a s
  = Returned (VBool true) s' ->
  asleep_not_empty s' = wake_one pick (asleep_not_empty s) /\
  asleep_not_full s' = asleep_not_full s.
Proof.
  unfold thread_pool_add_work, critical_section.
  destruct (freed s || lock_deleted s); [done|].
  unfold add_work_cs.
  destruct ((queue_size (pool s) =? MAX_QUEUE_SIZE) && negb (shutdown (pool s)));
    [done|].
  destruct (shutdown (pool s)); [done|].
  destruct (arr_set _ _ _); [|done]. simpl. intros [= <-].
  split; reflexivity.
Qed.

Lemma wake_one_length pick l :
  length (wake_one pick l) = pred (length l).
Proof.
  destruct l as [|x l]; [done|]. unfold wake_one.
  rewrite length_delete; [simpl; lia|].
  apply lookup_lt_is_Some. apply Nat.mod_upper_bound. done.
Qed.

Lemma shutdown_wakes_workers_only t pick s :
  freed s = false -> lock_deleted s = false ->
  exists s',
    critical_section (Client t) pick shutdown_cs s = Some (Some tt, s') /\
    pool s' = set_shutdown (pool s) /\
    asleep_not_empty s' = [] /\
    asleep_not_full s' = asleep_not_full s.
Proof.
  intros Hfr Hld. unfold critical_section. rewrite Hfr, Hld. simpl.
  by eexists.
Qed.

(** [thread_pool_start] when every [CreateThread] succeeds: the loop
    from index [i] with [n] turns to go. *)
Lemma start_workers_ok created n i s :
  freed s = false ->
  (i + n <= length (worker_threads (pool s)))%nat ->
  (forall j, (i <= j < i + n)%nat -> created j = true) ->
  exists s',
    start_workers created n i s = Returned (VBool true) s' /\
    threads s' = threads s ++ replicate n fresh_thread /\
    (forall k, (k < n)%nat ->
       worker_threads (pool s') !! (i + k)%nat
       = Some (S (length (threads s) + k))) /\
    (forall j, (j < i)%nat ->
       worker_threads (pool s') !! j = worker_threads (pool s) !! j) /\
    length (worker_threads (pool s')) = length (worker_threads (pool s)) /\
    queue (pool s') = queue (pool s) /\
    queue_size (pool s') = queue_size (pool s) /\
    head (pool s') = head (pool s) /\ tail (pool s') = tail (pool s) /\
    shutdown (pool s') = shutdown (pool s) /\
    freed s' = false /\ lock_deleted s' = lock_deleted s /\
    asleep_not_empty s' = asleep_not_empty s /\
    asleep_not_full s' = asleep_not_full s /\
    blocked s' = blocked s /\ trace s' = trace s.
Proof.
  revert i s. induction n as [|n IH]; intros i s Hfr Hlen Hok.
  - exists s. simpl. rewrite app_nil_r.
    repeat split; try done. intros k Hk. lia.
  - cbn [start_workers]. rewrite Hfr.
    rewrite bool_decide_eq_false_2 by lia.
    unfold CreateThread. rewrite (Hok i) by lia.
    set (s2 := with_pool _ _).
    destruct (IH (S i) s2) as (s' & Hrun & Hth & Hnew & Hold & Hl & Hrest).
    { done. }
    { subst s2. simpl. rewrite length_insert. lia. }
    { intros j Hj. apply Hok. lia. }
    exists s'. split; [exact Hrun|].
    subst s2. simpl in *. rewrite length_insert in Hl.
    rewrite length_app in Hnew. simpl in Hnew.
    split; [by rewrite Hth, <- app_assoc|].
    split.
    { intros [|k] Hk.
      - rewrite Nat.add_0_r, Hold by lia.
        rewrite list_lookup_insert_eq by lia. f_equal. lia.
      - replace (i + S k)%nat with (S (i + k)) by lia.
        rewrite Hnew by lia. f_equal. lia. }
    split.
    { intros j Hj. rewrite Hold by lia.
      apply list_lookup_insert_ne. lia. }
    split; [done|]. exact Hrest.
Qed.

End Calls.

(** *** The invariant of the running system *)

(** Steps that neither touch the queue nor move a thread: the pool keeps
    its queue, the flag is not cleared, threads are only added (at the
    start of their loop), the trace and the blocked clients stay. *)
Record quiet (s s' : system) : Prop := {
  quiet_queue : queue (pool s') = queue (pool s);
  quiet_size : queue_size (pool s') = queue_size (pool s);
  quiet_head : head (pool s') = head (pool s);
  quiet_tail : tail (pool s') = tail (pool s);
  quiet_shutdown : shutdown (pool s) = true -> shutdown (pool s') = true;
  quiet_pcs : exists k, pcs s' = pcs s ++ replicate k AtLoop;
  quiet_trace : trace s' = trace s;
  quiet_blocked : blocked s' = blocked s
}.

Lemma quiet_refl s : quiet s s.
Proof. split; try done. exists 0%nat. by rewrite app_nil_r. Qed.

Lemma quiet_trans s1 s2 s3 : quiet s1 s2 -> quiet s2 s3 -> quiet s1 s3.
Proof.
  intros [Q1 Q2 Q3 Q4 Q5 [k1 Q6] Q7 Q8] [R1 R2 R3 R4 R5 [k2 R6] R7 R8].
  split; try congruence; [auto|].
  exists (k1 + k2)%nat. by rewrite R6, Q6, replicate_add, app_assoc.
Qed.

Lemma quiet_by_fields s s' :
  pool s' = pool s -> pcs s' = pcs s -> trace s' = trace s ->
  blocked s' = blocked s -> quiet s s'.
Proof.
  intros Hp Hpcs Ht Hb. split; rewrite ?Hp; try done.
  exists 0%nat. by rewrite app_nil_r.
Qed.

Lemma quiet_with_sleepers cv l s : quiet s (with_sleepers cv l s).
Proof. apply quiet_by_fields; by destruct cv. Qed.

Lemma quiet_apply_wake pick w s : quiet s (apply_wake pick w s).
Proof. destruct w; apply quiet_with_sleepers. Qed.

Lemma quiet_CloseHandle h s : quiet s (CloseHandle h s).
Proof.
  apply quiet_by_fields; try by destruct h. apply pcs_CloseHandle.
Qed.

Lemma quiet_DeleteCriticalSection s : quiet s (DeleteCriticalSection s).
Proof. by apply quiet_by_fields. Qed.

Lemma quiet_free s : quiet s (free s).
Proof. by apply quiet_by_fields. Qed.

Lemma quiet_with_pool_same s : quiet s (with_pool (pool s) s).
Proof. by apply quiet_by_fields. Qed.

Lemma quiet_set_shutdown s : quiet s (with_pool (set_shutdown (pool s)) s).
Proof. split; try done. exists 0%nat. by rewrite app_nil_r. Qed.

Lemma quiet_CreateThread ok s : quiet s (CreateThread ok s).2.
Proof.
  unfold CreateThread. destruct ok; [|apply quiet_refl].
  split; try done. exists 1%nat. unfold pcs. simpl. by rewrite map_app.
Qed.

Lemma join_workers_quiet n i s r s' :
  join_workers n i s = Some (r, s') -> quiet s s'.
Proof.
  revert i s. induction n as [|n IH]; intros i s H; simpl in H.
  - injection H as <- <-. apply quiet_refl.
  - destruct (freed s); [done|].
    destruct (worker_threads (pool s) !! i) as [h|]; [|done].
    destruct (WaitForSingleObject h s).
    + eapply quiet_trans; [apply (quiet_CloseHandle h)|by eapply IH].
    + injection H as <- <-. apply quiet_refl.
Qed.

Lemma rejoin_workers_quiet n i h s r s' :
  rejoin_workers n i h s = Some (r, s') -> quiet s s'.
Proof.
  unfold rejoin_workers. destruct (WaitForSingleObject h s).
  - destruct (freed s); [done|].
    destruct (worker_threads (pool s) !! i) as [h'|]; [|done].
    intros H. eapply quiet_trans; [apply (quiet_CloseHandle h')|].
    by eapply join_workers_quiet.
  - intros [= <- <-]. apply quiet_refl.
Qed.

Definition outcome_quiet (s : system) (o : outcome) : Prop :=
  match o with
  | Crash => True
  | Blocked _ s' | Returned _ s' => quiet s s'
  end.

(** *** The workers drain a closed queue

    What is left to do: two steps for a queued item (take it, call it),
    one more for a worker to leave. *)

Definition pc_weight (p : worker_pc) : nat :=
  match p with AtLoop => 1 | Calling _ => 2 | Exited => 0 end.

Definition work_left (s : system) : nat :=
  (2 * Z.to_nat (queue_size (pool s)) + sum_list_with pc_weight (pcs s))%nat.

Definition no_worker_asleep (s : system) : Prop :=
  forall i, is_asleep (Worker i) s = false.

Definition worker_steps (sched : list (action * nat)) : Prop :=
  Forall (fun a => exists i, a.1 = RunWorker i) sched.

Lemma weight_alter (ps : list worker_pc) i p0 p :
  ps !! i = Some p0 ->
  (sum_list_with pc_weight (alter (fun _ => p) i ps) + pc_weight p0
   = sum_list_with pc_weight ps + pc_weight p)%nat.
Proof.
  revert i. induction ps as [|q ps IH]; intros [|i] Hi; try done.
  - simpl in Hi. injection Hi as ->. cbn -[pc_weight]. lia.
  - simpl in Hi. specialize (IH i Hi). cbn -[pc_weight] in *. lia.
Qed.

Lemma is_asleep_weaken th s s' :
  asleep_not_empty s' = asleep_not_empty s ->
  (forall x, x ∈ asleep_not_full s' -> x ∈ asleep_not_full s) ->
  is_asleep th s = false -> is_asleep th s' = false.
Proof.
  unfold is_asleep. intros He Hf H.
  apply bool_decide_eq_false in H. apply bool_decide_eq_false.
  rewrite elem_of_app in *. rewrite He. intros [?|?]; apply H; auto.
Qed.

Lemma some_worker_left s :
  ~ Forall (fun th => pc th = Exited) (threads s) ->
  exists i th, threads s !! i = Some th /\ pc th <> Exited.
Proof.
  intros Hnot. apply not_Forall_Exists in Hnot; [|intros th; apply _].
  apply Exists_exists in Hnot as (th & Hin & Hpc).
  apply list_elem_of_lookup in Hin as [i Hth]. by exists i, th.
Qed.

Lemma wake_one_subset pick l x : x ∈ wake_one pick l -> x ∈ l.
Proof.
  destruct l as [|y l]; [done|]. unfold wake_one.
  apply list_elem_of_delete_inv.
Qed.

Section Invariant.
Variable MAX_QUEUE_SIZE : Z.
Variable THREAD_POOL_SIZE : nat.

Lemma start_joined_quiet i o s :
  (forall r s', o = Some (r, s') -> quiet s s') ->
  outcome_quiet s (start_joined i o).
Proof.
  intros Hq. destruct o as [[[[j' h]|] s']|]; simpl; [| |done].
  - by eapply Hq.
  - destruct (freed s' || lock_deleted s'); [done|]. simpl.
    eapply quiet_trans; [by eapply Hq|].
    apply quiet_DeleteCriticalSection.
Qed.

Lemma start_join_quiet j i s :
  outcome_quiet s (start_join j i s).
Proof.
  apply start_joined_quiet. intros r s'. apply join_workers_quiet.
Qed.

Lemma start_rejoin_quiet j i h s :
  outcome_quiet s (start_rejoin j i h s).
Proof.
  apply start_joined_quiet. intros r s'. apply rejoin_workers_quiet.
Qed.

Lemma outcome_quiet_trans s s1 o :
  quiet s s1 -> outcome_quiet s1 o -> outcome_quiet s o.
Proof.
  intros Hq. destruct o; simpl; try done; by apply quiet_trans.
Qed.

Lemma start_failed_quiet pick i s :
  outcome_quiet s (start_failed pick i s).
Proof.
  unfold start_failed. destruct (freed s); [done|]. cbv zeta.
  eapply outcome_quiet_trans; [|apply start_join_quiet].
  eapply quiet_trans; [apply quiet_set_shutdown|].
  eapply quiet_trans;
    [apply (quiet_apply_wake 0 (WakeAllConditionVariable queue_not_empty))|].
  apply quiet_with_sleepers.
Qed.

Lemma start_workers_quiet created n i s :
  outcome_quiet s (start_workers created n i s).
Proof.
  revert i s. induction n as [|n IH]; intros i s; simpl.
  { apply quiet_refl. }
  destruct (freed s); [done|].
  destruct (bool_decide _); [done|].
  pose proof (quiet_CreateThread (created i) s) as Hq1.
  destruct (CreateThread (created i) s) as [h s1]. simpl in Hq1.
  set (s2 := with_pool (store_worker_thread i h (pool s1)) s1).
  assert (Hq2 : quiet s s2).
  { eapply quiet_trans; [exact Hq1|]. split; try done.
    exists 0%nat. by rewrite app_nil_r. }
  destruct h as [|h]; cbv zeta.
  - exact Hq2.
  - specialize (IH (S i) s2).
    destruct (start_workers created n (S i) s2); simpl in *; try done;
      by eapply quiet_trans.
Qed.

Lemma shutdown_joined_quiet o s :
  (forall r s', o = Some (r, s') -> quiet s s') ->
  outcome_quiet s (shutdown_joined o).
Proof.
  intros Hq. destruct o as [[[[j' h]|] s']|]; simpl; [| |done].
  - by eapply Hq.
  - destruct (freed s' || lock_deleted s'); [done|]. simpl.
    eapply quiet_trans; [by eapply Hq|].
    eapply quiet_trans; [apply quiet_DeleteCriticalSection|].
    apply quiet_free.
Qed.

Lemma shutdown_join_quiet i s :
  outcome_quiet s (shutdown_join THREAD_POOL_SIZE i s).
Proof.
  apply shutdown_joined_quiet. intros r s'. apply join_workers_quiet.
Qed.

Lemma shutdown_rejoin_quiet i h s :
  outcome_quiet s (shutdown_rejoin THREAD_POOL_SIZE i h s).
Proof.
  apply shutdown_joined_quiet. intros r s'. apply rejoin_workers_quiet.
Qed.

Lemma thread_pool_shutdown_quiet t pick tp s :
  outcome_quiet s (thread_pool_shutdown THREAD_POOL_SIZE t pick tp s).
Proof.
  destruct tp; simpl; [apply quiet_refl|].
  unfold critical_section.
  destruct (freed s || lock_deleted s); [done|]. simpl.
  match goal with
  | |- outcome_quiet _ (shutdown_join _ 0 ?x) => set (s1 := x)
  end.
  assert (Hq : quiet s s1).
  { eapply quiet_trans; [apply quiet_set_shutdown|].
    apply (quiet_with_sleepers queue_not_empty []). }
  pose proof (shutdown_join_quiet 0 s1) as Hj.
  destruct (shutdown_join THREAD_POOL_SIZE 0 s1); simpl in *; try done;
    by eapply quiet_trans.
Qed.

(** The kind of continuation a call can leave behind. *)
Lemma add_work_kont t pick f a s k s' :
  thread_pool_add_work MAX_QUEUE_SIZE t pick f a s = Blocked k s' ->
  k = InAddWork f a.
Proof.
  unfold thread_pool_add_work.
  destruct (critical_section (Client t) pick
              (add_work_cs MAX_QUEUE_SIZE f a) s) as [[[r|] s1]|]; try done.
  by intros [= <- <-].
Qed.

Lemma shutdown_joined_kont o k s' :
  shutdown_joined o = Blocked k s' -> exists i' h, k = InShutdownJoin i' h.
Proof.
  destruct o as [[[[j' h]|] s2]|]; simpl; try done.
  - intros [= <- <-]. by eexists _, _.
  - by destruct (_ || _).
Qed.

Lemma start_joined_kont i o k s' :
  start_joined i o = Blocked k s' -> exists j' h, k = InStartJoin j' i h.
Proof.
  destruct o as [[[[j' h]|] s2]|]; simpl; try done.
  - intros [= <- <-]. by eexists _, _.
  - by destruct (_ || _).
Qed.

Lemma start_failed_kont pick i s k s' :
  start_failed pick i s = Blocked k s' -> exists j' h, k = InStartJoin j' i h.
Proof.
  unfold start_failed. destruct (freed s); [done|]. apply start_joined_kont.
Qed.

Lemma start_workers_kont created n i s k s' :
  start_workers created n i s = Blocked k s' ->
  exists i', k = InStartFailed i'.
Proof.
  revert i s. induction n as [|n IH]; intros i s; simpl; [done|].
  destruct (freed s); [done|]. destruct (bool_decide _); [done|].
  destruct (CreateThread (created i) s) as [[|h] s1].
  - intros [= <- <-]. by eexists.
  - apply IH.
Qed.

(** The kind of continuation a call can leave behind. *)
Lemma invoke_kont t pick c s k s' :
  invoke MAX_QUEUE_SIZE THREAD_POOL_SIZE t pick c s = Blocked k s' ->
  kont_of_call c k.
Proof.
  destruct c as [created|f a|tp]; cbn [invoke].
  - intros (i' & ->)%start_workers_kont. by exists created.
  - by intros ->%add_work_kont.
  - destruct tp; [done|]. cbn [thread_pool_shutdown].
    destruct (critical_section (Client t) pick shutdown_cs s)
      as [[r s1]|]; [|done].
    by intros (i' & h & ->)%shutdown_joined_kont.
Qed.

Lemma resume_kont t pick k0 c s k s' :
  kont_of_call c k0 ->
  resume MAX_QUEUE_SIZE THREAD_POOL_SIZE t pick k0 s = Blocked k s' ->
  kont_of_call c k.
Proof.
  destruct k0 as [f a|i h|i|j i h]; cbn [resume kont_of_call]; intros Hc.
  - by intros ->%add_work_kont.
  - by intros (i' & h' & ->)%shutdown_joined_kont.
  - by intros (j' & h' & ->)%start_failed_kont.
  - by intros (j' & h' & ->)%start_joined_kont.
Qed.

Hypothesis size_ok : 0 < MAX_QUEUE_SIZE <= CInt.INT_MAX.

(** The invariant: the queue is well formed; every accepted work item
    is exactly one of executed, held by a worker that is about to call
    it, or still queued; a worker has left its loop only if the flag is
    set and the queue is empty; a blocked client is inside its call. *)
Record sys_inv (s : system) : Prop := {
  inv_wf : wf MAX_QUEUE_SIZE (pool s);
  inv_jobs :
    jobs_accepted s
    ≡ₚ jobs_executed s ++ omap held_pc (pcs s)
         ++ contents MAX_QUEUE_SIZE (pool s);
  inv_exit :
    Exited ∈ pcs s -> shutdown (pool s) = true /\ queue_size (pool s) = 0;
  inv_blocked :
    forall t c k, blocked s !! t = Some (c, k) -> kont_of_call c k
}.

Lemma inv_boot mem :
  Z.of_nat (length (queue mem)) = MAX_QUEUE_SIZE -> sys_inv (boot mem).
Proof.
  intros Hlen. split; simpl.
  - by apply queue_wf_init.
  - done.
  - by intros ?%elem_of_nil.
  - intros t c k H. by rewrite lookup_empty in H.
Qed.

Lemma inv_quiet s s' : sys_inv s -> quiet s s' -> sys_inv s'.
Proof.
  intros [[W1 W2 W3 W4] Hj He Hb] [Q1 Q2 Q3 Q4 Q5 [k Q6] Q7 Q8]. split.
  - split; rewrite ?Q1, ?Q2, ?Q3, ?Q4; done.
  - unfold jobs_accepted, jobs_executed, contents in *.
    rewrite Q7, Q6, Q1, Q2, Q3, omap_app.
    replace (omap held_pc (replicate k AtLoop)) with (@nil work_item_t).
    + by rewrite app_nil_r.
    + clear. induction k; simpl; done.
  - rewrite Q6, Q2. intros [H|H%elem_of_replicate_inv]%elem_of_app; [|done].
    destruct (He H). auto.
  - rewrite Q8. exact Hb.
Qed.

(** A call that was quiet is settled: the client is recorded as blocked,
    or its return is logged. *)
Lemma inv_settle_quiet t c o s s' :
  sys_inv s -> outcome_quiet s o ->
  (forall k s1, o = Blocked k s1 -> kont_of_call c k) ->
  (forall r s1, o = Returned r s1 -> accepted_of (Ret t c r) = None) ->
  settle t c o = Some s' -> sys_inv s'.
Proof.
  intros Hinv Hq Hk Hr Hs. destruct o as [r s1|k s1|]; simpl in *; [| |done].
  - injection Hs as <-. specialize (Hr r s1 eq_refl).
    destruct (inv_quiet s s1 Hinv Hq) as [Hw Hj He Hb]. split; simpl.
    + done.
    + unfold jobs_accepted, jobs_executed in *. simpl.
      rewrite !omap_app. simpl. rewrite Hr. simpl.
      by rewrite !app_nil_r.
    + done.
    + intros t' c' k' [_ H]%lookup_delete_Some. by eapply Hb.
  - injection Hs as <-.
    destruct (inv_quiet s s1 Hinv Hq) as [Hw Hj He Hb]. split; simpl; try done.
    intros t' c' k' [[_ [= <- <-]]|[_ H]]%lookup_insert_Some.
    + by eapply Hk.
    + by eapply Hb.
Qed.

(** [thread_pool_add_work], from a call or from the wait loop. *)
Lemma inv_add_work t pick f a s s' :
  sys_inv s ->
  settle t (CallAddWork f a)
    (thread_pool_add_work MAX_QUEUE_SIZE t pick f a s) = Some s' ->
  sys_inv s'.
Proof.
  intros Hinv. unfold thread_pool_add_work, critical_section.
  destruct (freed s || lock_deleted s); [done|].
  destruct (add_work_cs_spec MAX_QUEUE_SIZE size_ok f a (pool s) (inv_wf s Hinv))
    as [[Hsd ->]|[(Hsd & _ & ->)|(Hsd & _ & tp1 & -> & Hwf1 & _ & Hsd1 & _ & Hc)]].
  - intros Hs. eapply inv_settle_quiet; [exact Hinv| | | |exact Hs]; try done.
    + by apply quiet_by_fields.
    + by intros r s1 [= <- <-].
  - intros Hs. eapply inv_settle_quiet; [exact Hinv| | | |exact Hs]; try done.
    + by apply quiet_by_fields.
    + by intros k s1 [= <- <-].
  - simpl. intros [= <-].
    destruct Hinv as [Hw Hj He Hb]. split; simpl.
    + done.
    + unfold jobs_accepted, jobs_executed in *. simpl.
      rewrite !omap_app. simpl. rewrite Hc, Hj, app_nil_r.
      by rewrite <- !app_assoc.
    + intros H. destruct (He H). congruence.
    + intros t' c' k' [_ H]%lookup_delete_Some. by eapply Hb.
Qed.

(** A step of a created thread. *)
Lemma inv_worker i pick s s' :
  sys_inv s -> worker_thread MAX_QUEUE_SIZE i pick s = Some s' -> sys_inv s'.
Proof.
  intros Hinv. unfold worker_thread.
  destruct (threads s !! i) as [th|] eqn:Hth; [|by intros [= <-]].
  pose proof (pcs_lookup s i th Hth) as Hpc.
  destruct (pc th) as [|w|] eqn:Epc; [| |by intros [= <-]].
  - destruct (is_asleep (Worker i) s); [by intros [= <-]|].
    unfold critical_section.
    destruct (freed s || lock_deleted s); [done|].
    destruct (worker_cs_spec MAX_QUEUE_SIZE size_ok (pool s) (inv_wf s Hinv))
      as [(Hsd & _ & ->)|[(Hsd & Hz & ->)|(Hlt & w & tp1 & -> & Hwf1 & _ & Hsd1 & _ & Hc)]].
    + intros [= <-]. eapply inv_quiet; [exact Hinv|].
      by apply quiet_by_fields.
    + simpl. intros [= <-].
      destruct Hinv as [Hw Hj He Hb]. split; simpl; try done.
      * unfold jobs_accepted, jobs_executed in *. simpl.
        rewrite Hj. do 2 f_equiv.
        change (pcs (set_pc i Exited (with_pool (pool s) s)))
          with (pcs (set_pc i Exited s)).
        rewrite pcs_set_pc.
        symmetry.
        apply (omap_alter_Permutation held_pc (fun _ => Exited) _ i AtLoop Hpc).
    + simpl. intros [= <-].
      destruct Hinv as [Hw Hj He Hb]. split; simpl; try done.
      * unfold jobs_accepted, jobs_executed in *. simpl.
        rewrite Hj, Hc. f_equiv.
        match goal with
        | |- _ ≡ₚ omap held_pc (pcs ?x) ++ _ =>
            change (pcs x) with (pcs (set_pc i (Calling w) s))
        end.
        rewrite pcs_set_pc.
        pose proof (omap_alter_Permutation held_pc
                      (fun _ => Calling w) _ i AtLoop Hpc) as Hp.
        simpl in Hp. rewrite Hp. simpl. symmetry. apply Permutation_middle.
      * match goal with
        | |- Exited ∈ pcs ?x -> _ =>
            change (pcs x) with (pcs (set_pc i (Calling w) s))
        end.
        rewrite pcs_set_pc. intros H%Exited_alter; [|done].
        destruct (He H). lia.
  - intros [= <-].
    destruct Hinv as [Hw Hj He Hb]. split; simpl; try done.
    + unfold jobs_accepted, jobs_executed in *. simpl.
      rewrite !omap_app. simpl. rewrite app_nil_r, Hj.
      change (pcs (log _ (set_pc i AtLoop s)))
        with (pcs (set_pc i AtLoop s)).
      rewrite pcs_set_pc.
      pose proof (omap_alter_Permutation held_pc
                    (fun _ => AtLoop) _ i (Calling w) Hpc) as Hp.
      simpl in Hp. rewrite <- Hp. by rewrite <- !app_assoc.
    + change (pcs (log _ (set_pc i AtLoop s)))
        with (pcs (set_pc i AtLoop s)).
      rewrite pcs_set_pc. intros H%Exited_alter; [|done]. by apply He.
Qed.

Lemma inv_step a pick s s' :
  sys_inv s ->
  step MAX_QUEUE_SIZE THREAD_POOL_SIZE a pick s = Some s' -> sys_inv s'.
Proof.
  intros Hinv. destruct a as [t c|t|i|cv]; simpl.
  - destruct (blocked s !! t) as [[c0 k0]|]; [by intros [= <-]|].
    intros Hs. destruct c as [created|f a|tp].
    + eapply inv_settle_quiet; [exact Hinv| | | |exact Hs]; try done.
      * apply start_workers_quiet.
      * intros k s1 H. by eapply (invoke_kont t pick (CallStart created)).
    + by eapply inv_add_work.
    + eapply inv_settle_quiet; [exact Hinv| | | |exact Hs]; try done.
      * apply thread_pool_shutdown_quiet.
      * intros k s1 H. by eapply (invoke_kont t pick (CallShutdown tp)).
  - destruct (blocked s !! t) as [[c k]|] eqn:Hb; [|by intros [= <-]].
    destruct (is_asleep (Client t) s); [by intros [= <-]|].
    pose proof (inv_blocked s Hinv t c k Hb) as Hck.
    intros Hs. destruct k as [f a|i h|i|j i h]; simpl in Hck.
    + subst c. by eapply inv_add_work.
    + subst c.
      eapply inv_settle_quiet; [exact Hinv| | | |exact Hs]; try done.
      * apply shutdown_rejoin_quiet.
      * intros k s1 H.
        by eapply (resume_kont t pick (InShutdownJoin i h) _ s).
    + destruct Hck as [created ->].
      eapply inv_settle_quiet; [exact Hinv| | | |exact Hs]; try done.
      * apply start_failed_quiet.
      * intros k s1 H.
        eapply (resume_kont t pick (InStartFailed i) _ s); [|exact H].
        by exists created.
    + destruct Hck as [created ->].
      eapply inv_settle_quiet; [exact Hinv| | | |exact Hs]; try done.
      * apply start_rejoin_quiet.
      * intros k s1 H.
        eapply (resume_kont t pick (InStartJoin j i h) _ s); [|exact H].
        by exists created.
  - by apply inv_worker.
  - intros [= <-]. eapply inv_quiet; [exact Hinv|].
    apply (quiet_apply_wake pick (WakeConditionVariable cv)).
Qed.

(** When every created thread has left its loop, and there is at least
    one, nothing is queued or held any more. *)
Lemma all_exited_all_executed s :
  sys_inv s -> threads s <> [] ->
  Forall (fun th => pc th = Exited) (threads s) ->
  jobs_executed s ≡ₚ jobs_accepted s.
Proof.
  intros [Hw Hj He Hb] Hne Hall. rewrite Hj.
  assert (Hin : Exited ∈ pcs s).
  { unfold pcs. destruct (threads s) as [|th l]; [done|].
    apply Forall_cons in Hall as [Hth _]. simpl. rewrite Hth. by left. }
  destruct (He Hin) as [_ Hz]. rewrite (contents_empty _ _ Hz).
  replace (omap held_pc (pcs s)) with (@nil work_item_t).
  { by rewrite !app_nil_r. }
  unfold pcs. clear -Hall. induction Hall as [|th l Hth _ IH]; [done|].
  change (omap held_pc (map pc (th :: l)))
    with (match held_pc (pc th) with
          | Some w => w :: omap held_pc (map pc l)
          | None => omap held_pc (map pc l)
          end).
  by rewrite Hth.
Qed.

(** With the flag set, a step of a thread that has not left its loop is
    one step of the work that is left: it takes an item, or calls the item
    it took, or leaves; it never sleeps. *)
Lemma worker_progress i pick th s :
  sys_inv s -> shutdown (pool s) = true ->
  freed s = false -> lock_deleted s = false -> no_worker_asleep s ->
  threads s !! i = Some th -> pc th <> Exited ->
  exists s',
    worker_thread MAX_QUEUE_SIZE i pick s = Some s' /\
    S (work_left s') = work_left s /\
    shutdown (pool s') = true /\ freed s' = false /\
    lock_deleted s' = false /\ no_worker_asleep s' /\
    jobs_accepted s' = jobs_accepted s /\
    length (threads s') = length (threads s).
Proof.
  intros Hinv Hsd Hfr Hld Hawake Hth Hpc.
  pose proof (pcs_lookup s i th Hth) as Hp.
  unfold worker_thread. rewrite Hth.
  destruct (pc th) as [|w|] eqn:Epc; [| |done].
  - rewrite (Hawake i). unfold critical_section. rewrite Hfr, Hld. simpl.
    destruct (worker_cs_spec MAX_QUEUE_SIZE size_ok (pool s) (inv_wf s Hinv))
      as [(Hsd' & _)|[(_ & Hz & ->)|(Hlt & w & tp1 & -> & Hwf1 & Hsz & Hsd1 & _)]];
      [congruence| |].
    + eexists. split; [reflexivity|]. simpl. split.
      { unfold work_left.
        change (pcs (set_pc i Exited (with_pool (pool s) s)))
          with (pcs (set_pc i Exited s)).
        rewrite pcs_set_pc. simpl.
        pose proof (weight_alter (pcs s) i AtLoop Exited Hp). simpl in *. lia. }
      split_and!; try done. by rewrite length_alter.
    + eexists. split; [reflexivity|]. simpl. split.
      { unfold work_left. simpl. rewrite Hsz.
        match goal with
        | |- context [pcs ?x] =>
            change (pcs x) with (pcs (set_pc i (Calling w) s))
        end.
        rewrite pcs_set_pc.
        pose proof (weight_alter (pcs s) i AtLoop (Calling w) Hp).
        simpl in *. lia. }
      split_and!; try done.
      * congruence.
      * intros j. apply (is_asleep_weaken _ s); [done| |apply Hawake].
        simpl. apply wake_one_subset.
      * by rewrite length_alter.
  - eexists. split; [reflexivity|]. simpl. split.
    { unfold work_left. simpl.
      change (pcs (log (Executed i w) (set_pc i AtLoop s)))
        with (pcs (set_pc i AtLoop s)).
      rewrite pcs_set_pc.
      pose proof (weight_alter (pcs s) i (Calling w) AtLoop Hp).
      simpl in *. lia. }
    split_and!; try done.
    + unfold jobs_accepted. simpl. by rewrite omap_app, app_nil_r.
    + by rewrite length_alter.
Qed.

(** Hence the workers can always finish: from a state in which the flag is
    set, the pool is alive and no worker is asleep, some steps of the
    workers lead to a state in which every worker has left its loop. *)
Lemma drain_exists n s :
  work_left s = n ->
  sys_inv s -> shutdown (pool s) = true ->
  freed s = false -> lock_deleted s = false -> no_worker_asleep s ->
  exists sched s',
    worker_steps sched /\
    run_system MAX_QUEUE_SIZE THREAD_POOL_SIZE sched s = Some s' /\
    Forall (fun th => pc th = Exited) (threads s') /\
    sys_inv s' /\
    jobs_accepted s' = jobs_accepted s /\
    length (threads s') = length (threads s).
Proof.
  revert s. induction n as [|n IH]; intros s Hn Hinv Hsd Hfr Hld Hawake.
  all: destruct (decide (Forall (fun th => pc th = Exited) (threads s)))
         as [Hall|Hnot];
       [exists [], s; split; [by apply Forall_nil|done]|].
  all: destruct (some_worker_left s Hnot) as (i & th & Hth & Hpc).
  all: destruct (worker_progress i 0 th s Hinv Hsd Hfr Hld Hawake Hth Hpc)
         as (s1 & Hstep & Hleft & Hsd1 & Hfr1 & Hld1 & Hawake1 & Hacc1 & Hlen1).
  - lia.
  - destruct (IH s1) as (sched & s' & Hw & Hrun & Hall & Hinv' & Hacc & Hlen);
      try done; [lia|by eapply inv_worker|].
    exists ((RunWorker i, 0%nat) :: sched), s'.
    split; [constructor; [by exists i|done]|].
    split; [simpl; by rewrite Hstep|].
    split; [done|]. split; [done|]. split; congruence.
Qed.

Lemma inv_run sched s s' :
  sys_inv s ->
  run_system MAX_QUEUE_SIZE THREAD_POOL_SIZE sched s = Some s' -> sys_inv s'.
Proof.
  revert s. induction sched as [|[a pick] sched IH]; intros s Hinv; simpl.
  - by intros [= <-].
  - destruct (step _ _ a pick s) as [s1|] eqn:Hs; [|done].
    apply IH. by eapply inv_step.
Qed.

End Invariant.
End ThreadPoolFacts.

(** ** The demo: the values of the macros and a run of [thread_pool_demo] *)

Module Demo.
Import ThreadPool.

Definition BUFFER_SIZE : Z := 5.
Definition MAX_QUEUE_SIZE : Z := 100.
Definition THREAD_POOL_SIZE : nat := 4.

(** A block as [malloc] hands it out: nothing in it is initialised. *)
Definition block : thread_pool_t :=
  {| queue := replicate 100 {| function := -1; argument := -1 |};
     queue_size := 77; head := 55; tail := 33;
     worker_threads := replicate 4 9%nat; shutdown := true |}.

(** Every [CreateThread] succeeds. *)
Definition all_created : nat -> bool := fun _ => true.

(** The address of [example_job] and of the [job_data_t] of job [i]. *)
Definition example_job : Z := 4198400.
Definition job_data (i : nat) : Z := 8192 + 8 * Z.of_nat i.

Definition job (i : nat) : work_item_t :=
  {| function := example_job; argument := job_data i |}.

(** The main thread is client [0]. *)
Definition start : action * nat := (Call 0 (CallStart all_created), 0%nat).
Definition add (t i : nat) : action * nat :=
  (Call t (CallAddWork example_job (job_data i)), 0%nat).
Definition close : action * nat := (Call 0 (CallShutdown PoolPtr), 0%nat).
Definition workers : list (action * nat) :=
  map (fun i => (RunWorker i, 0%nat)) (seq 0 THREAD_POOL_SIZE).

(** [thread_pool_demo]: ten jobs, which the four workers run in three
    rounds, then the shutdown. *)
Definition demo : list (action * nat) :=
  start :: map (add 0) (seq 0 10)
    ++ concat (replicate 3 (workers ++ workers))
    ++ close :: workers ++ [(Resume 0, 0%nat)].

Definition run_demo (sched : list (action * nat)) : option system :=
  run_system MAX_QUEUE_SIZE THREAD_POOL_SIZE sched (boot block).

(** A fact about the state that a run ends in, read off the run. *)
Lemma run_fact {A} (f : system -> A) (o : option system) s v :
  o = Some s -> f <$> o = Some v -> f s = v.
Proof. intros -> [= ->]. reflexivity. Defined.

End Demo.

(** * More of thread_pool.c: what one step does to the work items *)

Module PoolSteps.
Import ThreadPool ThreadPoolFacts.

Section Steps.
Variable C : Z.
Variable W : nat.
Hypothesis size_ok : 0 < C <= CInt.INT_MAX.


(** The five things a step can do to the work items: nothing, accept one,
    let a worker take the oldest, let a worker call what it took, let a
    worker leave. *)
Inductive view_step (s s' : system) : Prop :=
  | vs_quiet :
      ThreadPool.contents C (pool s') = ThreadPool.contents C (pool s) ->
      queue_size (pool s') = queue_size (pool s) ->
      (exists k, pcs s' = pcs s ++ replicate k AtLoop) ->
      jobs_accepted s' = jobs_accepted s ->
      jobs_executed s' = jobs_executed s ->
      (shutdown (pool s) = true -> shutdown (pool s') = true) ->
      view_step s s'
  | vs_accept w :
      shutdown (pool s) = false -> shutdown (pool s') = false ->
      pcs s' = pcs s ->
      ThreadPool.contents C (pool s') = ThreadPool.contents C (pool s) ++ [w] ->
      jobs_accepted s' = jobs_accepted s ++ [w] ->
      jobs_executed s' = jobs_executed s ->
      view_step s s'
  | vs_take i w :
      pcs s !! i = Some AtLoop ->
      pcs s' = alter (fun _ => Calling w) i (pcs s) ->
      ThreadPool.contents C (pool s) = w :: ThreadPool.contents C (pool s') ->
      shutdown (pool s') = shutdown (pool s) ->
      jobs_accepted s' = jobs_accepted s ->
      jobs_executed s' = jobs_executed s ->
      view_step s s'
  | vs_exec i w :
      pcs s !! i = Some (Calling w) ->
      pcs s' = alter (fun _ => AtLoop) i (pcs s) ->
      pool s' = pool s ->
      jobs_accepted s' = jobs_accepted s ->
      jobs_executed s' = jobs_executed s ++ [w] ->
      view_step s s'
  | vs_exit i :
      pcs s !! i = Some AtLoop ->
      pcs s' = alter (fun _ => Exited) i (pcs s) ->
      pool s' = pool s ->
      shutdown (pool s) = true -> queue_size (pool s) = 0 ->
      jobs_accepted s' = jobs_accepted s ->
      jobs_executed s' = jobs_executed s ->
      view_step s s'.

Lemma view_of_quiet s s' : quiet s s' -> view_step s s'.
Proof.
  intros [Q1 Q2 Q3 Q4 Q5 Q6 Q7 Q8]. apply vs_quiet; try done.
  - unfold ThreadPool.contents. by rewrite Q1, Q2, Q3.
  - unfold jobs_accepted. by rewrite Q7.
  - unfold jobs_executed. by rewrite Q7.
Qed.

(** Settling a call that was quiet and did not accept work. *)
Lemma view_settle_quiet t c o s s' :
  outcome_quiet s o ->
  (forall r s1, o = Returned r s1 -> accepted_of (Ret t c r) = None) ->
  settle t c o = Some s' -> view_step s s'.
Proof.
  intros Hq Hr Hs. destruct o as [r s1|k s1|]; simpl in *; [| |done].
  - injection Hs as <-. specialize (Hr r s1 eq_refl).
    destruct Hq as [Q1 Q2 Q3 Q4 Q5 Q6 Q7 Q8]. apply vs_quiet.
    + unfold ThreadPool.contents. simpl. by rewrite Q1, Q2, Q3.
    + exact Q2.
    + exact Q6.
    + unfold jobs_accepted. simpl. rewrite omap_app, Q7. simpl.
      rewrite Hr. by rewrite app_nil_r.
    + unfold jobs_executed. simpl. rewrite omap_app, Q7. simpl.
      by rewrite app_nil_r.
    + exact Q5.
  - injection Hs as <-.
    destruct Hq as [Q1 Q2 Q3 Q4 Q5 Q6 Q7 Q8]. apply vs_quiet.
    + unfold ThreadPool.contents. simpl. by rewrite Q1, Q2, Q3.
    + exact Q2.
    + exact Q6.
    + unfold jobs_accepted. simpl. by rewrite Q7.
    + unfold jobs_executed. simpl. by rewrite Q7.
    + exact Q5.
Qed.

Lemma view_add_work t pick f a s s' :
  sys_inv C s ->
  settle t (CallAddWork f a)
    (thread_pool_add_work C t pick f a s) = Some s' ->
  view_step s s'.
Proof.
  intros Hinv. unfold thread_pool_add_work, critical_section.
  destruct (freed s || lock_deleted s); [done|].
  destruct (add_work_cs_spec C size_ok f a (pool s)
              (inv_wf C s Hinv))
    as [[Hsd ->]|[(Hsd & _ & ->)|(Hsd & _ & tp1 & -> & Hwf1 & _ & Hsd1 & _ & Hc)]].
  - intros Hs. eapply view_settle_quiet; [| |exact Hs].
    + by apply quiet_by_fields.
    + by intros r s1 [= <- <-].
  - intros Hs. eapply view_settle_quiet; [| |exact Hs].
    + by apply quiet_by_fields.
    + done.
  - simpl. intros [= <-].
    apply (vs_accept _ _ {| function := f; argument := a |}); simpl; try done.
    + unfold jobs_accepted. simpl. by rewrite omap_app.
    + unfold jobs_executed. simpl. by rewrite omap_app, app_nil_r.
Qed.

Lemma view_worker i pick s s' :
  sys_inv C s -> worker_thread C i pick s = Some s' ->
  view_step s s'.
Proof.
  intros Hinv. unfold worker_thread.
  destruct (threads s !! i) as [th|] eqn:Hth;
    [|intros [= <-]; apply view_of_quiet, quiet_refl].
  pose proof (pcs_lookup s i th Hth) as Hpc.
  destruct (pc th) as [|w|] eqn:Epc;
    [| |intros [= <-]; apply view_of_quiet, quiet_refl].
  - destruct (is_asleep (Worker i) s);
      [intros [= <-]; apply view_of_quiet, quiet_refl|].
    unfold critical_section.
    destruct (freed s || lock_deleted s); [done|].
    destruct (worker_cs_spec C size_ok (pool s) (inv_wf C s Hinv))
      as [(Hsd & _ & ->)|[(Hsd & Hz & ->)|(Hlt & w & tp1 & -> & Hwf1 & _ & Hsd1 & _ & Hc)]].
    + intros [= <-]. apply view_of_quiet. by apply quiet_by_fields.
    + simpl. intros [= <-]. apply (vs_exit _ _ i); try done.
      change (pcs (set_pc i Exited (with_pool (pool s) s)))
        with (pcs (set_pc i Exited s)).
      apply pcs_set_pc.
    + simpl. intros [= <-]. apply (vs_take _ _ i w); try done.
      match goal with
      | |- pcs ?x = _ => change (pcs x) with (pcs (set_pc i (Calling w) s))
      end.
      apply pcs_set_pc.
  - intros [= <-]. apply (vs_exec _ _ i w); try done.
    + change (pcs (log (Executed i w) (set_pc i AtLoop s)))
        with (pcs (set_pc i AtLoop s)).
      apply pcs_set_pc.
    + unfold jobs_accepted. simpl. by rewrite omap_app, app_nil_r.
    + unfold jobs_executed. simpl. by rewrite omap_app.
Qed.

(** Every step is one of the five. *)
Lemma step_view a pick s s' :
  sys_inv C s -> step C W a pick s = Some s' -> view_step s s'.
Proof.
  intros Hinv. destruct a as [t c|t|i|cv]; simpl.
  - destruct (blocked s !! t) as [[c0 k0]|];
      [intros [= <-]; apply view_of_quiet, quiet_refl|].
    intros Hs. destruct c as [created|f a|tp].
    + eapply view_settle_quiet; [| |exact Hs]; [apply start_workers_quiet|done].
    + by eapply view_add_work.
    + eapply view_settle_quiet; [| |exact Hs];
        [apply thread_pool_shutdown_quiet|done].
  - destruct (blocked s !! t) as [[c k]|] eqn:Hb;
      [|intros [= <-]; apply view_of_quiet, quiet_refl].
    destruct (is_asleep (Client t) s);
      [intros [= <-]; apply view_of_quiet, quiet_refl|].
    pose proof (inv_blocked C s Hinv t c k Hb) as Hck.
    intros Hs. destruct k as [f a|i h|i|j i h]; simpl in Hck.
    + subst c. by eapply view_add_work.
    + subst c. eapply view_settle_quiet; [| |exact Hs];
        [apply shutdown_rejoin_quiet|done].
    + destruct Hck as [created ->].
      eapply view_settle_quiet; [| |exact Hs]; [apply start_failed_quiet|done].
    + destruct Hck as [created ->].
      eapply view_settle_quiet; [| |exact Hs]; [apply start_rejoin_quiet|done].
  - by apply view_worker.
  - intros [= <-]. apply view_of_quiet.
    apply (quiet_apply_wake pick (WakeConditionVariable cv)).
Qed.

(** Once the flag is set it stays set and no work is accepted any more,
    whoever calls what in whatever order. *)
Lemma closed_step a pick s s' :
  sys_inv C s -> shutdown (pool s) = true ->
  step C W a pick s = Some s' ->
  shutdown (pool s') = true /\ jobs_accepted s' = jobs_accepted s.
Proof.
  intros Hinv Hsd Hs.
  destruct (step_view a pick s s' Hinv Hs)
    as [_ _ _ Ha _ Hm|w Hf|i w _ _ _ Hsd' Ha _|i w _ _ Hp Ha _
        |i _ _ Hp _ _ Ha _].
  - auto.
  - congruence.
  - split; [congruence|done].
  - split; [by rewrite Hp|done].
  - split; [by rewrite Hp|done].
Qed.

Lemma closed_run sched s s' :
  sys_inv C s -> shutdown (pool s) = true ->
  run_system C W sched s = Some s' ->
  shutdown (pool s') = true /\ jobs_accepted s' = jobs_accepted s.
Proof.
  revert s. induction sched as [|[a pick] sched IH]; intros s Hinv Hsd; simpl.
  - by intros [= <-].
  - destruct (step C W a pick s) as [s1|] eqn:Hs; [|done].
    destruct (closed_step a pick s s1 Hinv Hsd Hs) as [Hsd1 Ha1].
    intros Hrun. destruct (IH s1) as [Hsd' Ha']; try done.
    + by eapply inv_step.
    + split; [done|congruence].
Qed.

(** The queue hands the jobs to the workers oldest first: what was taken is
    a prefix of what was accepted. *)
Definition fifo_taken (s : system) : Prop :=
  exists taken,
    jobs_accepted s = taken ++ ThreadPool.contents C (pool s) /\
    taken ≡ₚ jobs_executed s ++ omap held_pc (pcs s).

Lemma omap_held_new k : omap held_pc (replicate k AtLoop) = [].
Proof. induction k; simpl; done. Qed.

Lemma fifo_taken_step a pick s s' :
  sys_inv C s -> fifo_taken s ->
  step C W a pick s = Some s' -> fifo_taken s'.
Proof.
  intros Hinv (taken & Hacc & Hperm) Hs.
  destruct (step_view a pick s s' Hinv Hs)
    as [Hc _ [k Hp] Ha He _|w _ _ Hp Hc Ha He|i w Hi Hp Hc _ Ha He
        |i w Hi Hp Hpool Ha He|i Hi Hp Hpool _ _ Ha He].
  - exists taken. rewrite Ha, He, Hc, Hp, omap_app, omap_held_new, app_nil_r.
    done.
  - exists taken. rewrite Ha, He, Hc, Hp, Hacc, <- app_assoc. done.
  - exists (taken ++ [w]). rewrite Ha, He, Hacc, Hc, <- app_assoc.
    split; [done|]. rewrite Hp, Hperm.
    pose proof (omap_alter_Permutation held_pc (fun _ => Calling w)
                  _ i AtLoop Hi) as H. simpl in H. rewrite H.
    rewrite <- app_assoc. simpl. apply Permutation_app_head.
    symmetry. apply Permutation_cons_append.
  - exists taken. rewrite Ha, He, Hpool, Hp. split; [done|].
    rewrite Hperm.
    pose proof (omap_alter_Permutation held_pc (fun _ => AtLoop)
                  _ i (Calling w) Hi) as H. simpl in H. rewrite <- H.
    rewrite <- app_assoc. done.
  - exists taken. rewrite Ha, He, Hpool, Hp. split; [done|].
    rewrite Hperm. apply Permutation_app_head.
    symmetry.
    apply (omap_alter_Permutation held_pc (fun _ => Exited) _ i AtLoop Hi).
Qed.

Lemma fifo_taken_run sched s s' :
  sys_inv C s -> fifo_taken s ->
  run_system C W sched s = Some s' -> fifo_taken s'.
Proof.
  revert s. induction sched as [|[a pick] sched IH]; intros s Hinv Hf; simpl.
  - by intros [= <-].
  - destruct (step C W a pick s) as [s1|] eqn:Hs; [|done].
    apply IH; [by eapply inv_step|by eapply fifo_taken_step].
Qed.

(** With a single worker thread the jobs are executed in the order in which
    they were accepted. *)
Definition in_order (s : system) : Prop :=
  (length (pcs s) <= 1)%nat ->
  jobs_accepted s
  = jobs_executed s ++ omap held_pc (pcs s) ++ ThreadPool.contents C (pool s).

Lemma single_lookup {A} (l : list A) i x :
  (length l <= 1)%nat -> l !! i = Some x -> l = [x] /\ i = 0%nat.
Proof.
  destruct l as [|y [|z l]]; simpl; intros Hl Hi; try done; [|lia].
  destruct i as [|i]; simpl in Hi; [|done]. by injection Hi as ->.
Qed.

Lemma in_order_step a pick s s' :
  sys_inv C s -> in_order s ->
  step C W a pick s = Some s' -> in_order s'.
Proof.
  intros Hinv Hord Hs Hone.
  destruct (step_view a pick s s' Hinv Hs)
    as [Hc _ [k Hp] Ha He _|w _ _ Hp Hc Ha He|i w Hi Hp Hc _ Ha He
        |i w Hi Hp Hpool Ha He|i Hi Hp Hpool _ _ Ha He].
  - rewrite Hp in Hone. rewrite length_app in Hone.
    rewrite Ha, He, Hc, Hp, omap_app, omap_held_new, app_nil_r.
    apply Hord. lia.
  - rewrite Hp in Hone. rewrite Ha, He, Hc, Hp, Hord by done.
    by rewrite <- !app_assoc.
  - rewrite Hp, length_alter in Hone.
    destruct (single_lookup _ _ _ Hone Hi) as [E ->].
    rewrite Ha, He, Hp, Hord by done. rewrite E, Hc. done.
  - rewrite Hp, length_alter in Hone.
    destruct (single_lookup _ _ _ Hone Hi) as [E ->].
    rewrite Ha, He, Hp, Hpool, Hord by done. rewrite E. simpl.
    by rewrite <- app_assoc.
  - rewrite Hp, length_alter in Hone.
    destruct (single_lookup _ _ _ Hone Hi) as [E ->].
    rewrite Ha, He, Hp, Hpool, Hord by done. rewrite E. done.
Qed.

Lemma in_order_run sched s s' :
  sys_inv C s -> in_order s ->
  run_system C W sched s = Some s' -> in_order s'.
Proof.
  revert s. induction sched as [|[a pick] sched IH]; intros s Hinv Hf; simpl.
  - by intros [= <-].
  - destruct (step C W a pick s) as [s1|] eqn:Hs; [|done].
    apply IH; [by eapply inv_step|by eapply in_order_step].
Qed.

End Steps.
End PoolSteps.


(** * More of thread_pool.c: starting and stopping the pool *)

Module PoolLife.
Import ThreadPool ThreadPoolFacts PoolSteps.

(** What [join_workers] changes: handles get closed, nothing else. *)
Record only_handles (s s' : system) : Prop := {
  oh_pool : pool s' = pool s;
  oh_freed : freed s' = freed s;
  oh_deleted : lock_deleted s' = lock_deleted s;
  oh_not_empty : asleep_not_empty s' = asleep_not_empty s;
  oh_not_full : asleep_not_full s' = asleep_not_full s;
  oh_blocked : blocked s' = blocked s;
  oh_trace : trace s' = trace s;
  oh_pcs : pcs s' = pcs s;
  oh_length : length (threads s') = length (threads s)
}.

Lemma only_handles_refl s : only_handles s s.
Proof. by split. Qed.

Lemma only_handles_trans s1 s2 s3 :
  only_handles s1 s2 -> only_handles s2 s3 -> only_handles s1 s3.
Proof. intros [] []. split; congruence. Qed.

Lemma only_handles_CloseHandle h s : only_handles s (CloseHandle h s).
Proof.
  split; try by destruct h.
  - apply pcs_CloseHandle.
  - destruct h; [done|]. simpl. by rewrite length_alter.
Qed.

Lemma join_workers_only_handles n i s r s' :
  join_workers n i s = Some (r, s') -> only_handles s s'.
Proof.
  revert i s. induction n as [|n IH]; intros i s H; simpl in H.
  - injection H as <- <-. apply only_handles_refl.
  - destruct (freed s); [done|].
    destruct (worker_threads (pool s) !! i) as [h|]; [|done].
    destruct (WaitForSingleObject h s).
    + eapply only_handles_trans; [apply (only_handles_CloseHandle h)|].
      by eapply IH.
    + injection H as <- <-. apply only_handles_refl.
Qed.

(** The joins are defined as long as the pool is not freed and the
    array has the entries that they read. *)
Lemma join_workers_runs n i s :
  freed s = false -> (i + n <= length (worker_threads (pool s)))%nat ->
  exists r s', join_workers n i s = Some (r, s') /\ only_handles s s'.
Proof.
  revert i s. induction n as [|n IH]; intros i s Hfr Hn; cbn [join_workers].
  - exists None, s. split; [done|apply only_handles_refl].
  - rewrite Hfr.
    destruct (lookup_lt_is_Some_2 (worker_threads (pool s)) i ltac:(lia))
      as [h Hh].
    rewrite Hh. destruct (WaitForSingleObject h s).
    + pose proof (only_handles_CloseHandle h s) as Hoh.
      destruct (IH (S i) (CloseHandle h s)) as (r & s' & Hj & Hoh').
      * by rewrite (oh_freed _ _ Hoh).
      * rewrite (oh_pool _ _ Hoh). lia.
      * exists r, s'. split; [exact Hj|]. by eapply only_handles_trans.
    + exists (Some (i, h)), s. split; [done|apply only_handles_refl].
Qed.

(** A handle is closed only after its thread has ended. *)
Definition closed_ok (s : system) : Prop :=
  forall j th, threads s !! j = Some th -> handle_open th = false ->
               pc th = Exited.

Lemma WaitForSingleObject_exited j s th :
  closed_ok s -> threads s !! j = Some th ->
  WaitForSingleObject (S j) s = true -> pc th = Exited.
Proof.
  intros Hc Hth. simpl. rewrite Hth.
  destruct (handle_open th) eqn:Ho.
  - by intros ?%bool_decide_eq_true.
  - intros _. by eapply Hc.
Qed.

Lemma closed_ok_CloseHandle h s :
  closed_ok s -> WaitForSingleObject h s = true -> closed_ok (CloseHandle h s).
Proof.
  intros Hc Hw. destruct h as [|k]; [done|].
  intros j th. simpl. destruct (decide (k = j)) as [->|Hne].
  - rewrite list_lookup_alter_eq.
    destruct (threads s !! j) as [th0|] eqn:Hth; [|done]. simpl.
    intros [= <-] _. simpl. by eapply WaitForSingleObject_exited.
  - rewrite list_lookup_alter_ne by done. apply Hc.
Qed.

Lemma join_workers_closed_ok n i s r s' :
  closed_ok s -> join_workers n i s = Some (r, s') -> closed_ok s'.
Proof.
  revert i s. induction n as [|n IH]; intros i s Hc H; simpl in H.
  - by injection H as <- <-.
  - destruct (freed s); [done|].
    destruct (worker_threads (pool s) !! i) as [h|]; [|done].
    destruct (WaitForSingleObject h s) eqn:Hw.
    + eapply IH; [|exact H]. by apply closed_ok_CloseHandle.
    + by injection H as <- <-.
Qed.

Definition is_start (a : action) : Prop :=
  match a with Call _ (CallStart _) => True | _ => False end.

Definition no_restart (sched : list (action * nat)) : Prop :=
  Forall (fun ap => ~ is_start ap.1) sched.

Definition is_call_start (a : action) : bool :=
  match a with Call _ (CallStart _) => true | _ => false end.

Lemma no_restart_check sched :
  forallb (fun ap => negb (is_call_start ap.1)) sched = true ->
  no_restart sched.
Proof.
  induction sched as [|[a p] sched IH]; simpl; [by intros; apply Forall_nil|].
  intros [Ha Hs]%andb_true_iff. apply Forall_cons. split; [|by apply IH].
  simpl in *. destruct a as [t c|t|i|cv]; [destruct c|..]; simpl in *;
    solve [done | tauto].
Defined.

Section Life.
Variable C : Z.
Variable W : nat.
Hypothesis size_ok : 0 < C <= CInt.INT_MAX.

(** The handles that one successful [thread_pool_start] stores. *)
Definition handles_of_start (s : system) : Prop :=
  length (threads s) = W /\ worker_threads (pool s) = map S (seq 0 W).

Lemma handle_lookup s j :
  handles_of_start s -> (j < W)%nat ->
  worker_threads (pool s) !! j = @Some HANDLE (S j) /\
  exists th, threads s !! j = Some th.
Proof.
  intros [Hl Hh] Hj. split.
  - rewrite Hh, list_lookup_fmap, lookup_seq_lt by done. done.
  - apply lookup_lt_is_Some. lia.
Qed.

(** The joins that are done found their threads ended. *)
Lemma join_workers_joined n i s r s' :
  handles_of_start s -> closed_ok s -> (i + n <= W)%nat ->
  join_workers n i s = Some (r, s') ->
  exists m, (i <= m <= i + n)%nat /\
    (forall j, (i <= j < m)%nat -> pcs s !! j = Some Exited) /\
    match r with
    | Some (i', h) => i' = m /\ h = S m /\ (m < i + n)%nat
    | None => m = (i + n)%nat
    end.
Proof.
  revert i s. induction n as [|n IH]; intros i s Hh Hc Hn H; simpl in H.
  - injection H as <- <-. exists i. split; [lia|]. split; [|lia].
    intros j Hj. lia.
  - destruct (freed s); [done|].
    destruct (handle_lookup s i Hh ltac:(lia)) as [Hi [th Hth]].
    rewrite Hi in H.
    destruct (WaitForSingleObject (S i) s) eqn:Hw.
    + pose proof (WaitForSingleObject_exited i s th Hc Hth Hw) as Hex.
      pose proof (only_handles_CloseHandle (S i) s) as Hoh.
      destruct (IH (S i) (CloseHandle (S i) s)) as (m & Hm & Hall & Hr).
      * destruct Hh as [Hl Hw']. split.
        -- by rewrite (oh_length _ _ Hoh).
        -- by rewrite (oh_pool _ _ Hoh).
      * by apply closed_ok_CloseHandle.
      * lia.
      * exact H.
      * exists m. split; [lia|]. split.
        -- intros j Hj. destruct (decide (j = i)) as [->|Hne].
           ++ by rewrite (pcs_lookup s i th Hth), Hex.
           ++ rewrite <- (oh_pcs _ _ Hoh). apply Hall. lia.
        -- destruct r as [[i' h]|]; [|lia].
           destruct Hr as (? & ? & ?). split; [done|]. split; [done|lia].
    + injection H as <- <-. exists i. split; [lia|].
      split; [|split; [done|split; [done|lia]]].
      intros j Hj. lia.
Qed.

(** As long as the array holds the handle that a blocked caller waits
    on, and a freed pool has no thread that runs, taking the loop up again
    is the loop from that turn. *)
Lemma rejoin_workers_same n i h s :
  worker_threads (pool s) !! i = Some h ->
  (freed s = true -> WaitForSingleObject h s = true) ->
  rejoin_workers n i h s = join_workers (S n) i s.
Proof.
  intros Hh Hfr. unfold rejoin_workers. cbn [join_workers]. rewrite Hh.
  destruct (WaitForSingleObject h s) eqn:Hw; [done|].
  destruct (freed s); [|done]. by specialize (Hfr eq_refl).
Qed.


Lemma wait_all_exited h s :
  Forall (fun th => pc th = Exited) (threads s) ->
  WaitForSingleObject h s = true.
Proof.
  intros Hall. destruct h as [|k]; [done|]. simpl.
  destruct (threads s !! k) as [th|] eqn:Hth; [|done].
  rewrite (Forall_lookup_1 _ _ _ _ Hall Hth).
  by destruct (handle_open th).
Qed.

(** When every thread has ended the joins go through. *)
Lemma join_workers_all_exited n i s :
  freed s = false -> (i + n <= length (worker_threads (pool s)))%nat ->
  Forall (fun th => pc th = Exited) (threads s) ->
  exists s', join_workers n i s = Some (None, s') /\ only_handles s s'.
Proof.
  revert i s. induction n as [|n IH]; intros i s Hfr Hn Hall; simpl.
  - exists s. split; [done|apply only_handles_refl].
  - rewrite Hfr.
    destruct (lookup_lt_is_Some_2 (worker_threads (pool s)) i ltac:(lia))
      as [h Hh].
    rewrite Hh, (wait_all_exited h s Hall).
    pose proof (only_handles_CloseHandle h s) as Hoh.
    destruct (IH (S i) (CloseHandle h s)) as (s' & Hj & Hoh').
    + by rewrite (oh_freed _ _ Hoh).
    + rewrite (oh_pool _ _ Hoh). lia.
    + apply Forall_lookup. intros j th Hth.
      assert (Hp : pcs (CloseHandle h s) !! j = Some (pc th))
        by by apply pcs_lookup.
      rewrite (oh_pcs _ _ Hoh) in Hp. unfold pcs in Hp.
      rewrite list_lookup_fmap in Hp.
      destruct (threads s !! j) as [th0|] eqn:Hth0; [|done].
      simpl in Hp. injection Hp as <-.
      by eapply (Forall_lookup_1 _ _ _ _ Hall).
    + exists s'. split; [exact Hj|]. by eapply only_handles_trans.
Qed.

(** *** The pool between one successful start and the end of a shutdown *)

Definition threads_advance (l l' : list kthread) : Prop :=
  length l' = length l /\
  forall j th', l' !! j = Some th' ->
    exists th, l !! j = Some th /\ handle_open th' = handle_open th /\
      (pc th' = pc th \/ pc th <> Exited).

Lemma threads_advance_refl l : threads_advance l l.
Proof. split; [done|]. intros j th Hth. exists th. auto. Qed.

Lemma threads_advance_set_pc i p l th :
  l !! i = Some th -> pc th <> Exited ->
  threads_advance l
    (alter (fun th => {| pc := p; handle_open := handle_open th |}) i l).
Proof.
  intros Hth Hpc. split; [by rewrite length_alter|].
  intros j th'. destruct (decide (i = j)) as [->|Hne].
  - rewrite list_lookup_alter_eq, Hth. simpl. intros [= <-].
    exists th. auto.
  - rewrite list_lookup_alter_ne by done. intros H. exists th'. auto.
Qed.

Lemma threads_advance_only_handles s s' :
  closed_ok s' -> only_handles s s' ->
  forall j, pcs s' !! j = pcs s !! j.
Proof. intros _ Hoh j. by rewrite (oh_pcs _ _ Hoh). Qed.

(** The continuations of [thread_pool_add_work] and of
    [thread_pool_start]. *)
Definition in_add_work (k : kont) : Prop :=
  match k with InAddWork _ _ => True | _ => False end.

Definition in_start (k : kont) : Prop :=
  match k with InStartFailed _ | InStartJoin _ _ _ => True | _ => False end.

Record pool_inv (s : system) : Prop := {
  pi_handles : handles_of_start s;
  pi_closed : closed_ok s;
  pi_join :
    forall t c i h j, blocked s !! t = Some (c, InShutdownJoin i h) ->
      (j < i)%nat -> (j < W)%nat -> pcs s !! j = Some Exited;
  pi_handle :
    forall t c i h, blocked s !! t = Some (c, InShutdownJoin i h) ->
      h = S i /\ (i < W)%nat;
  pi_nostart :
    forall t c k, blocked s !! t = Some (c, k) -> ~ in_start k;
  pi_deleted : lock_deleted s = true -> freed s = true;
  pi_freed : freed s = true -> Forall (fun th => pc th = Exited) (threads s);
  pi_ret :
    forall t r, Ret t (CallShutdown PoolPtr) r ∈ trace s -> freed s = true;
  pi_not_full :
    forall x, x ∈ asleep_not_full s ->
      exists t f a, x = Client t /\
        blocked s !! t = Some (CallAddWork f a, InAddWork f a);
  pi_not_empty : forall x, x ∈ asleep_not_empty s -> exists i, x = Worker i
}.

Lemma pcs_advance s s' j :
  threads_advance (threads s) (threads s') ->
  pcs s !! j = Some Exited -> pcs s' !! j = Some Exited.
Proof.
  intros [Hl Hadv]. unfold pcs. rewrite !list_lookup_fmap.
  destruct (threads s !! j) as [th|] eqn:Hth; [|done]. simpl. intros [= Hex].
  destruct (lookup_lt_is_Some_2 (threads s') j) as [th' Hth'].
  { rewrite Hl. by eapply lookup_lt_Some. }
  rewrite Hth'. simpl. destruct (Hadv j th' Hth') as (th0 & Hth0 & _ & Hpc).
  rewrite Hth in Hth0. injection Hth0 as <-.
  destruct Hpc as [->|Hne]; [by rewrite Hex|done].
Qed.

Lemma pool_inv_transfer s s' :
  pool_inv s ->
  threads_advance (threads s) (threads s') ->
  worker_threads (pool s') = worker_threads (pool s) ->
  freed s' = freed s -> lock_deleted s' = lock_deleted s ->
  (forall t c k, blocked s' !! t = Some (c, k) -> ~ in_add_work k ->
                 blocked s !! t = Some (c, k)) ->
  (forall t r, Ret t (CallShutdown PoolPtr) r ∈ trace s' ->
               Ret t (CallShutdown PoolPtr) r ∈ trace s) ->
  (forall x, x ∈ asleep_not_full s' ->
     exists t f a, x = Client t /\
       blocked s' !! t = Some (CallAddWork f a, InAddWork f a)) ->
  (forall x, x ∈ asleep_not_empty s' -> exists i, x = Worker i) ->
  pool_inv s'.
Proof.
  intros [[Hl Hh] Hc Hj Hjh Hns Hd Hf Hr Hnf Hne] Hadv Hw Hfr Hld Hb1 Ht Hs1 Hs2.
  split; try done.
  - split; [by rewrite (proj1 Hadv)|by rewrite Hw].
  - intros j th' Hth' Ho. destruct Hadv as [_ Hadv].
    destruct (Hadv j th' Hth') as (th & Hth & Hop & Hpc).
    rewrite Hop in Ho. pose proof (Hc j th Hth Ho) as Hex.
    destruct Hpc as [->|Hn]; done.
  - intros t c i h j Hb Hji HjW. eapply pcs_advance; [done|].
    apply (Hj t c i h j); [|done..]. apply Hb1; [exact Hb|]. simpl. tauto.
  - intros t c i h Hb. apply (Hjh t c). apply Hb1; [exact Hb|]. simpl. tauto.
  - intros t c k Hb Hk. apply (Hns t c k); [|exact Hk].
    apply Hb1; [exact Hb|]. destruct k; simpl in *; tauto.
  - rewrite Hld, Hfr. done.
  - rewrite Hfr. intros Htrue. specialize (Hf Htrue).
    apply Forall_lookup. intros j th' Hth'. destruct Hadv as [_ Hadv].
    destruct (Hadv j th' Hth') as (th & Hth & _ & Hpc).
    pose proof (Forall_lookup_1 _ _ _ _ Hf Hth) as Hex. simpl in Hex.
    destruct Hpc as [->|Hn]; done.
  - rewrite Hfr. eauto.
Qed.

Lemma pool_inv_add_work t pick f a s s' :
  sys_inv C s -> pool_inv s -> Client t ∉ asleep_not_full s ->
  settle t (CallAddWork f a) (thread_pool_add_work C t pick f a s) = Some s' ->
  pool_inv s'.
Proof.
  intros Hinv Hp Hawake. unfold thread_pool_add_work, critical_section.
  destruct (freed s || lock_deleted s); [done|].
  assert (Hother : forall x, x ∈ asleep_not_full s ->
            exists t' f' a', x = Client t' /\ t' <> t /\
              blocked s !! t' = Some (CallAddWork f' a', InAddWork f' a')).
  { intros x Hx. destruct (pi_not_full s Hp x Hx) as (t' & f' & a' & -> & Hb).
    exists t', f', a'. split; [done|]. split; [|done]. by intros ->. }
  destruct (add_work_cs_spec C size_ok f a (pool s) (inv_wf C s Hinv))
    as [[Hsd ->]|[(Hsd & _ & ->)|(Hsd & _ & tp1 & -> & Hwf1 & _ & Hsd1 & Hwt & Hc)]];
    simpl; intros [= <-].
  - apply (pool_inv_transfer s); simpl; try done.
    + apply threads_advance_refl.
    + intros t' c k [_ H]%lookup_delete_Some _. done.
    + intros t' r [H|H%list_elem_of_singleton]%elem_of_app; done.
    + intros x Hx. destruct (Hother x Hx) as (t' & f' & a' & -> & Hne & Hb).
      exists t', f', a'. split; [done|]. by rewrite lookup_delete_ne.
    + apply (pi_not_empty s Hp).
  - apply (pool_inv_transfer s); simpl; try done.
    + apply threads_advance_refl.
    + intros t' c k [[_ [= <- <-]]|[_ H]]%lookup_insert_Some Hk;
        [simpl in Hk; tauto|done].
    + intros x [Hx|Hx%list_elem_of_singleton]%elem_of_app.
      * destruct (Hother x Hx) as (t' & f' & a' & -> & Hne & Hb).
        exists t', f', a'. split; [done|]. by rewrite lookup_insert_ne.
      * subst x. exists t, f, a. split; [done|]. by rewrite lookup_insert_eq.
    + apply (pi_not_empty s Hp).
  - apply (pool_inv_transfer s); simpl; try done.
    + apply threads_advance_refl.
    + intros t' c k [_ H]%lookup_delete_Some _. done.
    + intros t' r [H|H%list_elem_of_singleton]%elem_of_app; done.
    + intros x Hx. destruct (Hother x Hx) as (t' & f' & a' & -> & Hne & Hb).
      exists t', f', a'. split; [done|]. by rewrite lookup_delete_ne.
    + intros x Hx%wake_one_subset. by apply (pi_not_empty s Hp).
Qed.

Lemma pool_inv_worker i pick s s' :
  sys_inv C s -> pool_inv s ->
  worker_thread C i pick s = Some s' -> pool_inv s'.
Proof.
  intros Hinv Hp. unfold worker_thread.
  destruct (threads s !! i) as [th|] eqn:Hth; [|by intros [= <-]].
  destruct (pc th) as [|w|] eqn:Epc; [| |by intros [= <-]].
  - destruct (is_asleep (Worker i) s); [by intros [= <-]|].
    unfold critical_section.
    destruct (freed s || lock_deleted s); [done|].
    assert (Hadv : forall p, threads_advance (threads s)
              (alter (fun th => {| pc := p; handle_open := handle_open th |})
                 i (threads s))).
    { intros p. apply (threads_advance_set_pc i p _ th Hth). by rewrite Epc. }
    destruct (worker_cs_spec C size_ok (pool s) (inv_wf C s Hinv))
      as [(Hsd & _ & ->)|[(Hsd & Hz & ->)|(Hlt & w & tp1 & -> & Hwf1 & _ & Hsd1 & Hwt & Hc)]];
      simpl; intros [= <-].
    + apply (pool_inv_transfer s); simpl; try done.
      * apply threads_advance_refl.
      * apply (pi_not_full s Hp).
      * intros x [Hx|Hx%list_elem_of_singleton]%elem_of_app.
        -- by apply (pi_not_empty s Hp).
        -- by exists i.
    + apply (pool_inv_transfer s); simpl; try done.
      * apply (pi_not_full s Hp).
      * apply (pi_not_empty s Hp).
    + apply (pool_inv_transfer s); simpl; try done.
      * intros x Hx%wake_one_subset. by apply (pi_not_full s Hp).
      * apply (pi_not_empty s Hp).
  - intros [= <-]. apply (pool_inv_transfer s); simpl; try done.
    + apply (threads_advance_set_pc i AtLoop _ th Hth). by rewrite Epc.
    + intros t' r [H|H%list_elem_of_singleton]%elem_of_app; done.
    + apply (pi_not_full s Hp).
    + apply (pi_not_empty s Hp).
Qed.

Lemma pool_inv_only_handles s sj :
  pool_inv s -> only_handles s sj -> closed_ok sj -> pool_inv sj.
Proof.
  intros [[Hl Hh] Hc Hj Hjh Hns Hd Hf Hr Hnf Hne] [O1 O2 O3 O4 O5 O6 O7 O8 O9] Hc'.
  split; try done.
  - split; [by rewrite O9|by rewrite O1].
  - intros t c i h j. rewrite O6, O8. apply Hj.
  - intros t c i h. rewrite O6. apply Hjh.
  - intros t c k. rewrite O6. apply Hns.
  - by rewrite O2, O3.
  - rewrite O2. intros Htrue. specialize (Hf Htrue).
    apply Forall_lookup. intros j th' Hth'.
    pose proof (pcs_lookup sj j th' Hth') as Hp. rewrite O8 in Hp.
    unfold pcs in Hp. rewrite list_lookup_fmap in Hp.
    destruct (threads s !! j) as [th|] eqn:Hth; [|done].
    simpl in Hp. injection Hp as Hp.
    pose proof (Forall_lookup_1 _ _ _ _ Hf Hth) as Hex. simpl in Hex. congruence.
  - intros t r. rewrite O2, O7. apply Hr.
  - intros x. rewrite O5, O6. apply Hnf.
  - intros x. rewrite O4. apply Hne.
Qed.

Lemma all_exited_of_prefix s :
  length (threads s) = W ->
  (forall j, (j < W)%nat -> pcs s !! j = Some Exited) ->
  Forall (fun th => pc th = Exited) (threads s).
Proof.
  intros Hl Hall. apply Forall_lookup. intros j th Hth.
  assert (Hj : (j < W)%nat) by (rewrite <- Hl; by eapply lookup_lt_Some).
  pose proof (Hall j Hj) as Hp. rewrite (pcs_lookup s j th Hth) in Hp.
  by injection Hp.
Qed.

(** The joins of [thread_pool_shutdown], from a call or after a block. *)
Lemma pool_inv_shutdown_join t i s s' :
  pool_inv s ->
  (forall j, (j < i)%nat -> (j < W)%nat -> pcs s !! j = Some Exited) ->
  Client t ∉ asleep_not_full s ->
  settle t (CallShutdown PoolPtr) (shutdown_join W i s) = Some s' ->
  pool_inv s'.
Proof.
  intros Hp Hpre Hawake. unfold shutdown_join, shutdown_joined.
  destruct (join_workers (W - i) i s) as [[r sj]|] eqn:Hjoin; [|done].
  pose proof (join_workers_only_handles _ _ _ _ _ Hjoin) as Hoh.
  pose proof (join_workers_closed_ok _ _ _ _ _ (pi_closed s Hp) Hjoin) as Hc'.
  pose proof (pool_inv_only_handles s sj Hp Hoh Hc') as Hpj.
  assert (Hjoined : exists m, (forall j, (j < m)%nat -> (j < W)%nat ->
                       pcs sj !! j = Some Exited) /\
            match r with
            | Some (i', h) => i' = m /\ h = S m /\ (m < W)%nat
            | None => (W <= m)%nat
            end).
  { rewrite (oh_pcs _ _ Hoh).
    destruct (decide (i <= W)%nat) as [Hle|Hgt].
    - destruct (join_workers_joined (W - i) i s r sj (pi_handles s Hp)
                  (pi_closed s Hp) ltac:(lia) Hjoin) as (m & Hm & Hall & Hr).
      exists m. split.
      + intros j Hj HjW. destruct (decide (j < i)%nat); [by apply Hpre|].
        apply Hall. lia.
      + destruct r as [[i' h]|]; [|lia].
        destruct Hr as (? & ? & ?). split; [done|]. split; [done|lia].
    - replace (W - i)%nat with 0%nat in Hjoin by lia. simpl in Hjoin.
      injection Hjoin as <- <-. exists i. split; [done|lia]. }
  destruct Hjoined as (m & Hall & Hr).
  assert (Hother : forall x, x ∈ asleep_not_full sj ->
            exists t' f' a', x = Client t' /\ t' <> t /\
              blocked sj !! t' = Some (CallAddWork f' a', InAddWork f' a')).
  { intros x Hx. destruct (pi_not_full sj Hpj x Hx) as (t' & f' & a' & -> & Hb).
    exists t', f', a'. split; [done|]. split; [|done]. intros ->.
    apply Hawake. by rewrite <- (oh_not_full _ _ Hoh). }
  destruct Hpj as [[Hl Hh] Hc Hj Hjh Hns Hd Hf Hret Hnf Hne].
  destruct r as [[i' h]|]; simpl.
  - destruct Hr as (-> & -> & HmW). intros [= <-]. split; simpl; try done.
    + intros t' c i' h j [[-> [= <- <- <-]]|[_ H]]%lookup_insert_Some Hji HjW.
      * by apply Hall.
      * by eapply Hj.
    + intros t' c i' h [[-> [= <- <- <-]]|[_ H]]%lookup_insert_Some.
      * done.
      * by eapply Hjh.
    + intros t' c k [[_ [= <- <-]]|[_ H]]%lookup_insert_Some;
        [simpl; tauto|].
      by eapply Hns.
    + intros x Hx. destruct (Hother x Hx) as (t' & f' & a' & -> & Hne' & Hb).
      exists t', f', a'. split; [done|]. by rewrite lookup_insert_ne.
  - destruct (freed sj || lock_deleted sj); [done|]. simpl. intros [= <-].
    split; simpl; try done.
    + intros t' c i' h j [_ H]%lookup_delete_Some. by eapply Hj.
    + intros t' c i' h [_ H]%lookup_delete_Some. by eapply Hjh.
    + intros t' c k [_ H]%lookup_delete_Some. by eapply Hns.
    + intros _. apply (all_exited_of_prefix sj Hl).
      intros j HjW. apply Hall; [lia|done].
    + intros x Hx. destruct (Hother x Hx) as (t' & f' & a' & -> & Hne' & Hb).
      exists t', f', a'. split; [done|]. by rewrite lookup_delete_ne.
Qed.

(** In this pool a caller that was blocked in a join takes the loop up
    where it was. *)
Lemma shutdown_rejoin_same s t c i h :
  pool_inv s -> blocked s !! t = Some (c, InShutdownJoin i h) ->
  shutdown_rejoin W i h s = shutdown_join W i s.
Proof.
  intros Hp Hb. destruct (pi_handle s Hp t c i h Hb) as [-> Hi].
  unfold shutdown_rejoin, shutdown_join.
  rewrite rejoin_workers_same.
  - by replace (S (W - S i)) with (W - i)%nat by lia.
  - by apply (handle_lookup s i (pi_handles s Hp)).
  - intros Hfr. apply wait_all_exited. by apply (pi_freed s Hp).
Qed.

Lemma not_asleep_not_full t s :
  is_asleep (Client t) s = false -> Client t ∉ asleep_not_full s.
Proof.
  unfold is_asleep. intros H%bool_decide_eq_false Hin. apply H.
  apply elem_of_app. by right.
Qed.

Lemma unblocked_not_asleep t s :
  pool_inv s -> blocked s !! t = None -> is_asleep (Client t) s = false.
Proof.
  intros Hp Hb. apply bool_decide_eq_false.
  intros [Hin|Hin]%elem_of_app.
  - by destruct (pi_not_empty s Hp _ Hin).
  - destruct (pi_not_full s Hp _ Hin) as (t' & f & a & [= <-] & Hb').
    congruence.
Qed.

Lemma pool_inv_step a pick s s' :
  sys_inv C s -> pool_inv s -> ~ is_start a ->
  step C W a pick s = Some s' -> pool_inv s'.
Proof.
  intros Hinv Hp Hns. destruct a as [t c|t|i|cv]; simpl.
  - destruct (blocked s !! t) as [[c0 k0]|] eqn:Hb; [by intros [= <-]|].
    pose proof (not_asleep_not_full t s (unblocked_not_asleep t s Hp Hb))
      as Hawake.
    destruct c as [created|f a|tp]; [done| |].
    + by apply pool_inv_add_work.
    + destruct tp; simpl.
      * intros [= <-]. apply (pool_inv_transfer s); simpl; try done.
        -- apply threads_advance_refl.
        -- intros t' c k [_ H]%lookup_delete_Some _. done.
        -- intros t' r [H|H%list_elem_of_singleton]%elem_of_app; done.
        -- intros x Hx.
           destruct (pi_not_full s Hp x Hx) as (t' & f' & a' & -> & Hb').
           exists t', f', a'. split; [done|].
           rewrite lookup_delete_ne; [done|]. intros <-. congruence.
        -- apply (pi_not_empty s Hp).
      * unfold critical_section.
        destruct (freed s || lock_deleted s); [done|]. simpl.
        apply pool_inv_shutdown_join; [|intros j Hj; lia|done].
        apply (pool_inv_transfer s); simpl; try done.
        -- apply threads_advance_refl.
        -- apply (pi_not_full s Hp).
        -- by intros x ?%elem_of_nil.
  - destruct (blocked s !! t) as [[c k]|] eqn:Hb; [|by intros [= <-]].
    destruct (is_asleep (Client t) s) eqn:Hasleep; [by intros [= <-]|].
    pose proof (not_asleep_not_full t s Hasleep) as Hawake.
    pose proof (inv_blocked C s Hinv t c k Hb) as Hck.
    destruct k as [f a|i h|i|j i h]; simpl in Hck.
    + subst c. by apply pool_inv_add_work.
    + subst c. cbn [resume]. rewrite (shutdown_rejoin_same s t _ i h Hp Hb).
      apply pool_inv_shutdown_join; [done| |done].
      intros j Hj HjW. by eapply (pi_join s Hp).
    + by destruct (pi_nostart s Hp t c _ Hb).
    + by destruct (pi_nostart s Hp t c _ Hb).
  - by apply pool_inv_worker.
  - intros [= <-].
    destruct cv; apply (pool_inv_transfer s); simpl; try done;
      try apply threads_advance_refl;
      try apply (pi_not_full s Hp); try apply (pi_not_empty s Hp).
    + intros x Hx%wake_one_subset. by apply (pi_not_empty s Hp).
    + intros x Hx%wake_one_subset. by apply (pi_not_full s Hp).
Qed.

Lemma pool_inv_run sched s s' :
  sys_inv C s -> pool_inv s -> no_restart sched ->
  run_system C W sched s = Some s' -> pool_inv s'.
Proof.
  revert s. induction sched as [|[a pick] sched IH]; intros s Hinv Hp Hn; simpl.
  - by intros [= <-].
  - apply Forall_cons in Hn as [Ha Hn].
    destruct (step C W a pick s) as [s1|] eqn:Hs; [|done].
    apply IH; [by eapply inv_step|by eapply pool_inv_step|done].
Qed.

(** The pool right after the one successful start. *)
Lemma pool_inv_started mem created t0 p0 s :
  length (worker_threads mem) = W ->
  (forall i, (i < W)%nat -> created i = true) ->
  step C W (Call t0 (CallStart created)) p0 (boot mem) = Some s ->
  pool_inv s /\ freed s = false /\ jobs_accepted s = [].
Proof.
  intros Hlen Hok. simpl. rewrite lookup_empty. unfold thread_pool_start.
  destruct (start_workers_ok created W 0 (boot mem)) as
    (s0 & -> & Hth & Hnew & _ & Hl & Hq & Hsz & Hh & Ht & Hsd & Hfr & Hld
       & Hne & Hnf & Hb & Htr); [done|simpl; lia|intros j Hj; apply Hok; lia|].
  simpl. intros [= <-]. simpl in *. split; [|split; [done|]].
  - split; simpl.
    + unfold handles_of_start. simpl.
      split; [by rewrite Hth, length_replicate|].
      apply list_eq. intros k.
      destruct (decide (k < W)%nat) as [Hk|Hk].
      * etrans; [exact (Hnew k Hk)|]. symmetry.
        rewrite list_lookup_fmap, lookup_seq_lt by done. done.
      * etrans; [apply lookup_ge_None_2; lia|]. symmetry.
        apply lookup_ge_None_2. rewrite length_map, length_seq. lia.
    + unfold closed_ok. simpl. intros j th. rewrite Hth.
      intros [-> _]%lookup_replicate. done.
    + intros t c i h j. rewrite Hb. intros [_ H]%lookup_delete_Some.
      by rewrite lookup_empty in H.
    + intros t c i h. rewrite Hb. intros [_ H]%lookup_delete_Some.
      by rewrite lookup_empty in H.
    + intros t c k. rewrite Hb. intros [_ H]%lookup_delete_Some.
      by rewrite lookup_empty in H.
    + by rewrite Hld.
    + by rewrite Hfr.
    + intros t r. rewrite Htr. intros H%list_elem_of_singleton. done.
    + intros x. rewrite Hnf. by intros ?%elem_of_nil.
    + intros x. rewrite Hne. by intros ?%elem_of_nil.
  - unfold jobs_accepted. simpl. by rewrite Htr.
Qed.

(** *** Shutdown: when it returns, and that it can *)

Lemma run_system_app sched1 sched2 s :
  run_system C W (sched1 ++ sched2) s
  = match run_system C W sched1 s with
    | Some s1 => run_system C W sched2 s1
    | None => None
    end.
Proof.
  revert s. induction sched1 as [|[a p] sched1 IH]; intros s; simpl; [done|].
  destruct (step C W a p s); [apply IH|done].
Qed.

Lemma worker_steps_no_restart sched : worker_steps sched -> no_restart sched.
Proof.
  intros Hw. eapply Forall_impl; [exact Hw|].
  intros [a p] [i Hi]. simpl in *. subst a. by intros [].
Qed.

(** Steps of workers leave the clients and the memory alone. *)
Lemma worker_frame i pick s s' :
  worker_thread C i pick s = Some s' ->
  blocked s' = blocked s /\ freed s' = freed s /\
  lock_deleted s' = lock_deleted s.
Proof.
  unfold worker_thread.
  destruct (threads s !! i) as [th|]; [|by intros [= <-]].
  destruct (pc th); [| |by intros [= <-]].
  - destruct (is_asleep (Worker i) s); [by intros [= <-]|].
    unfold critical_section.
    destruct (freed s || lock_deleted s); [done|].
    unfold worker_cs.
    destruct ((queue_size (pool s) =? 0) && negb (shutdown (pool s)));
      [by intros [= <-]|].
    destruct (shutdown (pool s) && (queue_size (pool s) =? 0));
      [by intros [= <-]|].
    destruct (arr_get _ _); [|done]. by intros [= <-].
  - by intros [= <-].
Qed.

Lemma worker_steps_frame sched s s' :
  worker_steps sched -> run_system C W sched s = Some s' ->
  blocked s' = blocked s /\ freed s' = freed s /\
  lock_deleted s' = lock_deleted s.
Proof.
  revert s. induction sched as [|[a p] sched IH]; intros s Hw; simpl.
  - by intros [= <-].
  - apply Forall_cons in Hw as [[i Hi] Hw]. simpl in Hi. subst a. simpl.
    destruct (worker_thread C i p s) as [s1|] eqn:Hs; [|done].
    intros Hrun. destruct (worker_frame i p s s1 Hs) as (Hb & Hf & Hl).
    destruct (IH s1 Hw Hrun) as (Hb' & Hf' & Hl').
    split; [congruence|]. split; congruence.
Qed.

Lemma all_exited_same_pcs s s' :
  pcs s' = pcs s ->
  Forall (fun th => pc th = Exited) (threads s) ->
  Forall (fun th => pc th = Exited) (threads s').
Proof.
  intros Hp Hall. apply Forall_lookup. intros j th' Hth'.
  pose proof (pcs_lookup s' j th' Hth') as H. rewrite Hp in H.
  unfold pcs in H. rewrite list_lookup_fmap in H.
  destruct (threads s !! j) as [th|] eqn:Hth; [|done].
  simpl in H. injection H as H.
  pose proof (Forall_lookup_1 _ _ _ _ Hall Hth) as Hex. simpl in Hex. congruence.
Qed.

Lemma alive_lock s : pool_inv s -> freed s = false -> lock_deleted s = false.
Proof.
  intros Hp Hfr. destruct (lock_deleted s) eqn:Hld; [|done].
  rewrite (pi_deleted s Hp Hld) in Hfr. done.
Qed.

Lemma join_workers_defined n i s :
  handles_of_start s -> freed s = false -> (i + n <= W)%nat ->
  exists r s', join_workers n i s = Some (r, s').
Proof.
  revert i s. induction n as [|n IH]; intros i s Hh Hf Hn; simpl; [by eexists _, _|].
  rewrite Hf. destruct (handle_lookup s i Hh ltac:(lia)) as [-> _].
  destruct (WaitForSingleObject (S i) s); [|by eexists _, _].
  pose proof (only_handles_CloseHandle (S i) s) as Hoh.
  apply IH; [|by rewrite (oh_freed _ _ Hoh)|lia].
  destruct Hh as [Hl Hw]. split.
  - by rewrite (oh_length _ _ Hoh).
  - by rewrite (oh_pool _ _ Hoh).
Qed.

(** The state in which a call of [thread_pool_shutdown] leaves the system:
    the critical section, then the joins as far as they go. *)
Definition after_shutdown_cs (s : system) : system :=
  with_sleepers queue_not_empty [] (with_pool (set_shutdown (pool s)) s).

Definition shutdown_returned (t : nat) (sj : system) : system :=
  log (Ret t (CallShutdown PoolPtr) VVoid)
    (with_blocked (delete t (blocked sj)) (free (DeleteCriticalSection sj))).

Definition shutdown_blocked (t i : nat) (sj : system) : system :=
  with_blocked
    (<[t := (CallShutdown PoolPtr, InShutdownJoin i (S i))]> (blocked sj)) sj.

Lemma shutdown_call_step s t :
  pool_inv s -> freed s = false -> blocked s !! t = None ->
  exists r sj,
    only_handles (after_shutdown_cs s) sj /\
    step C W (Call t (CallShutdown PoolPtr)) 0 s
    = Some (match r with
            | Some i => shutdown_blocked t i sj
            | None => shutdown_returned t sj
            end) /\
    match r with Some i => (i < W)%nat | None => True end.
Proof.
  intros Hp Hfr Hb. pose proof (alive_lock s Hp Hfr) as Hld.
  destruct (join_workers_defined W 0 (after_shutdown_cs s)) as (r & sj & Hjoin).
  { apply (pi_handles s Hp). }
  { done. }
  { lia. }
  pose proof (join_workers_only_handles _ _ _ _ _ Hjoin) as Hoh.
  destruct (join_workers_joined W 0 (after_shutdown_cs s) _ _
              (pi_handles s Hp) (pi_closed s Hp) ltac:(lia) Hjoin)
    as (m & _ & _ & Hr).
  exists (fst <$> r), sj. split; [exact Hoh|].
  cbn [step]. rewrite Hb. cbn [invoke thread_pool_shutdown].
  unfold critical_section. rewrite Hfr, Hld. cbn [orb shutdown_cs foldl apply_wake].
  fold (after_shutdown_cs s). unfold shutdown_join, shutdown_joined.
  rewrite Nat.sub_0_r, Hjoin. destruct r as [[i h]|]; simpl.
  - destruct Hr as (-> & -> & Hm). split; [done|lia].
  - rewrite (oh_freed _ _ Hoh), (oh_deleted _ _ Hoh). simpl.
    rewrite Hfr, Hld. done.
Qed.

Lemma shutdown_resume_step s t i h :
  freed s = false -> lock_deleted s = false ->
  length (worker_threads (pool s)) = W -> (i < W)%nat ->
  Forall (fun th => pc th = Exited) (threads s) ->
  blocked s !! t = Some (CallShutdown PoolPtr, InShutdownJoin i h) ->
  is_asleep (Client t) s = false ->
  exists sj,
    only_handles s sj /\
    step C W (Resume t) 0 s = Some (shutdown_returned t sj).
Proof.
  intros Hfr Hld Hlen Hi Hall Hb Hawake.
  destruct (lookup_lt_is_Some_2 (worker_threads (pool s)) i ltac:(lia))
    as [h' Hh'].
  pose proof (only_handles_CloseHandle h' s) as Hoh0.
  destruct (join_workers_all_exited (W - S i) (S i) (CloseHandle h' s))
    as (sj & Hjoin & Hoh).
  { by rewrite (oh_freed _ _ Hoh0). }
  { rewrite (oh_pool _ _ Hoh0). lia. }
  { apply (all_exited_same_pcs s); [apply (oh_pcs _ _ Hoh0)|done]. }
  exists sj. split; [by eapply only_handles_trans|].
  cbn [step]. rewrite Hb, Hawake. cbn [resume].
  unfold shutdown_rejoin, shutdown_joined, rejoin_workers.
  rewrite (wait_all_exited h s Hall), Hfr, Hh', Hjoin.
  rewrite (oh_freed _ _ Hoh), (oh_deleted _ _ Hoh), (oh_freed _ _ Hoh0),
    (oh_deleted _ _ Hoh0), Hfr, Hld. done.
Qed.

Lemma no_Exited_threads_nil s :
  pool_inv s -> W <> 0%nat -> threads s <> [].
Proof.
  intros Hp HW E. destruct (pi_handles s Hp) as [Hl _].
  rewrite E in Hl. simpl in Hl. lia.
Qed.

(** From any state of a pool that was started once and is not freed, a
    client that is not inside a call can shut the pool down: after its
    call, steps of the workers and one more step of the client, the call
    has returned, the pool is freed, every worker has ended and every
    accepted job has been executed. *)
Lemma shutdown_completes_from s t :
  sys_inv C s -> pool_inv s -> freed s = false -> blocked s !! t = None ->
  exists sched' s',
    worker_steps sched' /\
    run_system C W
      ((Call t (CallShutdown PoolPtr), 0%nat) :: sched' ++ [(Resume t, 0%nat)]) s
    = Some s' /\
    freed s' = true /\ lock_deleted s' = true /\
    last (trace s') = Some (Ret t (CallShutdown PoolPtr) VVoid) /\
    jobs_accepted s' = jobs_accepted s /\
    Forall (fun th => pc th = Exited) (threads s') /\
    (W <> 0%nat -> jobs_executed s' ≡ₚ jobs_accepted s').
Proof.
  intros Hinv Hp Hfr Hb.
  pose proof (alive_lock s Hp Hfr) as Hld.
  destruct (shutdown_call_step s t Hp Hfr Hb) as (r & sj & Hoh & Hstep & Hr).
  set (s2 := match r with
             | Some i => shutdown_blocked t i sj
             | None => shutdown_returned t sj
             end) in *.
  pose proof (inv_step C W size_ok _ _ _ _ Hinv Hstep) as Hinv2.
  assert (Hp2 : pool_inv s2).
  { eapply (pool_inv_step _ _ s); [exact Hinv|exact Hp| |exact Hstep].
    simpl. tauto. }
  destruct Hoh as [O1 O2 O3 O4 O5 O6 O7 O8 O9].
  destruct r as [i|]; subst s2.
  - (* the caller waits for a worker *)
    assert (Hawake : no_worker_asleep (shutdown_blocked t i sj)).
    { intros j. apply bool_decide_eq_false. simpl. rewrite O4, O5. simpl.
      intros Hin. destruct (pi_not_full s Hp _ Hin) as (t' & f & a & [=] & _). }
    destruct (drain_exists C W size_ok _ (shutdown_blocked t i sj) eq_refl
                Hinv2) as (sched' & s3 & Hw & Hrun & Hall & Hinv3 & Hacc3 & Hlen3).
    { simpl. by rewrite O1. }
    { simpl. by rewrite O2. }
    { simpl. by rewrite O3. }
    { exact Hawake. }
    destruct (worker_steps_frame sched' _ s3 Hw Hrun) as (Hb3 & Hfr3 & Hld3).
    simpl in Hb3, Hfr3, Hld3. rewrite O2 in Hfr3. rewrite O3 in Hld3.
    simpl in Hfr3, Hld3.
    assert (Hp3 : pool_inv s3).
    { eapply pool_inv_run; [exact Hinv2|exact Hp2| |exact Hrun].
      by apply worker_steps_no_restart. }
    assert (Hbt : blocked s3 !! t
                  = Some (CallShutdown PoolPtr, InShutdownJoin i (S i)))
      by (rewrite Hb3; apply lookup_insert_eq).
    destruct (shutdown_resume_step s3 t i (S i)) as (sj' & Hoh' & Hres);
      try done.
    { rewrite Hfr3. done. }
    { rewrite Hld3. done. }
    { destruct (pi_handles s3 Hp3) as [_ ->]. by rewrite length_map, length_seq. }
    { apply bool_decide_eq_false. intros [Hin|Hin]%elem_of_app.
      - by destruct (pi_not_empty s3 Hp3 _ Hin).
      - destruct (pi_not_full s3 Hp3 _ Hin) as (t' & f & a & [= <-] & Hb').
        congruence. }
    destruct Hoh' as [P1 P2 P3 P4 P5 P6 P7 P8 P9].
    exists sched', (shutdown_returned t sj').
    split; [exact Hw|]. split.
    { cbn [run_system]. rewrite Hstep, run_system_app, Hrun.
      cbn [run_system]. by rewrite Hres. }
    split; [done|]. split; [done|]. split; [simpl; by rewrite last_snoc|].
    assert (Hacc : jobs_accepted (shutdown_returned t sj') = jobs_accepted s3).
    { unfold jobs_accepted. simpl. rewrite omap_app, P7. simpl.
      by rewrite app_nil_r. }
    assert (Hexe : jobs_executed (shutdown_returned t sj') = jobs_executed s3).
    { unfold jobs_executed. simpl. rewrite omap_app, P7. simpl.
      by rewrite app_nil_r. }
    split.
    { rewrite Hacc, Hacc3. unfold jobs_accepted. simpl. by rewrite O7. }
    split.
    { apply (all_exited_same_pcs s3); [|done]. exact P8. }
    intros HW. rewrite Hacc, Hexe.
    apply (all_exited_all_executed C s3 Hinv3); [|done].
    by apply no_Exited_threads_nil.
  - (* every worker had ended already *)
    exists [], (shutdown_returned t sj).
    split; [by apply Forall_nil|]. split.
    { cbn [run_system app]. rewrite Hstep. cbn [run_system step].
      simpl. by rewrite lookup_delete_eq. }
    split; [done|]. split; [done|]. split; [simpl; by rewrite last_snoc|].
    split.
    { unfold jobs_accepted. simpl. rewrite omap_app, O7. simpl.
      by rewrite app_nil_r. }
    pose proof (pi_freed _ Hp2 eq_refl) as Hall.
    split; [exact Hall|].
    intros HW. apply (all_exited_all_executed C _ Hinv2); [|done].
    by apply no_Exited_threads_nil.
Qed.

(** Whenever [thread_pool_shutdown] has returned, the workers have all
    ended and every accepted job has been executed. *)
Lemma shutdown_returned_done s t r :
  sys_inv C s -> pool_inv s -> W <> 0%nat ->
  Ret t (CallShutdown PoolPtr) r ∈ trace s ->
  freed s = true /\
  Forall (fun th => pc th = Exited) (threads s) /\
  jobs_executed s ≡ₚ jobs_accepted s.
Proof.
  intros Hinv Hp HW Hin.
  pose proof (pi_ret s Hp t r Hin) as Hfr.
  pose proof (pi_freed s Hp Hfr) as Hall.
  split; [done|split; [done|]].
  apply (all_exited_all_executed C s Hinv); [|done].
  by apply no_Exited_threads_nil.
Qed.

End Life.
End PoolLife.

(** * More of thread_pool.c: adding work, a full queue, a failed start *)

Module PoolCalls.
Import ThreadPool ThreadPoolFacts PoolSteps PoolLife.

Section Use.
Variable C : Z.
Variable W : nat.
Hypothesis size_ok : 0 < C <= CInt.INT_MAX.

Lemma queued_le_accepted s :
  sys_inv C s -> queue_size (pool s) <= Z.of_nat (length (jobs_accepted s)).
Proof.
  intros Hinv.
  rewrite <- (queue_contents_length C _ (inv_wf C s Hinv)).
  rewrite (inv_jobs C s Hinv), !length_app. lia.
Qed.

(** [thread_pool_add_work] on a queue with room. *)
Lemma add_work_room t pick f a s :
  sys_inv C s -> freed s = false -> lock_deleted s = false ->
  shutdown (pool s) = false -> blocked s !! t = None ->
  queue_size (pool s) < C ->
  exists s',
    step C W (Call t (CallAddWork f a)) pick s = Some s' /\
    trace s' = trace s ++ [Ret t (CallAddWork f a) (VBool true)] /\
    ThreadPool.contents C (pool s')
    = ThreadPool.contents C (pool s) ++ [{| function := f; argument := a |}] /\
    blocked s' = blocked s /\
    freed s' = false /\ lock_deleted s' = false /\
    shutdown (pool s') = false /\
    threads s' = threads s /\
    worker_threads (pool s') = worker_threads (pool s) /\
    asleep_not_full s' = asleep_not_full s /\
    asleep_not_empty s' = wake_one pick (asleep_not_empty s).
Proof.
  intros Hinv Hfr Hld Hsd Hb Hlt. simpl. rewrite Hb.
  unfold thread_pool_add_work, critical_section. rewrite Hfr, Hld. simpl.
  destruct (add_work_cs_spec C size_ok f a (pool s) (inv_wf C s Hinv))
    as [[Hsd' _]|[(_ & Hfull & _)|(_ & _ & tp1 & -> & Hwf1 & _ & Hsd1 & Hwt & Hc)]].
  { congruence. }
  { lia. }
  simpl. eexists. split; [reflexivity|]. simpl.
  split_and!; try done.
  by apply delete_id.
Qed.

(** When the caller of [thread_pool_add_work] is blocked in the wait
    loop, awake, and the queue has room. *)
Lemma add_work_resumed t pick f a s :
  sys_inv C s -> freed s = false -> lock_deleted s = false ->
  shutdown (pool s) = false ->
  blocked s !! t = Some (CallAddWork f a, InAddWork f a) ->
  is_asleep (Client t) s = false ->
  queue_size (pool s) < C ->
  exists s',
    step C W (Resume t) pick s = Some s' /\
    trace s' = trace s ++ [Ret t (CallAddWork f a) (VBool true)] /\
    ThreadPool.contents C (pool s')
    = ThreadPool.contents C (pool s) ++ [{| function := f; argument := a |}] /\
    blocked s' = delete t (blocked s) /\
    pcs s' = pcs s.
Proof.
  intros Hinv Hfr Hld Hsd Hb Haw Hlt. simpl. rewrite Hb, Haw. simpl.
  unfold thread_pool_add_work, critical_section. rewrite Hfr, Hld. simpl.
  destruct (add_work_cs_spec C size_ok f a (pool s) (inv_wf C s Hinv))
    as [[Hsd' _]|[(_ & Hfull & _)|(_ & _ & tp1 & -> & Hwf1 & _ & Hsd1 & Hwt & Hc)]].
  { congruence. }
  { lia. }
  simpl. eexists. split; [reflexivity|]. simpl. done.
Qed.

Lemma wake_one_snoc pick (l : list thread) x :
  wake_one pick (l ++ [x]) = delete (Nat.modulo pick (S (length l))) (l ++ [x]).
Proof.
  unfold wake_one. destruct (l ++ [x]) as [|y l'] eqn:E.
  - by destruct l.
  - rewrite <- E, length_app. simpl. by rewrite Nat.add_1_r.
Qed.

Lemma delete_snoc_last {A} (l : list A) x : delete (length l) (l ++ [x]) = l.
Proof. induction l as [|y l IH]; simpl; [done|]. by rewrite IH. Qed.

Lemma delete_snoc_other {A} (l : list A) x k :
  (k < length l)%nat -> delete k (l ++ [x]) = delete k l ++ [x].
Proof.
  revert k. induction l as [|y l IH]; intros [|k] Hk; simpl in *; try lia;
    [done|].
  by rewrite IH by lia.
Qed.

(** A full queue holds the caller of [thread_pool_add_work] back: it
    joins the sleepers of [queue_not_full].  A worker that takes the
    oldest item wakes one of these sleepers, the one that the system
    picks.  If that is this caller, its next turn queues the work behind
    the items that were there; if it is another one, this caller sleeps
    on. *)
Lemma full_queue_waits t f a i th p1 p2 s :
  sys_inv C s -> freed s = false -> lock_deleted s = false ->
  shutdown (pool s) = false -> queue_size (pool s) = C ->
  blocked s !! t = None -> is_asleep (Client t) s = false ->
  threads s !! i = Some th -> pc th = AtLoop ->
  is_asleep (Worker i) s = false ->
  exists w rest s1 s2,
    ThreadPool.contents C (pool s) = w :: rest /\
    step C W (Call t (CallAddWork f a)) p1 s = Some s1 /\
    blocked s1 !! t = Some (CallAddWork f a, InAddWork f a) /\
    asleep_not_full s1 = asleep_not_full s ++ [Client t] /\
    trace s1 = trace s /\ pool s1 = pool s /\
    (forall p, step C W (Resume t) p s1 = Some s1) /\
    step C W (RunWorker i) p2 s1 = Some s2 /\
    pcs s2 !! i = Some (Calling w) /\
    ThreadPool.contents C (pool s2) = rest /\
    asleep_not_full s2 = wake_one p2 (asleep_not_full s ++ [Client t]) /\
    (Nat.modulo p2 (S (length (asleep_not_full s)))
     = length (asleep_not_full s) ->
     forall p3, exists s3,
       step C W (Resume t) p3 s2 = Some s3 /\
       trace s3 = trace s ++ [Ret t (CallAddWork f a) (VBool true)] /\
       ThreadPool.contents C (pool s3)
       = rest ++ [{| function := f; argument := a |}] /\
       blocked s3 !! t = None) /\
    (Nat.modulo p2 (S (length (asleep_not_full s)))
     <> length (asleep_not_full s) ->
     Client t ∈ asleep_not_full s2 /\
     forall p3, step C W (Resume t) p3 s2 = Some s2).
Proof.
  intros Hinv Hfr Hld Hsd Hfull Hb Hct Hth Hpc Hwi.
  pose proof (inv_wf C s Hinv) as Hwf.
  set (l := asleep_not_full s).
  (* the call goes to sleep *)
  assert (Hs1 : step C W (Call t (CallAddWork f a)) p1 s
     = Some (with_blocked (<[t := (CallAddWork f a, InAddWork f a)]> (blocked s))
               (with_sleepers queue_not_full (l ++ [Client t]) s))).
  { simpl. rewrite Hb.
    unfold thread_pool_add_work, critical_section. rewrite Hfr, Hld. simpl.
    destruct (add_work_cs_spec C size_ok f a (pool s) Hwf)
      as [[Hsd' _]|[(_ & _ & ->)|(_ & Hlt & _)]]; [congruence| |lia].
    simpl. by rewrite ?Hfr, ?Hld. }
  set (s1 := with_blocked _ _) in Hs1.
  assert (Hinv1 : sys_inv C s1) by (by eapply inv_step).
  assert (Hasleep1 : is_asleep (Client t) s1 = true).
  { apply bool_decide_eq_true. simpl. rewrite !elem_of_app. right. right.
    by apply list_elem_of_singleton. }
  (* the worker takes the oldest item and wakes a sleeper *)
  destruct (worker_cs_spec C size_ok (pool s) Hwf)
    as [(_ & Hz & _)|[(_ & Hz & _)|(_ & w & tp1 & Hw & Hwf1 & Hsz1 & Hsd1 & _ & Hc)]];
    [lia|lia|].
  assert (Hwi1 : is_asleep (Worker i) s1 = false).
  { apply bool_decide_eq_false. simpl.
    apply bool_decide_eq_false in Hwi. rewrite !elem_of_app in *.
    intros [H|[H|H]]; [tauto|tauto|].
    apply list_elem_of_singleton in H. done. }
  assert (Hs2 : step C W (RunWorker i) p2 s1
     = Some (set_pc i (Calling w)
               (with_sleepers queue_not_full (wake_one p2 (l ++ [Client t]))
                  (with_pool tp1 s1)))).
  { simpl. unfold worker_thread.
    change (threads s1) with (threads s). rewrite Hth, Hpc, Hwi1.
    unfold critical_section.
    change (freed s1) with (freed s). change (lock_deleted s1) with (lock_deleted s).
    rewrite Hfr, Hld. cbn [orb]. change (pool s1) with (pool s). rewrite Hw.
    cbn [foldl apply_wake sleepers].
    change (asleep_not_full (with_pool tp1 s1)) with (l ++ [Client t]).
    simpl. by rewrite ?Hfr, ?Hld. }
  set (s2 := set_pc _ _ _) in Hs2.
  assert (Hinv2 : sys_inv C s2) by (by eapply inv_step).
  exists w, (ThreadPool.contents C tp1), s1, s2.
  split; [done|]. split; [exact Hs1|].
  split; [simpl; apply lookup_insert_eq|].
  split; [done|]. split; [done|]. split; [done|].
  split.
  { intros p. cbn [step]. change (blocked s1 !! t)
      with (<[t := (CallAddWork f a, InAddWork f a)]> (blocked s) !! t).
    by rewrite lookup_insert_eq, Hasleep1. }
  split; [exact Hs2|].
  split.
  { subst s2. rewrite pcs_set_pc. rewrite list_lookup_alter_eq.
    change (pcs (with_sleepers queue_not_full (wake_one p2 (l ++ [Client t]))
                   (with_pool tp1 s1))) with (pcs s).
    by rewrite (pcs_lookup s i th Hth). }
  split; [done|]. split; [done|].
  assert (Hnot : (Client t ∉ l) /\ (Client t ∉ asleep_not_empty s)).
  { apply bool_decide_eq_false in Hct. rewrite elem_of_app in Hct.
    subst l. tauto. }
  assert (Hbound : (Nat.modulo p2 (S (length l)) < S (length l))%nat)
    by (apply Nat.mod_upper_bound; lia).
  split.
  - (* the caller was picked *)
    intros Hpick p3.
    assert (Hct2 : is_asleep (Client t) s2 = false).
    { apply bool_decide_eq_false. simpl.
      rewrite wake_one_snoc. fold l in Hpick. rewrite Hpick, delete_snoc_last.
      rewrite elem_of_app. tauto. }
    destruct (add_work_resumed t p3 f a s2)
      as (s3 & Hs3 & Htr & Hc3 & Hb3 & _); try done.
    { simpl. congruence. }
    { simpl. apply lookup_insert_eq. }
    { simpl. lia. }
    exists s3. split; [exact Hs3|]. split; [exact Htr|]. split; [exact Hc3|].
    rewrite Hb3. apply lookup_delete_eq.
  - (* another sleeper was picked *)
    intros Hpick. fold l in Hpick.
    assert (Hin : Client t ∈ asleep_not_full s2).
    { simpl. rewrite wake_one_snoc, delete_snoc_other by lia.
      apply elem_of_app. right. by apply list_elem_of_singleton. }
    split; [exact Hin|]. intros p3. cbn [step].
    change (blocked s2 !! t)
      with (<[t := (CallAddWork f a, InAddWork f a)]> (blocked s) !! t).
    rewrite lookup_insert_eq.
    assert (Hasleep2 : is_asleep (Client t) s2 = true).
    { apply bool_decide_eq_true. apply elem_of_app. by right. }
    by rewrite Hasleep2.
Qed.

(** ** A [CreateThread] that fails *)

(** The loop of [thread_pool_start] can be cut at any turn it got
    through. *)
Lemma start_workers_split created n k i s s0 :
  start_workers created n i s = Returned (VBool true) s0 ->
  start_workers created (n + k) i s = start_workers created k (i + n) s0.
Proof.
  revert i s. induction n as [|n IH]; intros i s.
  - simpl. intros [= <-]. by rewrite Nat.add_0_r.
  - cbn [start_workers Nat.add].
    destruct (freed s); [done|].
    destruct (bool_decide _); [done|].
    destruct (CreateThread (created i) s) as [h s1].
    destruct h as [|h].
    + done.
    + intros H. rewrite (IH _ _ H). f_equal. lia.
Qed.

(** The pool in which the failure path begins: [worker_threads[i]] is
    [NULL], nothing else has happened yet. *)
Definition start_stopped (i : nat) (s0 : system) : system :=
  with_pool (store_worker_thread i 0%nat (pool s0)) s0.

Lemma start_workers_null created m i s0 :
  freed s0 = false -> (i < length (worker_threads (pool s0)))%nat ->
  created i = false ->
  start_workers created (S m) i s0
  = Blocked (InStartFailed i) (start_stopped i s0).
Proof.
  intros Hfr Hi Hc. cbn [start_workers]. rewrite Hfr.
  rewrite bool_decide_eq_false_2 by lia.
  unfold CreateThread. rewrite Hc. done.
Qed.

Lemma worker_keeps s i pick s' t :
  worker_thread C i pick s = Some s' ->
  worker_threads (pool s') = worker_threads (pool s) /\
  (is_asleep (Client t) s = false -> is_asleep (Client t) s' = false).
Proof.
  unfold worker_thread.
  destruct (threads s !! i) as [th|]; [|by intros [= <-]].
  destruct (pc th); [| |by intros [= <-]].
  - destruct (is_asleep (Worker i) s); [by intros [= <-]|].
    unfold critical_section.
    destruct (freed s || lock_deleted s); [done|].
    unfold worker_cs.
    destruct ((queue_size (pool s) =? 0) && negb (shutdown (pool s))).
    { intros [= <-]. split; [done|]. simpl.
      intros H%bool_decide_eq_false. apply bool_decide_eq_false.
      simpl. rewrite !elem_of_app in *.
      intros [[Hin|Hin]|Hin]; [tauto| |tauto].
      by apply list_elem_of_singleton in Hin. }
    destruct (shutdown (pool s) && (queue_size (pool s) =? 0));
      [by intros [= <-]|].
    destruct (arr_get _ _); [|done]. intros [= <-]. split; [done|].
    simpl. intros H%bool_decide_eq_false. apply bool_decide_eq_false.
    simpl. rewrite !elem_of_app in *.
    intros [Hin|Hin]; [tauto|].
    apply wake_one_subset in Hin. tauto.
  - by intros [= <-].
Qed.

Lemma worker_steps_keep sched s s' t :
  worker_steps sched -> run_system C W sched s = Some s' ->
  worker_threads (pool s') = worker_threads (pool s) /\
  (is_asleep (Client t) s = false -> is_asleep (Client t) s' = false).
Proof.
  revert s. induction sched as [|[a p] sched IH]; intros s Hw; simpl.
  - by intros [= <-].
  - apply Forall_cons in Hw as [[i Hi] Hw]. simpl in Hi. subst a. simpl.
    destruct (worker_thread C i p s) as [s1|] eqn:Hs; [|done].
    intros Hrun. destruct (worker_keeps s i p s1 t Hs) as [H1 H2].
    destruct (IH s1 Hw Hrun) as [H1' H2'].
    split; [congruence|auto].
Qed.

(** Steps of workers add nothing but executions to the trace. *)
Lemma worker_trace i pick s s' :
  worker_thread C i pick s = Some s' ->
  exists ws, trace s' = trace s ++ map (Executed i) ws.
Proof.
  unfold worker_thread.
  destruct (threads s !! i) as [th|];
    [|intros [= <-]; exists []; simpl; by rewrite app_nil_r].
  destruct (pc th) as [|w|];
    [| |intros [= <-]; exists []; simpl; by rewrite app_nil_r].
  - destruct (is_asleep (Worker i) s);
      [intros [= <-]; exists []; simpl; by rewrite app_nil_r|].
    unfold critical_section.
    destruct (freed s || lock_deleted s); [done|].
    unfold worker_cs.
    destruct ((queue_size (pool s) =? 0) && negb (shutdown (pool s)));
      [intros [= <-]; exists []; simpl; by rewrite app_nil_r|].
    destruct (shutdown (pool s) && (queue_size (pool s) =? 0));
      [intros [= <-]; exists []; simpl; by rewrite app_nil_r|].
    destruct (arr_get _ _); [|done].
    intros [= <-]; exists []; simpl; by rewrite app_nil_r.
  - intros [= <-]. by exists [w].
Qed.

Lemma worker_steps_trace sched s s' :
  worker_steps sched -> run_system C W sched s = Some s' ->
  exists evs, trace s' = trace s ++ evs /\
    length (omap (fun e => match e with Executed _ w => Some w | _ => None end) evs)
    = length evs.
Proof.
  revert s. induction sched as [|[a p] sched IH]; intros s Hw; simpl.
  - intros [= <-]. exists []. by rewrite app_nil_r.
  - apply Forall_cons in Hw as [[i Hi] Hw]. simpl in Hi. subst a. simpl.
    destruct (worker_thread C i p s) as [s1|] eqn:Hs; [|done].
    intros Hrun. destruct (worker_trace i p s s1 Hs) as [ws Hws].
    destruct (IH s1 Hw Hrun) as (evs & Hevs & Hl).
    exists (map (Executed i) ws ++ evs). split.
    + by rewrite Hevs, Hws, app_assoc.
    + rewrite omap_app, !length_app, Hl. f_equal.
      clear. induction ws as [|w ws IH]; [done|]. cbn. f_equal. exact IH.
Qed.

(** Either every [CreateThread] of the loop succeeds or there is a first
    one that fails. *)
Lemma first_failure (created : nat -> bool) n :
  (forall i, (i < n)%nat -> created i = true)
  \/ exists i0, (i0 < n)%nat /\ created i0 = false /\
       forall j, (j < i0)%nat -> created j = true.
Proof.
  induction n as [|n [IH|(i0 & Hi0 & Hf & Hlt)]].
  - left. intros i Hi. lia.
  - destruct (created n) eqn:Hn.
    + left. intros i Hi. destruct (decide (i = n)) as [->|]; [done|].
      apply IH. lia.
    + right. exists n. split; [lia|]. split; [done|]. exact IH.
  - right. exists i0. split; [lia|]. done.
Qed.

(** [thread_pool_start] returns [true] exactly when every
    [CreateThread] succeeds. *)
Lemma start_true_iff created s :
  freed s = false -> (W <= length (worker_threads (pool s)))%nat ->
  (forall i, (i < W)%nat -> created i = true)
  <-> exists s', thread_pool_start W created s = Returned (VBool true) s'.
Proof.
  intros Hfr Hlen. split.
  - intros Hok.
    destruct (start_workers_ok created W 0 s Hfr) as (s' & Hs' & _);
      [simpl; lia|intros j Hj; apply Hok; lia|].
    by exists s'.
  - intros [s' Hs'].
    destruct (first_failure created W) as [Hok|(i0 & Hi0 & Hf & Hlt)]; [done|].
    exfalso.
    destruct (start_workers_ok created i0 0 s Hfr) as
      (s0 & Hrun0 & _ & _ & _ & Hl & _ & _ & _ & _ & _ & Hfr0 & _);
      [simpl; lia|intros j Hj; apply Hlt; lia|].
    unfold thread_pool_start in Hs'.
    replace W with (i0 + S (W - S i0))%nat in Hs' at 1 by lia.
    rewrite (start_workers_split created i0 _ 0 s s0 Hrun0) in Hs'.
    change (0 + i0)%nat with i0 in Hs'.
    rewrite start_workers_null in Hs'; [done|done|lia|done].
Qed.

(** The joins on the threads of such a pool: they are defined, and those
    that are done found their threads ended. *)
Lemma join_workers_prefix n i s :
  (forall j, (i <= j < i + n)%nat ->
     worker_threads (pool s) !! j = @Some HANDLE (S j) /\
     (j < length (threads s))%nat) ->
  closed_ok s -> freed s = false ->
  exists r s' m,
    join_workers n i s = Some (r, s') /\
    (i <= m <= i + n)%nat /\
    (forall j, (i <= j < m)%nat -> pcs s !! j = Some Exited) /\
    match r with
    | Some (i', h) => i' = m /\ h = S m /\ (m < i + n)%nat
    | None => m = (i + n)%nat
    end.
Proof.
  revert i s. induction n as [|n IH]; intros i s Hh Hc Hfr; cbn [join_workers].
  - exists None, s, i. split; [done|]. split; [lia|]. split; [|lia].
    intros j Hj. lia.
  - rewrite Hfr. destruct (Hh i ltac:(lia)) as [Hi Hlt]. rewrite Hi.
    destruct (lookup_lt_is_Some_2 (threads s) i Hlt) as [th Hth].
    destruct (WaitForSingleObject (S i) s) eqn:Hw.
    + pose proof (WaitForSingleObject_exited i s th Hc Hth Hw) as Hex.
      pose proof (only_handles_CloseHandle (S i) s) as Hoh.
      destruct (IH (S i) (CloseHandle (S i) s))
        as (r & s' & m & Hj & Hm & Hall & Hr).
      * intros j Hj. rewrite (oh_pool _ _ Hoh), (oh_length _ _ Hoh).
        apply Hh. lia.
      * by apply closed_ok_CloseHandle.
      * by rewrite (oh_freed _ _ Hoh).
      * exists r, s', m. split; [exact Hj|]. split; [lia|]. split.
        -- intros j Hj'. destruct (decide (j = i)) as [->|Hne].
           ++ by rewrite (pcs_lookup s i th Hth), Hex.
           ++ rewrite <- (oh_pcs _ _ Hoh). apply Hall. lia.
        -- destruct r as [[i' h]|]; [|lia].
           destruct Hr as (? & ? & ?). split; [done|]. split; [done|lia].
    + exists (Some (i, S i)), s, i. split; [done|]. split; [lia|].
      split; [|split; [done|split; [done|lia]]].
      intros j Hj. lia.
Qed.

(** With the flag set a step of a created thread leaves the sleepers of
    [queue_not_empty] and the other threads as they are. *)
Lemma worker_closed_keeps i pick s s' :
  shutdown (pool s) = true -> worker_thread C i pick s = Some s' ->
  asleep_not_empty s' = asleep_not_empty s /\
  shutdown (pool s') = true /\
  forall j, j <> i -> threads s' !! j = threads s !! j.
Proof.
  intros Hsd. unfold worker_thread.
  destruct (threads s !! i) as [th|]; [|by intros [= <-]].
  destruct (pc th) as [|w|]; [| |by intros [= <-]].
  - destruct (is_asleep (Worker i) s); [by intros [= <-]|].
    unfold critical_section.
    destruct (freed s || lock_deleted s); [done|].
    unfold worker_cs. rewrite Hsd, andb_false_r. cbn [andb].
    destruct (queue_size (pool s) =? 0).
    + intros [= <-]. simpl. split; [done|]. split; [done|].
      intros j Hj. by rewrite list_lookup_alter_ne.
    + destruct (arr_get _ _); [|done]. intros [= <-]. simpl.
      split; [done|]. split; [done|].
      intros j Hj. by rewrite list_lookup_alter_ne.
  - intros [= <-]. simpl. split; [done|]. split; [done|].
    intros j Hj. by rewrite list_lookup_alter_ne.
Qed.

Definition no_calls (sched : list (action * nat)) : Prop :=
  Forall (fun ap => forall t c, ap.1 <> Call t c) sched.

Definition threads_only (sched : list (action * nat)) : Prop :=
  Forall (fun ap => (exists i, ap.1 = RunWorker i) \/ exists t, ap.1 = Resume t)
    sched.

Lemma worker_steps_no_calls sched : worker_steps sched -> no_calls sched.
Proof.
  intros Hw. eapply Forall_impl; [exact Hw|].
  intros [a p] [i Hi] t c. simpl in *. by subst a.
Qed.

Section Failure.
Variable created : nat -> bool.
Variable t i0 : nat.

(** Where the caller of a [thread_pool_start] whose [CreateThread] fails
    at index [i0] stands: before the flag is set, in the join of thread
    [j], or back from the call. *)
Inductive fail_phase (s : system) : Prop :=
  | fp_stopped :
      blocked s !! t = Some (CallStart created, InStartFailed i0) ->
      shutdown (pool s) = false -> lock_deleted s = false ->
      trace s = [] ->
      fail_phase s
  | fp_joining j :
      blocked s !! t = Some (CallStart created, InStartJoin j i0 (S j)) ->
      (j < i0)%nat ->
      (forall j', (j' < j)%nat -> pcs s !! j' = Some Exited) ->
      shutdown (pool s) = true -> lock_deleted s = false ->
      trace s = [] ->
      fail_phase s
  | fp_returned :
      blocked s !! t = None ->
      Forall (fun th => pc th = Exited) (threads s) ->
      shutdown (pool s) = true -> lock_deleted s = true ->
      trace s = [Ret t (CallStart created) (VBool false)] ->
      fail_phase s.

Definition idle (s : system) : Prop :=
  forall j th, threads s !! j = Some th -> pc th = AtLoop \/ pc th = Exited.

(** The pool while this is the only call: the [i0] threads and their
    handles, an empty queue, no work in any hand, nobody else inside a
    call. *)
Record fail_core (s : system) : Prop := {
  fc_threads : length (threads s) = i0;
  fc_handles :
    forall j, (j < i0)%nat -> worker_threads (pool s) !! j = @Some HANDLE (S j);
  fc_length : (i0 < length (worker_threads (pool s)))%nat;
  fc_closed : closed_ok s;
  fc_alive : freed s = false;
  fc_empty : queue_size (pool s) = 0;
  fc_idle : idle s;
  fc_not_full : asleep_not_full s = [];
  fc_not_empty : forall x, x ∈ asleep_not_empty s -> exists i, x = Worker i;
  fc_only : forall t', t' <> t -> blocked s !! t' = None
}.

Definition fail_inv (s : system) : Prop := fail_core s /\ fail_phase s.

Lemma fail_core_transfer s s' :
  fail_core s ->
  length (threads s') = length (threads s) -> closed_ok s' -> idle s' ->
  worker_threads (pool s') = worker_threads (pool s) ->
  queue_size (pool s') = queue_size (pool s) ->
  freed s' = freed s ->
  asleep_not_full s' = asleep_not_full s ->
  (forall x, x ∈ asleep_not_empty s' -> exists i, x = Worker i) ->
  (forall t', t' <> t -> blocked s' !! t' = blocked s !! t') ->
  fail_core s'.
Proof.
  intros [Hl Hh Hlen Hc Hfr He Hi Hnf Hne Ho] Hl' Hc' Hi' Hw Hq Hf' Hnf' Hne' Hb.
  split; try done.
  - by rewrite Hl'.
  - intros j Hj. rewrite Hw. by apply Hh.
  - by rewrite Hw.
  - by rewrite Hf'.
  - by rewrite Hq.
  - by rewrite Hnf'.
  - intros t' Ht'. rewrite Hb by done. by apply Ho.
Qed.

Lemma closed_ok_advance s s' :
  closed_ok s -> threads_advance (threads s) (threads s') -> closed_ok s'.
Proof.
  intros Hc [_ Hadv] j th' Hth' Hop.
  destruct (Hadv j th' Hth') as (th & Hth & Hop' & Hpc).
  rewrite Hop' in Hop. pose proof (Hc j th Hth Hop) as Hex.
  destruct Hpc as [->|Hn]; done.
Qed.

Lemma idle_set_pc i p s :
  p = AtLoop \/ p = Exited -> idle s -> idle (set_pc i p s).
Proof.
  intros Hp Hi j th'. simpl. destruct (decide (i = j)) as [->|Hne].
  - rewrite list_lookup_alter_eq.
    destruct (threads s !! j) as [th|]; [|done]. simpl. by intros [= <-].
  - rewrite list_lookup_alter_ne by done. apply Hi.
Qed.

Lemma idle_same_pcs s s' : pcs s' = pcs s -> idle s -> idle s'.
Proof.
  intros Hp Hi j th' Hth'.
  pose proof (pcs_lookup s' j th' Hth') as H. rewrite Hp in H.
  unfold pcs in H. rewrite list_lookup_fmap in H.
  destruct (threads s !! j) as [th|] eqn:Hth; [|done].
  simpl in H. injection H as H. rewrite <- H. by eapply Hi.
Qed.

Lemma fail_core_only_handles s s' :
  fail_core s -> only_handles s s' -> closed_ok s' -> fail_core s'.
Proof.
  intros Hc [O1 O2 O3 O4 O5 O6 O7 O8 O9] Hc'.
  apply (fail_core_transfer s); try done; try congruence.
  - by apply (idle_same_pcs s), (fc_idle s Hc).
  - rewrite O4. apply (fc_not_empty s Hc).
Qed.

Lemma fail_core_client s s' :
  fail_core s ->
  threads s' = threads s -> pool s' = pool s -> freed s' = freed s ->
  asleep_not_empty s' = asleep_not_empty s ->
  asleep_not_full s' = asleep_not_full s ->
  (forall t', t' <> t -> blocked s' !! t' = blocked s !! t') ->
  fail_core s'.
Proof.
  intros Hc Hth Hp Hfr Hne Hnf Hb.
  apply (fail_core_transfer s); try done; try congruence.
  - intros j th. rewrite Hth. apply (fc_closed s Hc).
  - intros j th. rewrite Hth. apply (fc_idle s Hc).
  - rewrite Hne. apply (fc_not_empty s Hc).
Qed.

Lemma fail_phase_transfer s s' :
  fail_phase s ->
  threads_advance (threads s) (threads s') ->
  blocked s' = blocked s -> shutdown (pool s') = shutdown (pool s) ->
  lock_deleted s' = lock_deleted s -> trace s' = trace s ->
  fail_phase s'.
Proof.
  intros Hph Hadv Hb Hsd Hld Htr.
  destruct Hph as [H1 H2 H3 H4|j H1 Hj Hpre H2 H3 H4|H1 Hall H2 H3 H4].
  - apply fp_stopped; congruence.
  - apply (fp_joining _ j); try congruence.
    intros j' Hj'. eapply pcs_advance; [exact Hadv|]. by apply Hpre.
  - apply fp_returned; try congruence.
    apply Forall_lookup. intros j th' Hth'. destruct Hadv as [_ Hadv].
    destruct (Hadv j th' Hth') as (th & Hth & _ & Hpc).
    pose proof (Forall_lookup_1 _ _ _ _ Hall Hth) as Hex. simpl in Hex.
    destruct Hpc as [->|Hn]; done.
Qed.

(** A created thread finds the queue empty: it goes to sleep as long as
    the flag is clear and leaves its loop once the flag is set. *)
Lemma fail_worker i pick s :
  fail_inv s -> exists s', worker_thread C i pick s = Some s' /\ fail_inv s'.
Proof.
  intros [Hc Hph]. unfold worker_thread.
  destruct (threads s !! i) as [th|] eqn:Hth; [|by exists s].
  destruct (fc_idle s Hc i th Hth) as [Hpc|Hpc]; rewrite Hpc; [|by exists s].
  destruct (is_asleep (Worker i) s); [by exists s|].
  assert (Hld : lock_deleted s = false).
  { destruct Hph as [_ _ H _|j _ _ _ _ H _|_ Hall _ _ _]; [done|done|].
    pose proof (Forall_lookup_1 _ _ _ _ Hall Hth) as Hex. simpl in Hex.
    congruence. }
  unfold critical_section. rewrite (fc_alive s Hc), Hld. cbn [orb].
  unfold worker_cs. rewrite (fc_empty s Hc). cbn [Z.eqb andb].
  assert (Hadv : threads_advance (threads s)
            (alter (fun th => {| pc := Exited; handle_open := handle_open th |})
               i (threads s))).
  { apply (threads_advance_set_pc i Exited _ th Hth). by rewrite Hpc. }
  destruct (shutdown (pool s)) eqn:Hsd; cbn [negb andb foldl].
  - eexists. split; [reflexivity|]. split.
    + apply (fail_core_transfer s); simpl; try done.
      * by rewrite length_alter.
      * by apply (closed_ok_advance s); [apply (fc_closed s Hc)|].
      * apply (idle_set_pc i Exited (with_pool (pool s) s)); [by right|].
        apply (fc_idle s Hc).
      * apply (fc_not_empty s Hc).
    + by apply (fail_phase_transfer s).
  - eexists. split; [reflexivity|]. split.
    + apply (fail_core_transfer s); simpl; try done.
      * apply (fc_closed s Hc).
      * apply (fc_idle s Hc).
      * intros x [Hx|Hx%list_elem_of_singleton]%elem_of_app.
        -- by apply (fc_not_empty s Hc).
        -- by exists i.
    + apply (fail_phase_transfer s); simpl; try done.
      apply threads_advance_refl.
Qed.

(** The end of the failure path from the join of thread [j] on. *)
Lemma fail_join j sj :
  fail_core sj -> shutdown (pool sj) = true -> lock_deleted sj = false ->
  trace sj = [] -> (j <= i0)%nat ->
  (forall j', (j' < j)%nat -> pcs sj !! j' = Some Exited) ->
  exists s',
    settle t (CallStart created) (start_join j i0 sj) = Some s' /\
    fail_inv s' /\
    asleep_not_empty s' = asleep_not_empty sj /\
    pcs s' = pcs sj /\
    (Forall (fun th => pc th = Exited) (threads sj) -> blocked s' !! t = None).
Proof.
  intros Hc Hsd Hld Htr Hj Hpre.
  destruct (join_workers_prefix (i0 - j) j sj)
    as (r & s0 & m & Hjoin & Hm & Hall & Hr).
  { intros j' Hj'. split; [apply (fc_handles sj Hc); lia|].
    rewrite (fc_threads sj Hc). lia. }
  { apply (fc_closed sj Hc). }
  { apply (fc_alive sj Hc). }
  pose proof (join_workers_only_handles _ _ _ _ _ Hjoin) as Hoh.
  pose proof (join_workers_closed_ok _ _ _ _ _ (fc_closed sj Hc) Hjoin) as Hc0.
  pose proof (fail_core_only_handles sj s0 Hc Hoh Hc0) as Hcore0.
  assert (Hpre0 : forall j', (j' < m)%nat -> pcs s0 !! j' = Some Exited).
  { intros j' Hj'. rewrite (oh_pcs _ _ Hoh).
    destruct (decide (j' < j)%nat); [by apply Hpre|]. apply Hall. lia. }
  destruct Hoh as [O1 O2 O3 O4 O5 O6 O7 O8 O9].
  unfold start_join, start_joined. rewrite Hjoin.
  destruct r as [[i' h]|].
  - destruct Hr as (-> & -> & Hlt). eexists. split; [reflexivity|].
    split; [|split; [done|split; [done|]]].
    + split.
      * apply (fail_core_client s0); simpl; try done.
        intros t' Ht'. by rewrite lookup_insert_ne.
      * apply (fp_joining _ m); simpl.
        -- apply lookup_insert_eq.
        -- lia.
        -- exact Hpre0.
        -- congruence.
        -- congruence.
        -- congruence.
    + intros Hex. exfalso.
      destruct (join_workers_all_exited (i0 - j) j sj) as (s1 & Hj1 & _);
        [apply (fc_alive sj Hc)|pose proof (fc_length sj Hc); lia|done|].
      congruence.
  - subst m. rewrite O2, O3, (fc_alive sj Hc), Hld. cbn [orb].
    eexists. split; [reflexivity|]. split; [|split; [done|split; [done|]]].
    + split.
      * apply (fail_core_client s0); simpl; try done.
        intros t' Ht'. by rewrite lookup_delete_ne.
      * apply fp_returned; simpl.
        -- apply lookup_delete_eq.
        -- apply (all_exited_of_prefix i0 s0); [apply (fc_threads s0 Hcore0)|].
           intros j' Hj'. apply Hpre0. lia.
        -- congruence.
        -- done.
        -- by rewrite O7, Htr.
    + intros _. simpl. apply lookup_delete_eq.
Qed.

Lemma late_sleeper_worker pick s x :
  x ∈ late_sleeper pick s -> exists i, x = Worker i.
Proof.
  unfold late_sleeper. destruct pick as [|k]; [by intros ?%elem_of_nil|].
  destruct (_ && _); [|by intros ?%elem_of_nil].
  intros ->%list_elem_of_singleton. by exists k.
Qed.

Lemma fail_awake s : fail_core s -> is_asleep (Client t) s = false.
Proof.
  intros Hc. apply bool_decide_eq_false.
  rewrite (fc_not_full s Hc), app_nil_r. intros Hin.
  by destruct (fc_not_empty s Hc _ Hin).
Qed.

(** The caller takes its call up again: the flag, the notification and
    the joins as far as they go. *)
Lemma fail_resume pick s :
  fail_inv s ->
  exists s',
    step C W (Resume t) pick s = Some s' /\ fail_inv s' /\
    shutdown (pool s') = true /\ pcs s' = pcs s /\
    asleep_not_empty s'
    = (if shutdown (pool s) then asleep_not_empty s
       else late_sleeper pick s) /\
    (Forall (fun th => pc th = Exited) (threads s) -> blocked s' !! t = None).
Proof.
  intros [Hc Hph]. cbn [step].
  destruct Hph as [Hb Hsd Hld Htr|j Hb Hj Hpre Hsd Hld Htr|Hb Hall Hsd Hld Htr].
  - rewrite Hb, (fail_awake s Hc). cbn [resume]. unfold start_failed.
    rewrite (fc_alive s Hc). cbv zeta.
    set (sj := with_sleepers queue_not_empty _ _).
    destruct (fail_join 0 sj) as (s' & Hs' & Hinv' & Hne' & Hp' & Hdone);
      try done.
    + apply (fail_core_transfer s); try done.
      * apply (fc_closed s Hc).
      * apply (fc_idle s Hc).
      * apply late_sleeper_worker.
    + lia.
    + intros j' Hj'. lia.
    + exists s'. split; [exact Hs'|]. split; [exact Hinv'|].
      split; [|split; [exact Hp'|split; [by rewrite Hsd|exact Hdone]]].
      destruct Hinv' as [_ [H1 H2 _ _|j' _ _ _ H2 _ _|_ _ H2 _ _]]; try done.
      exfalso. revert Hs' H1. unfold start_join, start_joined.
      destruct (join_workers _ _ _) as [[[[j' h]|] s0]|]; try done.
      * intros [= <-]. simpl. rewrite lookup_insert_eq. done.
      * destruct (_ || _); [done|]. intros [= <-]. simpl.
        by rewrite lookup_delete_eq.
  - rewrite Hb, (fail_awake s Hc). cbn [resume].
    assert (Hsame : start_rejoin j i0 (S j) s = start_join j i0 s).
    { unfold start_rejoin, start_join. rewrite rejoin_workers_same.
      - by replace (S (i0 - S j)) with (i0 - j)%nat by lia.
      - by apply (fc_handles s Hc).
      - rewrite (fc_alive s Hc). done. }
    rewrite Hsame.
    destruct (fail_join j s) as (s' & Hs' & Hinv' & Hne' & Hp' & Hdone);
      try done; [lia|].
    exists s'. split; [exact Hs'|]. split; [exact Hinv'|].
    split; [|split; [exact Hp'|split; [by rewrite Hsd|exact Hdone]]].
    destruct Hinv' as [_ [H1 H2 _ _|j' _ _ _ H2 _ _|_ _ H2 _ _]]; try done.
    exfalso. revert Hs' H1. unfold start_join, start_joined.
    destruct (join_workers _ _ _) as [[[[j' h]|] s0]|]; try done.
    + intros [= <-]. simpl. rewrite lookup_insert_eq. done.
    + destruct (_ || _); [done|]. intros [= <-]. simpl.
      by rewrite lookup_delete_eq.
  - rewrite Hb. exists s. split; [done|]. split; [split; [done|]|].
    + by apply fp_returned.
    + by rewrite Hsd.
Qed.

(** Every step that is not a call of another client is defined. *)
Lemma fail_step a pick s :
  fail_inv s -> (forall t' c, a <> Call t' c) ->
  exists s', step C W a pick s = Some s' /\ fail_inv s'.
Proof.
  intros Hinv Hnc. destruct a as [t' c|t'|i|cv].
  - by destruct (Hnc t' c).
  - destruct (decide (t' = t)) as [->|Hne].
    + destruct (fail_resume pick s Hinv) as (s' & Hs' & Hinv' & _).
      by exists s'.
    + exists s. cbn [step]. destruct Hinv as [Hc Hph].
      by rewrite (fc_only s Hc t' Hne).
  - by apply fail_worker.
  - eexists. split; [reflexivity|]. destruct Hinv as [Hc Hph]. split.
    + destruct cv; apply (fail_core_transfer s); simpl; try done;
        try apply (fc_closed s Hc); try apply (fc_idle s Hc);
        try apply (fc_not_empty s Hc).
      * intros x Hx%wake_one_subset. by apply (fc_not_empty s Hc).
      * by rewrite (fc_not_full s Hc).
    + destruct cv; apply (fail_phase_transfer s); simpl; try done;
        apply threads_advance_refl.
Qed.

Lemma fail_run sched s :
  fail_inv s -> no_calls sched ->
  exists s', run_system C W sched s = Some s' /\ fail_inv s'.
Proof.
  revert s. induction sched as [|[a p] sched IH]; intros s Hinv Hn.
  - by exists s.
  - apply Forall_cons in Hn as [Ha Hn]. simpl in Ha.
    destruct (fail_step a p s Hinv Ha) as (s1 & Hs1 & Hinv1).
    destruct (IH s1 Hinv1 Hn) as (s' & Hrun & Hinv').
    exists s'. cbn [run_system]. by rewrite Hs1.
Qed.

(** When the call has returned, it has returned [false], the threads it
    made have ended, the flag is set, and the lock is deleted while the
    pool is not freed. *)
Lemma fail_returned s :
  fail_inv s -> blocked s !! t = None ->
  trace s = [Ret t (CallStart created) (VBool false)] /\
  length (threads s) = i0 /\
  Forall (fun th => pc th = Exited) (threads s) /\
  shutdown (pool s) = true /\ lock_deleted s = true /\ freed s = false.
Proof.
  intros [Hc Hph] Hb.
  destruct Hph as [H1 _ _ _|j H1 _ _ _ _ _|_ Hall Hsd Hld Htr]; [congruence..|].
  split_and!; try done; [apply (fc_threads s Hc)|apply (fc_alive s Hc)].
Qed.

Lemma fail_not_returned s :
  fail_inv s -> blocked s !! t <> None ->
  trace s = [] /\ lock_deleted s = false.
Proof.
  intros [Hc Hph] Hb. by destruct Hph.
Qed.

(** The call of [thread_pool_start] itself. *)
Lemma fail_start mem p :
  length (worker_threads mem) = W -> (i0 < W)%nat ->
  (forall j, (j < i0)%nat -> created j = true) -> created i0 = false ->
  exists s1,
    step C W (Call t (CallStart created)) p (boot mem) = Some s1 /\
    fail_inv s1 /\
    blocked s1 !! t = Some (CallStart created, InStartFailed i0) /\
    threads s1 = replicate i0 fresh_thread /\
    asleep_not_empty s1 = [] /\ shutdown (pool s1) = false /\
    lock_deleted s1 = false.
Proof.
  intros Hlen Hi0 Hok Hfail.
  destruct (start_workers_ok created i0 0 (boot mem)) as
    (s0 & Hrun0 & Hth & Hnew & _ & Hl & _ & Hsz & _ & _ & Hsd & Hfr & Hld
       & Hne & Hnf & Hb & Htr); [done|simpl; lia|intros j Hj; apply Hok; lia|].
  simpl in Hth, Hl, Hld, Hne, Hnf, Hb, Htr, Hnew, Hsz, Hsd.
  assert (Hcall : thread_pool_start W created (boot mem)
                  = Blocked (InStartFailed i0) (start_stopped i0 s0)).
  { unfold thread_pool_start.
    replace W with (i0 + S (W - S i0))%nat at 1 by lia.
    rewrite (start_workers_split created i0 _ 0 (boot mem) s0 Hrun0).
    simpl. apply start_workers_null; [done|lia|done]. }
  eexists. split.
  { cbn [step]. simpl blocked. rewrite lookup_empty. cbn [invoke].
    rewrite Hcall. reflexivity. }
  split; [split|].
  - split; simpl.
    + etrans; [exact (f_equal length Hth)|apply length_replicate].
    + intros j Hj. rewrite list_lookup_insert_ne by lia.
      etrans; [exact (Hnew j Hj)|]. done.
    + rewrite length_insert. lia.
    + intros j th. simpl. rewrite Hth. by intros [-> _]%lookup_replicate.
    + done.
    + done.
    + intros j th. simpl. rewrite Hth. intros [-> _]%lookup_replicate.
      by left.
    + done.
    + rewrite Hne. by intros x ?%elem_of_nil.
    + intros t' Ht'. rewrite lookup_insert_ne by done. rewrite Hb.
      apply lookup_empty.
  - apply fp_stopped; simpl; try done. apply lookup_insert_eq.
  - simpl. split; [apply lookup_insert_eq|]. by rewrite Hth.
Qed.

(** It can return: when the notification reaches every thread, the
    threads leave their loops and the joins go through. *)
Lemma fail_can_return mem p :
  Z.of_nat (length (queue mem)) = C ->
  length (worker_threads mem) = W -> (i0 < W)%nat ->
  (forall j, (j < i0)%nat -> created j = true) -> created i0 = false ->
  exists s1 sched' s',
    step C W (Call t (CallStart created)) p (boot mem) = Some s1 /\
    worker_steps sched' /\
    run_system C W ((Resume t, 0%nat) :: sched' ++ [(Resume t, 0%nat)]) s1
    = Some s' /\
    fail_inv s' /\ blocked s' !! t = None.
Proof.
  intros Hq Hlen Hi0 Hok Hfail.
  destruct (fail_start mem p Hlen Hi0 Hok Hfail)
    as (s1 & Hs1 & Hinv1 & Hb1 & Hth1 & Hne1 & Hsd1 & Hld1).
  assert (Hsys1 : sys_inv C s1).
  { eapply inv_step; [exact size_ok| |exact Hs1]. by apply inv_boot. }
  destruct (fail_resume 0 s1 Hinv1)
    as (s2 & Hs2 & Hinv2 & Hsd2 & Hp2 & Hne2 & _).
  rewrite Hsd1 in Hne2. simpl in Hne2.
  assert (Hsys2 : sys_inv C s2) by (by eapply inv_step).
  exists s1.
  destruct (decide (blocked s2 !! t = None)) as [Hb2|Hb2].
  - exists [], s2. split; [exact Hs1|]. split; [by apply Forall_nil|].
    split; [|done].
    cbn [app run_system]. rewrite Hs2. cbn [step]. by rewrite Hb2.
  - destruct (fail_not_returned s2 Hinv2 Hb2) as [_ Hld2].
    destruct (drain_exists C W size_ok _ s2 eq_refl Hsys2 Hsd2)
      as (sched' & s3 & Hw & Hrun & Hall & Hsys3 & _); try done.
    { destruct Hinv2 as [Hc2 _]. apply (fc_alive s2 Hc2). }
    { intros i. apply bool_decide_eq_false. rewrite Hne2.
      destruct Hinv2 as [Hc2 _]. rewrite (fc_not_full s2 Hc2).
      by intros ?%elem_of_nil. }
    destruct (fail_run sched' s2 Hinv2 (worker_steps_no_calls _ Hw))
      as (s3' & Hrun' & Hinv3).
    rewrite Hrun in Hrun'. injection Hrun' as <-.
    destruct (fail_resume 0 s3 Hinv3) as (s' & Hs' & Hinv' & _ & _ & _ & Hdone).
    exists sched', s'. split; [exact Hs1|]. split; [exact Hw|].
    split; [|split; [exact Hinv'|by apply Hdone]].
    cbn [run_system]. rewrite Hs2, run_system_app, Hrun.
    cbn [run_system]. by rewrite Hs'.
Qed.

(** *** The notification that comes too early

    The caller is blocked in the join of thread [0], which sleeps on
    [queue_not_empty] with the flag set. *)
Definition hung (s : system) : Prop :=
  fail_inv s /\
  blocked s !! t = Some (CallStart created, InStartJoin 0 i0 1%nat) /\
  Worker 0 ∈ asleep_not_empty s /\
  pcs s !! 0%nat = Some AtLoop.

Lemma hung_closed s : hung s -> shutdown (pool s) = true /\ trace s = [].
Proof.
  intros ([Hc Hph] & Hb & _).
  destruct Hph as [H1 _ _ _|j H1 _ _ Hsd _ Htr|H1 _ _ _ _]; [congruence|done|congruence].
Qed.

Lemma with_blocked_same s : with_blocked (blocked s) s = s.
Proof. by destruct s. Qed.

Lemma hung_step a pick s :
  hung s -> (exists i, a = RunWorker i) \/ (exists t', a = Resume t') ->
  exists s', step C W a pick s = Some s' /\ hung s'.
Proof.
  intros Hh Ha. pose proof (hung_closed s Hh) as [Hsd Htr].
  destruct Hh as (Hinv & Hb & Hin & Hp0).
  destruct Ha as [[i ->]|[t' ->]].
  - destruct (fail_worker i pick s Hinv) as (s' & Hs' & Hinv').
    exists s'. split; [exact Hs'|]. split; [exact Hinv'|].
    destruct (worker_frame C i pick s s' Hs') as (Hb' & _ & _).
    destruct (worker_closed_keeps i pick s s' Hsd Hs') as (Hne' & _ & Hth').
    split; [congruence|]. split; [congruence|].
    destruct (decide (i = 0%nat)) as [->|Hi].
    + assert (Hsame : s' = s).
      { revert Hs'. unfold worker_thread. pose proof Hp0 as Hp.
        unfold pcs in Hp. rewrite list_lookup_fmap in Hp.
        destruct (threads s !! 0%nat) as [th|]; [|done].
        simpl in Hp. injection Hp as Hp. rewrite Hp.
        assert (Hasleep : is_asleep (Worker 0) s = true).
        { apply bool_decide_eq_true. apply elem_of_app. by left. }
        rewrite Hasleep. by intros [= <-]. }
      by rewrite Hsame.
    + unfold pcs in *. rewrite list_lookup_fmap in *.
      by rewrite (Hth' 0%nat) by done.
  - destruct (decide (t' = t)) as [->|Hne].
    + exists s. split; [|done].
      destruct Hinv as [Hc Hph].
      cbn [step]. rewrite Hb, (fail_awake s Hc). cbn [resume].
      unfold start_rejoin, start_joined, rejoin_workers.
      assert (Hw : WaitForSingleObject 1%nat s = false).
      { simpl. unfold pcs in Hp0. rewrite list_lookup_fmap in Hp0.
        destruct (threads s !! 0%nat) as [th|] eqn:Hth; [|done].
        simpl in Hp0. injection Hp0 as Hp0.
        destruct (handle_open th) eqn:Ho.
        - apply bool_decide_eq_false. congruence.
        - pose proof (fc_closed s Hc 0%nat th Hth Ho). congruence. }
      rewrite Hw. cbn [settle]. rewrite insert_id by done.
      by rewrite with_blocked_same.
    + exists s. split; [|done]. cbn [step]. destruct Hinv as [Hc Hph].
      by rewrite (fc_only s Hc t' Hne).
Qed.

Lemma hung_run sched s :
  hung s -> threads_only sched ->
  exists s', run_system C W sched s = Some s' /\ hung s'.
Proof.
  revert s. induction sched as [|[a p] sched IH]; intros s Hh Hn.
  - by exists s.
  - apply Forall_cons in Hn as [Ha Hn]. simpl in Ha.
    destruct (hung_step a p s Hh Ha) as (s1 & Hs1 & Hh1).
    destruct (IH s1 Hh1 Hn) as (s' & Hrun & Hh').
    exists s'. cbn [run_system]. by rewrite Hs1.
Qed.

(** It need not return: thread [0] tests its wait loop, the flag is set
    and [queue_not_empty] notified, only then the thread goes to sleep. *)
Lemma fail_can_hang mem p :
  length (worker_threads mem) = W -> (i0 < W)%nat -> i0 <> 0%nat ->
  (forall j, (j < i0)%nat -> created j = true) -> created i0 = false ->
  exists s1 s2,
    step C W (Call t (CallStart created)) p (boot mem) = Some s1 /\
    run_system C W [(RunWorker 0, 0%nat); (Resume t, 1%nat)] s1 = Some s2 /\
    hung s2.
Proof.
  intros Hlen Hi0 Hpos Hok Hfail.
  destruct (fail_start mem p Hlen Hi0 Hok Hfail)
    as (s1 & Hs1 & Hinv1 & Hb1 & Hth1 & Hne1 & Hsd1 & Hld1).
  exists s1.
  pose proof Hinv1 as [Hc1 _].
  assert (Hth0 : threads s1 !! 0%nat = Some fresh_thread).
  { rewrite Hth1. apply lookup_replicate. split; [done|lia]. }
  assert (Hstep : worker_thread C 0 0 s1
     = Some (with_sleepers queue_not_empty [Worker 0] (with_pool (pool s1) s1))).
  { unfold worker_thread. rewrite Hth0. cbn [pc fresh_thread].
    assert (Haw : is_asleep (Worker 0) s1 = false).
    { apply bool_decide_eq_false. rewrite Hne1, (fc_not_full s1 Hc1).
      by intros ?%elem_of_nil. }
    rewrite Haw. unfold critical_section.
    rewrite (fc_alive s1 Hc1), Hld1. cbn [orb]. unfold worker_cs.
    rewrite (fc_empty s1 Hc1), Hsd1. cbn [Z.eqb negb andb sleepers].
    cbn [with_pool asleep_not_empty]. by rewrite Hne1. }
  destruct (fail_worker 0 0 s1 Hinv1) as (s1' & Hs1' & Hinv1').
  rewrite Hstep in Hs1'. injection Hs1' as <-.
  set (s1' := with_sleepers _ _ _) in *.
  destruct (fail_resume 1 s1' Hinv1')
    as (s2 & Hs2 & Hinv2 & Hsd2 & Hp2 & Hne2 & _).
  exists s2. split; [exact Hs1|]. split.
  { cbn [run_system step]. rewrite Hstep. fold s1'. cbn [step] in Hs2.
    by rewrite Hs2. }
  assert (Hp0 : pcs s2 !! 0%nat = Some AtLoop).
  { rewrite Hp2. unfold pcs. simpl. by rewrite list_lookup_fmap, Hth0. }
  assert (Hne2' : asleep_not_empty s2 = [Worker 0]).
  { rewrite Hne2. subst s1'. unfold late_sleeper.
    cbn [pool with_sleepers with_pool asleep_not_empty].
    rewrite (fc_empty s1 Hc1), Hsd1. cbn [Z.eqb negb andb].
    rewrite bool_decide_eq_true_2; [done|]. by apply list_elem_of_singleton. }
  split; [exact Hinv2|]. split; [|split; [|exact Hp0]].
  - destruct Hinv2 as [Hc2 [H1 H2 _ _|j H1 Hj Hpre _ _ _|_ Hall _ _ _]].
    + congruence.
    + destruct j as [|j]; [done|]. rewrite (Hpre 0%nat) in Hp0 by lia. done.
    + exfalso. unfold pcs in Hp0. rewrite list_lookup_fmap in Hp0.
      destruct (threads s2 !! 0%nat) as [th|] eqn:Hth; [|done].
      pose proof (Forall_lookup_1 _ _ _ _ Hall Hth) as Hex. simpl in *.
      congruence.
  - rewrite Hne2'. by apply list_elem_of_singleton.
Qed.

(** A failing start, in one statement. *)
Lemma start_fails mem p :
  Z.of_nat (length (queue mem)) = C ->
  length (worker_threads mem) = W -> (i0 < W)%nat ->
  (forall j, (j < i0)%nat -> created j = true) -> created i0 = false ->
  exists s1,
    step C W (Call t (CallStart created)) p (boot mem) = Some s1 /\
    blocked s1 !! t = Some (CallStart created, InStartFailed i0) /\
    threads s1 = replicate i0 fresh_thread /\
    shutdown (pool s1) = false /\
    (forall sched, no_calls sched ->
       exists s,
         run_system C W sched s1 = Some s /\
         (blocked s !! t <> None -> trace s = [] /\ lock_deleted s = false) /\
         (blocked s !! t = None ->
            trace s = [Ret t (CallStart created) (VBool false)] /\
            length (threads s) = i0 /\
            Forall (fun th => pc th = Exited) (threads s) /\
            shutdown (pool s) = true /\
            lock_deleted s = true /\ freed s = false /\
            (forall t' p' f a, thread_pool_add_work C t' p' f a s = Crash) /\
            (forall t' p', thread_pool_shutdown W t' p' PoolPtr s = Crash))) /\
    (exists sched' s',
       worker_steps sched' /\
       run_system C W ((Resume t, 0%nat) :: sched' ++ [(Resume t, 0%nat)]) s1
       = Some s' /\
       blocked s' !! t = None).
Proof.
  intros Hq Hlen Hi0 Hok Hfail.
  destruct (fail_start mem p Hlen Hi0 Hok Hfail)
    as (s1 & Hs1 & Hinv1 & Hb1 & Hth1 & Hne1 & Hsd1 & Hld1).
  exists s1. split; [exact Hs1|]. split; [exact Hb1|]. split; [exact Hth1|].
  split; [exact Hsd1|]. split.
  - intros sched Hn.
    destruct (fail_run sched s1 Hinv1 Hn) as (s & Hrun & Hinv).
    exists s. split; [exact Hrun|]. split; [by apply fail_not_returned|].
    intros Hb.
    destruct (fail_returned s Hinv Hb) as (Htr & Hl & Hall & Hsd & Hld & Hfr).
    split_and!; try done.
    + intros t' p' f a. unfold thread_pool_add_work, critical_section.
      by rewrite Hld, orb_true_r.
    + intros t' p'. unfold thread_pool_shutdown, critical_section.
      by rewrite Hld, orb_true_r.
  - destruct (fail_can_return mem p Hq Hlen Hi0 Hok Hfail)
      as (s1' & sched' & s' & Hs1' & Hw & Hrun & _ & Hb').
    rewrite Hs1 in Hs1'. injection Hs1' as <-.
    by exists sched', s'.
Qed.

Lemma start_hangs mem p :
  length (worker_threads mem) = W -> (i0 < W)%nat -> i0 <> 0%nat ->
  (forall j, (j < i0)%nat -> created j = true) -> created i0 = false ->
  exists s1 s2,
    step C W (Call t (CallStart created)) p (boot mem) = Some s1 /\
    run_system C W [(RunWorker 0, 0%nat); (Resume t, 1%nat)] s1 = Some s2 /\
    forall sched, threads_only sched ->
      exists s,
        run_system C W sched s2 = Some s /\
        blocked s !! t = Some (CallStart created, InStartJoin 0 i0 1%nat) /\
        trace s = [] /\ shutdown (pool s) = true /\
        freed s = false /\ lock_deleted s = false /\
        is_asleep (Worker 0) s = true /\ pcs s !! 0%nat = Some AtLoop.
Proof.
  intros Hlen Hi0 Hpos Hok Hfail.
  destruct (fail_can_hang mem p Hlen Hi0 Hpos Hok Hfail)
    as (s1 & s2 & Hs1 & Hs2 & Hh2).
  exists s1, s2. split; [exact Hs1|]. split; [exact Hs2|].
  intros sched Hn.
  destruct (hung_run sched s2 Hh2 Hn) as (s & Hrun & Hh).
  exists s. split; [exact Hrun|].
  destruct (hung_closed s Hh) as [Hsd Htr].
  destruct Hh as (Hinv & Hb & Hin & Hp0).
  destruct (fail_not_returned s Hinv) as [_ Hld]; [congruence|].
  destruct Hinv as [Hc _].
  split_and!; try done.
  - apply (fc_alive s Hc).
  - apply bool_decide_eq_true. apply elem_of_app. by left.
Qed.

End Failure.

End Use.
End PoolCalls.

(** * More of thread_pool.c: a client that starts the pool, adds work and
      shuts it down *)

Module PoolProgram.
Import ThreadPool ThreadPoolFacts PoolSteps PoolLife PoolCalls.

Section Program.
Variable C : Z.
Variable W : nat.
Hypothesis size_ok : 0 < C <= CInt.INT_MAX.

(** A pool that was started once, is open, and in which no client is
    inside a call. *)
Record open_pool (s : system) : Prop := {
  op_inv : sys_inv C s;
  op_pool : pool_inv W s;
  op_alive : freed s = false;
  op_open : shutdown (pool s) = false;
  op_clients : blocked s = ∅
}.

Lemma worker_defined i pick s :
  sys_inv C s -> freed s = false -> lock_deleted s = false ->
  exists s', worker_thread C i pick s = Some s' /\
    shutdown (pool s') = shutdown (pool s).
Proof.
  intros Hinv Hfr Hld. unfold worker_thread.
  destruct (threads s !! i) as [th|]; [|by exists s].
  destruct (pc th) as [|w|]; [| |by exists s].
  - destruct (is_asleep (Worker i) s); [by exists s|].
    unfold critical_section. rewrite Hfr, Hld. simpl.
    destruct (worker_cs_spec C size_ok (pool s) (inv_wf C s Hinv))
      as [(Hsd & _ & ->)|[(Hsd & Hz & ->)|(Hlt & w & tp1 & -> & Hwf1 & _ & Hsd1 & _ & Hc)]].
    + by eexists.
    + by eexists.
    + by eexists.
  - by eexists.
Qed.

Lemma accepted_of_trace s s' evs :
  trace s' = trace s ++ evs ->
  omap accepted_of evs = [] ->
  jobs_accepted s' = jobs_accepted s.
Proof.
  intros Ht He. unfold jobs_accepted. rewrite Ht, omap_app.
  change (omap _ evs) with (omap accepted_of evs).
  by rewrite He, app_nil_r.
Qed.

(** A step that is no call leaves an open pool open and accepts
    nothing. *)
Lemma open_step_other a pick s :
  open_pool s -> (forall t c, a <> Call t c) ->
  exists s', step C W a pick s = Some s' /\ open_pool s' /\
    jobs_accepted s' = jobs_accepted s.
Proof.
  intros [Hinv Hp Hfr Hsd Hb] Hnc.
  pose proof (alive_lock W s Hp Hfr) as Hld.
  destruct a as [t c|t|i|cv].
  - by destruct (Hnc t c).
  - exists s. simpl. rewrite Hb, lookup_empty. done.
  - destruct (worker_defined i pick s Hinv Hfr Hld) as (s' & Hs & Hsd').
    exists s'. split; [exact Hs|].
    destruct (worker_frame C i pick s s' Hs) as (Hb' & Hfr' & Hld').
    split.
    + split.
      * by eapply inv_worker.
      * eapply (pool_inv_step C W size_ok (RunWorker i) pick s); try done.
        simpl; tauto.
      * congruence.
      * congruence.
      * congruence.
    + destruct (worker_trace C i pick s s' Hs) as [ws Hws].
      eapply accepted_of_trace; [exact Hws|].
      clear. by induction ws.
  - eexists. split; [reflexivity|]. split.
    + split.
      * by eapply (inv_step C W size_ok (Spurious cv) pick s).
      * eapply (pool_inv_step C W size_ok (Spurious cv) pick s); try done.
        simpl; tauto.
      * by destruct cv.
      * by destruct cv.
      * by destruct cv.
    + by destruct cv.
Qed.

(** An open pool that has accepted fewer than [MAX_QUEUE_SIZE] items
    takes the next one at once. *)
Lemma open_step_add t f a pick s :
  open_pool s -> Z.of_nat (length (jobs_accepted s)) < C ->
  exists s', step C W (Call t (CallAddWork f a)) pick s = Some s' /\
    open_pool s' /\
    jobs_accepted s' = jobs_accepted s ++ [{| function := f; argument := a |}].
Proof.
  intros [Hinv Hp Hfr Hsd Hb] Hlt.
  pose proof (alive_lock W s Hp Hfr) as Hld.
  pose proof (queued_le_accepted C s Hinv) as Hq.
  destruct (add_work_room C W size_ok t pick f a s) as
    (s' & Hs & Htr & _ & Hb' & Hfr' & Hld' & Hsd' & _); try done.
  { by rewrite Hb, lookup_empty. }
  { lia. }
  exists s'. split; [exact Hs|]. split.
  - split; try done.
    + by eapply inv_step.
    + eapply (pool_inv_step C W size_ok _ pick s); try done.
      simpl; tauto.
    + congruence.
  - unfold jobs_accepted. by rewrite Htr, omap_app.
Qed.

(** The calls of a schedule, in order. *)
Definition calls_of (sched : list (action * nat)) : list (nat * call) :=
  omap (fun ap => match ap.1 with Call t c => Some (t, c) | _ => None end)
    sched.

Definition offer (tw : nat * work_item_t) : nat * call :=
  (tw.1, CallAddWork (function tw.2) (argument tw.2)).

(** As long as the pool has accepted fewer than [MAX_QUEUE_SIZE] items,
    every [thread_pool_add_work] returns [true] at once, whichever clients
    call and whatever the workers do in between. *)
Lemma offers_accepted sched : forall s offers,
  open_pool s ->
  calls_of sched = map offer offers ->
  Z.of_nat (length (jobs_accepted s) + length offers) <= C ->
  exists s', run_system C W sched s = Some s' /\ open_pool s' /\
    jobs_accepted s' = jobs_accepted s ++ map snd offers.
Proof.
  induction sched as [|[a p] sched IH]; intros s offers Ho Hc Hn.
  - destruct offers; [|done]. exists s. simpl. by rewrite app_nil_r.
  - destruct a as [t c|t|i|cv].
    + destruct offers as [|[t' [f a]] offers]; [done|].
      unfold calls_of in Hc. simpl in Hc. injection Hc as -> -> Hc.
      simpl in Hn.
      destruct (open_step_add t' f a p s Ho) as (s1 & Hs1 & Ho1 & Ha1); [lia|].
      destruct (IH s1 offers Ho1 Hc) as (s' & Hrun & Ho' & Ha').
      { rewrite Ha1, length_app. simpl. lia. }
      exists s'. cbn [run_system]. rewrite Hs1. split; [exact Hrun|].
      split; [exact Ho'|]. rewrite Ha', Ha1, <- app_assoc. done.
    + destruct (open_step_other (Resume t) p s Ho) as (s1 & Hs1 & Ho1 & Ha1); [done|].
      destruct (IH s1 offers Ho1 Hc) as (s' & Hrun & Ho' & Ha'); [by rewrite Ha1|].
      exists s'. cbn [run_system]. rewrite Hs1. split; [exact Hrun|].
      split; [exact Ho'|]. by rewrite Ha', Ha1.
    + destruct (open_step_other (RunWorker i) p s Ho) as (s1 & Hs1 & Ho1 & Ha1); [done|].
      destruct (IH s1 offers Ho1 Hc) as (s' & Hrun & Ho' & Ha'); [by rewrite Ha1|].
      exists s'. cbn [run_system]. rewrite Hs1. split; [exact Hrun|].
      split; [exact Ho'|]. by rewrite Ha', Ha1.
    + destruct (open_step_other (Spurious cv) p s Ho) as (s1 & Hs1 & Ho1 & Ha1); [done|].
      destruct (IH s1 offers Ho1 Hc) as (s' & Hrun & Ho' & Ha'); [by rewrite Ha1|].
      exists s'. cbn [run_system]. rewrite Hs1. split; [exact Hrun|].
      split; [exact Ho'|]. by rewrite Ha', Ha1.
Qed.

(** After [thread_pool_init] and a [thread_pool_start] in which every
    [CreateThread] succeeds the pool is open. *)
Lemma started_open mem created t0 p0 :
  Z.of_nat (length (queue mem)) = C ->
  length (worker_threads mem) = W ->
  (forall i, (i < W)%nat -> created i = true) ->
  exists s,
    step C W (Call t0 (CallStart created)) p0 (boot mem) = Some s /\
    open_pool s /\ jobs_accepted s = [] /\
    trace s = [Ret t0 (CallStart created) (VBool true)].
Proof.
  intros Hq Hlen Hok.
  destruct (start_workers_ok created W 0 (boot mem)) as
    (s0 & Hrun & Hth & Hnew & _ & Hl & _ & _ & _ & _ & Hsd & Hfr & Hld
       & Hne & Hnf & Hb & Htr); [done|simpl; lia|intros j Hj; apply Hok; lia|].
  assert (Hs : step C W (Call t0 (CallStart created)) p0 (boot mem)
               = Some (log (Ret t0 (CallStart created) (VBool true))
                         (with_blocked (delete t0 (blocked s0)) s0))).
  { simpl. rewrite lookup_empty. unfold thread_pool_start. by rewrite Hrun. }
  eexists. split; [exact Hs|].
  destruct (pool_inv_started C W mem created t0 p0 _ Hlen Hok Hs) as (Hp & Hfr' & Ha).
  split; [|split; [exact Ha|simpl; by rewrite Htr]].
  split; try done.
  - eapply inv_step; [exact size_ok| |exact Hs]. by apply inv_boot.
  - simpl. rewrite Hb. simpl. apply delete_empty.
Qed.

(** A client that starts the pool, offers work and shuts the pool down:
    [thread_pool_demo].  Whatever happens between its calls, every
    offer is accepted, and after the call of [thread_pool_shutdown] the
    workers run every accepted item before the call returns. *)
Lemma program_runs mem created t0 p0 sched offers :
  Z.of_nat (length (queue mem)) = C ->
  length (worker_threads mem) = W -> W <> 0%nat ->
  (forall i, (i < W)%nat -> created i = true) ->
  calls_of sched = map offer offers ->
  Z.of_nat (length offers) <= C ->
  exists s,
    run_system C W ((Call t0 (CallStart created), p0) :: sched) (boot mem)
    = Some s /\
    jobs_accepted s = map snd offers /\
    exists sched' s',
      worker_steps sched' /\
      run_system C W
        ((Call t0 (CallShutdown PoolPtr), 0%nat) :: sched'
           ++ [(Resume t0, 0%nat)]) s = Some s' /\
      last (trace s') = Some (Ret t0 (CallShutdown PoolPtr) VVoid) /\
      freed s' = true /\
      Forall (fun th => pc th = Exited) (threads s') /\
      jobs_executed s' ≡ₚ map snd offers.
Proof.
  intros Hq Hlen HW Hok Hc Hn.
  destruct (started_open mem created t0 p0 Hq Hlen Hok) as (s0 & Hs0 & Ho0 & Ha0 & _).
  destruct (offers_accepted sched s0 offers Ho0 Hc) as (s & Hrun & Ho & Ha).
  { rewrite Ha0. simpl. lia. }
  rewrite Ha0 in Ha. simpl in Ha.
  exists s. split; [cbn [run_system]; by rewrite Hs0|]. split; [exact Ha|].
  destruct Ho as [Hinv Hp Hfr Hsd Hb].
  destruct (shutdown_completes_from C W size_ok s t0 Hinv Hp Hfr)
    as (sched' & s' & Hw & Hrun' & Hfr' & Hld' & Hlast & Hacc & Hall & Hex).
  { by rewrite Hb, lookup_empty. }
  exists sched', s'. split_and!; try done.
  rewrite (Hex HW), Hacc, Ha. done.
Qed.

End Program.
End PoolProgram.

(** * producer_consumer.c: the threads around the buffer

    [producer_consumer_main] initialises the buffer, creates the producer
    and the consumer threads, waits until all of them have ended and
    deletes the mutex.  The system below starts when the threads exist
    (the paths on which a [CreateThread] fails end the process) and
    follows the loop counter of each thread, the threads asleep on the
    two condition variables, and what went into and came out of the
    buffer. *)

Module PCThreads.
Import ProducerConsumer.

(** The threads by their index in [producers[]] and [consumers[]]. *)
Inductive thread := ProducerT (k : nat) | ConsumerT (k : nat).

#[global] Instance pc_thread_eq_dec : EqDecision thread.
Proof. solve_decision. Defined.

Inductive io :=
  | Put (k : nat) (item : Z)    (* [buffer_insert(item)] returned in producer k *)
  | Got (k : nat) (item : Z).   (* [buffer_remove()] returned item in consumer k *)

Record system := {
  shared : bounded_buffer_t;      (* the global [buffer] *)
  mutex_deleted : bool;           (* [cleanup_buffer] was called *)
  producer_i : list Z;            (* the [i] of each producer thread *)
  consumer_i : list Z;            (* the [i] of each consumer thread *)
  asleep_not_full : list thread;
  asleep_not_empty : list thread;
  main_returned : bool;
  trace : list io
}.

Definition with_shared (b : bounded_buffer_t) (s : system) : system :=
  {| shared := b; mutex_deleted := mutex_deleted s;
     producer_i := producer_i s; consumer_i := consumer_i s;
     asleep_not_full := asleep_not_full s;
     asleep_not_empty := asleep_not_empty s;
     main_returned := main_returned s; trace := trace s |}.

Definition with_producer_i (l : list Z) (s : system) : system :=
  {| shared := shared s; mutex_deleted := mutex_deleted s;
     producer_i := l; consumer_i := consumer_i s;
     asleep_not_full := asleep_not_full s;
     asleep_not_empty := asleep_not_empty s;
     main_returned := main_returned s; trace := trace s |}.

Definition with_consumer_i (l : list Z) (s : system) : system :=
  {| shared := shared s; mutex_deleted := mutex_deleted s;
     producer_i := producer_i s; consumer_i := l;
     asleep_not_full := asleep_not_full s;
     asleep_not_empty := asleep_not_empty s;
     main_returned := main_returned s; trace := trace s |}.

Definition log (e : io) (s : system) : system :=
  {| shared := shared s; mutex_deleted := mutex_deleted s;
     producer_i := producer_i s; consumer_i := consumer_i s;
     asleep_not_full := asleep_not_full s;
     asleep_not_empty := asleep_not_empty s;
     main_returned := main_returned s; trace := trace s ++ [e] |}.

Definition sleepers (cv : condvar) (s : system) : list thread :=
  match cv with
  | not_full => asleep_not_full s
  | not_empty => asleep_not_empty s
  end.

Definition with_sleepers (cv : condvar) (l : list thread) (s : system)
  : system :=
  match cv with
  | not_full =>
      {| shared := shared s; mutex_deleted := mutex_deleted s;
         producer_i := producer_i s; consumer_i := consumer_i s;
         asleep_not_full := l;
         asleep_not_empty := asleep_not_empty s;
         main_returned := main_returned s; trace := trace s |}
  | not_empty =>
      {| shared := shared s; mutex_deleted := mutex_deleted s;
         producer_i := producer_i s; consumer_i := consumer_i s;
         asleep_not_full := asleep_not_full s;
         asleep_not_empty := l;
         main_returned := main_returned s; trace := trace s |}
  end.

Definition is_asleep (th : thread) (s : system) : bool :=
  bool_decide (th ∈ asleep_not_full s ++ asleep_not_empty s).

(** [WakeConditionVariable]: one sleeper leaves, if there is one; the
    system chooses which ([pick]). *)
Definition wake_one (pick : nat) (l : list thread) : list thread :=
  match l with
  | [] => []
  | _ :: _ => delete (pick `mod` length l)%nat l
  end.

Definition apply_wake (pick : nat) (w : wake condvar) (s : system) : system :=
  match w with
  | WakeConditionVariable cv =>
      with_sleepers cv (wake_one pick (sleepers cv s)) s
  | WakeAllConditionVariable cv => with_sleepers cv [] s
  end.

(** A thread takes [buffer.mutex] and runs the pass [p]: [None] is
    undefined behaviour, otherwise the result of the pass, or no result
    when the thread went to sleep. *)
Definition critical_section {R} (me : thread) (pick : nat)
    (p : bounded_buffer_t -> pass condvar bounded_buffer_t R) (s : system)
  : option (option R * system) :=
  if mutex_deleted s then None
  else
    match p (shared s) with
    | Undefined => None
    | Sleep cv b' =>
        let s' := with_shared b' s in
        Some (None, with_sleepers cv (sleepers cv s' ++ [me]) s')
    | Done r ws b' =>
        Some (Some r,
              foldl (fun s w => apply_wake pick w s) (with_shared b' s) ws)
    end.

(** [producer_ids[k] = k + 1], and the item of turn [i]:
    [(id * 100) + i]. *)
Definition thread_id (k : nat) : Z := CInt.wrap (Z.of_nat k + 1).

Definition item_of (id i : Z) : Z := CInt.wrap (CInt.wrap (id * 100) + i).

Section Threads.
Variable BUFFER_SIZE : Z.
Variable ITEMS_PER_PRODUCER : Z.
Variable ITEMS_PER_CONSUMER : Z.
Variable NUM_PRODUCERS : nat.
Variable NUM_CONSUMERS : nat.

(** The system when [init_buffer] has run on the buffer [b] and the
    threads have been created. *)
Definition boot (b : bounded_buffer_t) : system :=
  {| shared := init_buffer b; mutex_deleted := false;
     producer_i := replicate NUM_PRODUCERS 0;
     consumer_i := replicate NUM_CONSUMERS 0;
     asleep_not_full := []; asleep_not_empty := [];
     main_returned := false; trace := [] |}.

(** One step of the thread [producers[k]]: a pass of [buffer_insert] in
    turn [i] of the loop, or nothing when the thread has returned or is
    asleep. *)
Definition pc_producer_thread (k pick : nat) (s : system) : option system :=
  match producer_i s !! k with
  | None => Some s
  | Some i =>
      if negb (i <? ITEMS_PER_PRODUCER) then Some s
      else if is_asleep (ProducerT k) s then Some s
      else
        let item := item_of (thread_id k) i in
        match critical_section (ProducerT k) pick
                (buffer_insert BUFFER_SIZE item) s with
        | None => None
        | Some (None, s') => Some s'
        | Some (Some _, s') =>
            Some (log (Put k item)
                    (with_producer_i (<[k := CInt.incr i]> (producer_i s')) s'))
        end
  end.

Definition pc_consumer_thread (k pick : nat) (s : system) : option system :=
  match consumer_i s !! k with
  | None => Some s
  | Some i =>
      if negb (i <? ITEMS_PER_CONSUMER) then Some s
      else if is_asleep (ConsumerT k) s then Some s
      else
        match critical_section (ConsumerT k) pick
                (buffer_remove BUFFER_SIZE) s with
        | None => None
        | Some (None, s') => Some s'
        | Some (Some item, s') =>
            Some (log (Got k item)
                    (with_consumer_i (<[k := CInt.incr i]> (consumer_i s')) s'))
        end
  end.

(** Every thread has left its loop. *)
Definition all_returned (s : system) : Prop :=
  Forall (fun i => ~ i < ITEMS_PER_PRODUCER) (producer_i s) /\
  Forall (fun i => ~ i < ITEMS_PER_CONSUMER) (consumer_i s).

#[global] Instance all_returned_dec s : Decision (all_returned s).
Proof. unfold all_returned. apply _. Defined.

Definition cleanup_buffer (s : system) : option system :=
  if mutex_deleted s then None
  else
    Some {| shared := shared s; mutex_deleted := true;
            producer_i := producer_i s; consumer_i := consumer_i s;
            asleep_not_full := asleep_not_full s;
            asleep_not_empty := asleep_not_empty s;
            main_returned := main_returned s; trace := trace s |}.

(** One step of [producer_consumer_main] after the threads were
    created: [WaitForMultipleObjects] returns when all threads have
    ended, then the handles are closed, [cleanup_buffer] runs and the
    function returns. *)
Definition producer_consumer_main (s : system) : option system :=
  if main_returned s then Some s
  else if decide (all_returned s) then
    match cleanup_buffer s with
    | None => None
    | Some s' =>
        Some {| shared := shared s'; mutex_deleted := mutex_deleted s';
                producer_i := producer_i s'; consumer_i := consumer_i s';
                asleep_not_full := asleep_not_full s';
                asleep_not_empty := asleep_not_empty s';
                main_returned := true; trace := trace s' |}
    end
  else Some s.

Inductive action :=
  | RunProducer (k : nat)
  | RunConsumer (k : nat)
  | RunMain
  | Spurious (cv : condvar).

Definition step (a : action) (pick : nat) (s : system) : option system :=
  match a with
  | RunProducer k => pc_producer_thread k pick s
  | RunConsumer k => pc_consumer_thread k pick s
  | RunMain => producer_consumer_main s
  | Spurious cv => Some (apply_wake pick (WakeConditionVariable cv) s)
  end.

Fixpoint run_system (sched : list (action * nat)) (s : system)
  : option system :=
  match sched with
  | [] => Some s
  | (a, pick) :: sched' =>
      match step a pick s with
      | None => None
      | Some s' => run_system sched' s'
      end
  end.

(** What went into the buffer and what came out, in order; and the same
    for one thread. *)
Definition puts (tr : list io) : list Z :=
  omap (fun e => match e with Put _ x => Some x | _ => None end) tr.

Definition gots (tr : list io) : list Z :=
  omap (fun e => match e with Got _ x => Some x | _ => None end) tr.

Definition puts_of (k : nat) (tr : list io) : list Z :=
  omap (fun e => match e with
                 | Put k' x => if decide (k' = k) then Some x else None
                 | _ => None
                 end) tr.

Definition gots_of (k : nat) (tr : list io) : list Z :=
  omap (fun e => match e with
                 | Got k' x => if decide (k' = k) then Some x else None
                 | _ => None
                 end) tr.

End Threads.
End PCThreads.

(** ** Facts about the threads of producer_consumer.c *)

Module PCFacts.
Import ProducerConsumer PCThreads.

(** *** Sums that change in one place *)

Lemma sum_list_with_ext (f g : nat -> nat) l :
  (forall j, j ∈ l -> f j = g j) -> sum_list_with f l = sum_list_with g l.
Proof.
  induction l as [|x l IH]; intros H; simpl; [done|].
  rewrite (H x) by by left. rewrite IH; [done|].
  intros j Hj. apply H. by right.
Qed.

Lemma sum_list_with_change (f g : nat -> nat) l k :
  NoDup l -> k ∈ l -> (forall j, j ∈ l -> j <> k -> f j = g j) ->
  (sum_list_with f l + g k = sum_list_with g l + f k)%nat.
Proof.
  induction l as [|x l IH]; intros Hnd Hk H; [by apply elem_of_nil in Hk|].
  apply NoDup_cons in Hnd as [Hx Hnd]. simpl.
  destruct (decide (x = k)) as [->|Hne].
  - rewrite (sum_list_with_ext f g l); [lia|].
    intros j Hj. apply H; [by right|]. intros ->. done.
  - apply elem_of_cons in Hk as [->|Hk]; [done|].
    rewrite (H x) by (done || by left).
    assert (H' : forall j, j ∈ l -> j <> k -> f j = g j)
      by (intros j Hj; apply H; by right).
    specialize (IH Hnd Hk H'). lia.
Qed.

Lemma sum_list_with_zero (f : nat -> nat) l k :
  sum_list_with f l = 0%nat -> k ∈ l -> f k = 0%nat.
Proof.
  induction l as [|x l IH]; simpl; intros Hs Hk; [by apply elem_of_nil in Hk|].
  apply elem_of_cons in Hk as [->|Hk]; [lia|]. apply IH; [lia|done].
Qed.

Lemma sum_list_with_pos (f : nat -> nat) l :
  sum_list_with f l <> 0%nat -> exists k, k ∈ l /\ f k <> 0%nat.
Proof.
  induction l as [|x l IH]; simpl; intros Hs; [done|].
  destruct (decide (f x = 0%nat)) as [E|E].
  - destruct IH as (k & Hk & Hf); [lia|]. exists k. split; [by right|done].
  - exists x. split; [by left|done].
Qed.

(** *** Waking one sleeper *)

Lemma pc_wake_one_subset pick l x : x ∈ wake_one pick l -> x ∈ l.
Proof.
  destruct l as [|y l]; [done|]. unfold wake_one.
  apply list_elem_of_delete_inv.
Qed.

Lemma pc_wake_one_NoDup pick l : NoDup l -> NoDup (wake_one pick l).
Proof.
  destruct l as [|y l]; [done|]. unfold wake_one.
  intros H. eapply sublist_NoDup; [exact H|]. apply sublist_delete.
Qed.

(** From a list without duplicates exactly one sleeper leaves. *)
Lemma pc_wake_one_split pick l :
  l <> [] -> NoDup l ->
  exists x, x ∈ l /\ (x ∉ wake_one pick l) /\
    forall y, y <> x -> (y ∈ wake_one pick l <-> y ∈ l).
Proof.
  intros Hne Hnd. destruct l as [|y0 l0]; [done|].
  unfold wake_one. set (l := y0 :: l0) in *.
  assert (Hi : (Nat.modulo pick (length l) < length l)%nat)
    by (apply Nat.mod_upper_bound; done).
  destruct (lookup_lt_is_Some_2 l _ Hi) as [x Hx].
  exists x. split; [by eapply list_elem_of_lookup_2|].
  rewrite delete_take_drop.
  pose proof (take_drop_middle l _ x Hx) as Hl.
  rewrite <- Hl in Hnd.
  apply NoDup_app in Hnd as (_ & Hd & Hnd2).
  apply NoDup_cons in Hnd2 as [Hx2 _].
  split.
  - intros [H|H]%elem_of_app; [|done]. apply (Hd x H). by left.
  - intros y Hy.
    assert (Hy' : y ∈ l <-> y ∈ take (pick `mod` length l) l
                              ++ x :: drop (S (pick `mod` length l)) l)
      by (by rewrite Hl).
    rewrite Hy', !elem_of_app, elem_of_cons. tauto.
Qed.

(** *** Threads that can run

    A thread can run when it has turns left and is not asleep. *)

Section Count.
Variable mk : nat -> thread.
Hypothesis mk_inj : forall j k, mk j = mk k -> j = k.
Variable limit : Z.

Definition runnable (cs : list Z) (asleep : list thread) (k : nat) : bool :=
  match cs !! k with
  | Some i => (i <? limit) && bool_decide (mk k ∉ asleep)
  | None => false
  end.

Definition awake (cs : list Z) (asleep : list thread) : nat :=
  sum_list_with (fun k => Nat.b2n (runnable cs asleep k)) (seq 0 (length cs)).

(** The turns that are left. *)
Definition remaining (cs : list Z) : nat :=
  sum_list_with (fun i => Z.to_nat (limit - i)) cs.

Lemma runnable_true cs asleep k i :
  cs !! k = Some i -> i < limit -> mk k ∉ asleep ->
  runnable cs asleep k = true.
Proof.
  intros Hk Hi Ha. unfold runnable. rewrite Hk.
  rewrite (proj2 (Z.ltb_lt _ _) Hi). simpl. by apply bool_decide_eq_true.
Qed.

Lemma runnable_asleep cs asleep k :
  mk k ∈ asleep -> runnable cs asleep k = false.
Proof.
  intros Ha. unfold runnable. destruct (cs !! k); [|done].
  rewrite andb_false_intro2; [done|]. apply bool_decide_eq_false. tauto.
Qed.

Lemma runnable_inv cs asleep k :
  runnable cs asleep k = true ->
  exists i, cs !! k = Some i /\ i < limit /\ mk k ∉ asleep.
Proof.
  unfold runnable. destruct (cs !! k) as [i|]; [|done].
  intros [H1 H2]%andb_true_iff. exists i.
  apply Z.ltb_lt in H1. apply bool_decide_eq_true in H2. done.
Qed.

Lemma awake_sleep cs asleep k i :
  cs !! k = Some i -> i < limit -> mk k ∉ asleep ->
  (awake cs (asleep ++ [mk k]) + 1 = awake cs asleep)%nat.
Proof.
  intros Hk Hi Ha. unfold awake.
  pose proof (sum_list_with_change
    (fun j => Nat.b2n (runnable cs (asleep ++ [mk k]) j))
    (fun j => Nat.b2n (runnable cs asleep j))
    (seq 0 (length cs)) k) as H.
  assert (H1 : NoDup (seq 0 (length cs))) by (apply NoDup_seq).
  assert (H2 : k ∈ seq 0 (length cs)) by (apply elem_of_seq; apply lookup_lt_Some in Hk; lia).
  specialize (H H1 H2). clear H1 H2.
  match type of H with (?P -> _) => assert (H3 : P) end.
  { intros j _ Hj. f_equal. unfold runnable.
    destruct (cs !! j); [|done]. f_equal. apply bool_decide_ext.
    rewrite elem_of_app, list_elem_of_singleton.
    split; [tauto|]. intros Hn [H'|H']; [done|]. apply Hj. by apply mk_inj. }
  specialize (H H3). clear H3. cbv beta in H.
  rewrite (runnable_true cs asleep k i) in H by done.
  rewrite runnable_asleep in H.
  - simpl in H. lia.
  - apply elem_of_app. right. by apply list_elem_of_singleton.
Qed.

Lemma awake_wake pick cs asleep :
  NoDup asleep -> asleep <> [] ->
  (forall x, x ∈ asleep -> exists k i, x = mk k /\ cs !! k = Some i /\ i < limit) ->
  awake cs (wake_one pick asleep) = S (awake cs asleep).
Proof.
  intros Hnd Hne Hall.
  destruct (pc_wake_one_split pick asleep Hne Hnd) as (x & Hx & Hnx & Hrest).
  destruct (Hall x Hx) as (k & i & -> & Hk & Hi).
  unfold awake.
  pose proof (sum_list_with_change
    (fun j => Nat.b2n (runnable cs (wake_one pick asleep) j))
    (fun j => Nat.b2n (runnable cs asleep j))
    (seq 0 (length cs)) k) as H.
  assert (H1 : NoDup (seq 0 (length cs))) by (apply NoDup_seq).
  assert (H2 : k ∈ seq 0 (length cs)) by (apply elem_of_seq; apply lookup_lt_Some in Hk; lia).
  specialize (H H1 H2). clear H1 H2.
  match type of H with (?P -> _) => assert (H3 : P) end.
  { intros j _ Hj. f_equal. unfold runnable.
    destruct (cs !! j); [|done]. f_equal. apply bool_decide_ext.
    assert (Hr : mk j <> mk k) by (intros E; apply Hj; by apply mk_inj).
    pose proof (Hrest (mk j) Hr). tauto. }
  specialize (H H3). clear H3. cbv beta in H.
  rewrite (runnable_true cs (wake_one pick asleep) k i) in H by done.
  rewrite (runnable_asleep cs asleep k) in H by done.
  simpl in H. lia.
Qed.

Lemma awake_advance cs asleep k i i' :
  cs !! k = Some i -> i < limit -> mk k ∉ asleep ->
  (awake (<[k := i']> cs) asleep + 1
   = awake cs asleep + Nat.b2n (Z.ltb i' limit))%nat.
Proof.
  intros Hk Hi Ha. unfold awake. rewrite length_insert.
  pose proof (lookup_lt_Some _ _ _ Hk) as Hlt.
  pose proof (sum_list_with_change
    (fun j => Nat.b2n (runnable (<[k := i']> cs) asleep j))
    (fun j => Nat.b2n (runnable cs asleep j))
    (seq 0 (length cs)) k) as H.
  assert (H1 : NoDup (seq 0 (length cs))) by (apply NoDup_seq).
  assert (H2 : k ∈ seq 0 (length cs)) by (apply elem_of_seq; lia).
  specialize (H H1 H2). clear H1 H2.
  match type of H with (?P -> _) => assert (H3 : P) end.
  { intros j _ Hj. f_equal. unfold runnable.
    by rewrite list_lookup_insert_ne. }
  specialize (H H3). clear H3. cbv beta in H.
  rewrite (runnable_true cs asleep k i) in H by done.
  assert (Hf : runnable (<[k := i']> cs) asleep k = (i' <? limit)).
  { unfold runnable. rewrite list_lookup_insert_eq by done.
    rewrite (bool_decide_eq_true_2 _ Ha). apply andb_true_r. }
  rewrite Hf in H. simpl in H. lia.
Qed.

Lemma awake_zero cs asleep k i :
  awake cs asleep = 0%nat -> cs !! k = Some i -> i < limit -> mk k ∈ asleep.
Proof.
  intros Hz Hk Hi. destruct (decide (mk k ∈ asleep)) as [|Hn]; [done|].
  assert (Hin : k ∈ seq 0 (length cs))
    by (apply elem_of_seq; apply lookup_lt_Some in Hk; lia).
  pose proof (sum_list_with_zero _ _ k Hz Hin) as H. cbv beta in H.
  by rewrite (runnable_true cs asleep k i) in H.
Qed.

Lemma awake_pos cs asleep :
  awake cs asleep <> 0%nat ->
  exists k i, cs !! k = Some i /\ i < limit /\ mk k ∉ asleep.
Proof.
  intros H. apply sum_list_with_pos in H as (k & _ & Hk).
  destruct (runnable cs asleep k) eqn:E; [|done].
  apply runnable_inv in E as (i & ? & ? & ?). by exists k, i.
Qed.

Lemma remaining_advance cs k i :
  cs !! k = Some i -> i < limit ->
  S (remaining (<[k := i + 1]> cs)) = remaining cs.
Proof.
  unfold remaining. revert k. induction cs as [|x cs IH]; intros k Hk Hi; [done|].
  destruct k as [|k]; simpl in *.
  - injection Hk as ->. lia.
  - rewrite <- (IH k Hk Hi). lia.
Qed.

Lemma remaining_zero cs :
  remaining cs = 0%nat <-> Forall (fun i => ~ i < limit) cs.
Proof.
  unfold remaining. induction cs as [|x cs IH]; simpl.
  - split; [by constructor|done].
  - rewrite Forall_cons, <- IH. lia.
Qed.

Lemma remaining_replicate n :
  0 <= limit ->
  Z.of_nat (remaining (replicate n 0)) = Z.of_nat n * limit.
Proof.
  intros Hl. unfold remaining. induction n as [|n IH]; [done|].
  cbn [replicate sum_list_with]. rewrite Nat2Z.inj_add, IH. lia.
Qed.

Lemma remaining_pos cs :
  remaining cs <> 0%nat -> exists k i, cs !! k = Some i /\ i < limit.
Proof.
  unfold remaining. induction cs as [|x cs IH]; simpl; [done|].
  intros H. destruct (decide (x < limit)) as [Hx|Hx].
  - by exists 0%nat, x.
  - destruct IH as (k & i & Hk & Hi); [lia|]. by exists (S k), i.
Qed.

End Count.

(** *** What one step does *)

Section Safety.
Variable BUFFER_SIZE : Z.
Variable ITEMS_PER_PRODUCER : Z.
Variable ITEMS_PER_CONSUMER : Z.
Variable NUM_PRODUCERS : nat.
Variable NUM_CONSUMERS : nat.
Hypothesis size_ok : 0 < BUFFER_SIZE <= CInt.INT_MAX.
Hypothesis producer_ok : 0 <= ITEMS_PER_PRODUCER <= CInt.INT_MAX.
Hypothesis consumer_ok : 0 <= ITEMS_PER_CONSUMER <= CInt.INT_MAX.

Definition delete_mutex (s : system) : system :=
  {| shared := shared s; mutex_deleted := true;
     producer_i := producer_i s; consumer_i := consumer_i s;
     asleep_not_full := asleep_not_full s;
     asleep_not_empty := asleep_not_empty s;
     main_returned := true; trace := trace s |}.

(** The ways a step changes the system: not at all; a producer goes to
    sleep on a full buffer or puts its item in; a consumer goes to sleep
    on an empty buffer or takes the oldest item; a sleeper wakes; the main
    thread cleans up. *)
Inductive moved (s : system) : system -> Prop :=
  | moved_not : moved s s
  | moved_sleep_full k i :
      producer_i s !! k = Some i -> 0 <= i < ITEMS_PER_PRODUCER ->
      ProducerT k ∉ asleep_not_full s ->
      mutex_deleted s = false ->
      count (shared s) = BUFFER_SIZE ->
      moved s (with_sleepers not_full (asleep_not_full s ++ [ProducerT k]) s)
  | moved_put k i pick b' :
      producer_i s !! k = Some i -> 0 <= i < ITEMS_PER_PRODUCER ->
      ProducerT k ∉ asleep_not_full s ->
      mutex_deleted s = false ->
      count (shared s) < BUFFER_SIZE ->
      wf BUFFER_SIZE b' -> count b' = count (shared s) + 1 ->
      contents BUFFER_SIZE b'
      = contents BUFFER_SIZE (shared s) ++ [item_of (thread_id k) i] ->
      moved s
        (log (Put k (item_of (thread_id k) i))
           (with_producer_i (<[k := i + 1]> (producer_i s))
              (with_sleepers not_empty (wake_one pick (asleep_not_empty s))
                 (with_shared b' s))))
  | moved_sleep_empty k i :
      consumer_i s !! k = Some i -> 0 <= i < ITEMS_PER_CONSUMER ->
      ConsumerT k ∉ asleep_not_empty s ->
      mutex_deleted s = false ->
      count (shared s) = 0 ->
      moved s (with_sleepers not_empty (asleep_not_empty s ++ [ConsumerT k]) s)
  | moved_got k i pick item b' :
      consumer_i s !! k = Some i -> 0 <= i < ITEMS_PER_CONSUMER ->
      ConsumerT k ∉ asleep_not_empty s ->
      mutex_deleted s = false ->
      0 < count (shared s) ->
      wf BUFFER_SIZE b' -> count b' = count (shared s) - 1 ->
      contents BUFFER_SIZE (shared s) = item :: contents BUFFER_SIZE b' ->
      moved s
        (log (Got k item)
           (with_consumer_i (<[k := i + 1]> (consumer_i s))
              (with_sleepers not_full (wake_one pick (asleep_not_full s))
                 (with_shared b' s))))
  | moved_wake cv pick :
      moved s (apply_wake pick (WakeConditionVariable cv) s)
  | moved_main :
      main_returned s = false -> mutex_deleted s = false ->
      all_returned ITEMS_PER_PRODUCER ITEMS_PER_CONSUMER s ->
      moved s (delete_mutex s).

(** What holds in every state of the system. *)
Record safe (s : system) : Prop := {
  safe_wf : wf BUFFER_SIZE (shared s);
  safe_fifo :
    puts (trace s) = gots (trace s) ++ contents BUFFER_SIZE (shared s);
  safe_prod :
    forall k i, producer_i s !! k = Some i -> 0 <= i <= ITEMS_PER_PRODUCER;
  safe_cons :
    forall k i, consumer_i s !! k = Some i -> 0 <= i <= ITEMS_PER_CONSUMER;
  safe_np : length (producer_i s) = NUM_PRODUCERS;
  safe_nc : length (consumer_i s) = NUM_CONSUMERS;
  safe_deleted :
    mutex_deleted s = true ->
    all_returned ITEMS_PER_PRODUCER ITEMS_PER_CONSUMER s;
  safe_main : main_returned s = mutex_deleted s;
  safe_nf :
    forall x, x ∈ asleep_not_full s ->
      exists k i, x = ProducerT k /\ producer_i s !! k = Some i /\
                  i < ITEMS_PER_PRODUCER;
  safe_ne :
    forall x, x ∈ asleep_not_empty s ->
      exists k i, x = ConsumerT k /\ consumer_i s !! k = Some i /\
                  i < ITEMS_PER_CONSUMER;
  safe_nodup_nf : NoDup (asleep_not_full s);
  safe_nodup_ne : NoDup (asleep_not_empty s)
}.

Lemma safe_boot b :
  Z.of_nat (length (buffer b)) = BUFFER_SIZE ->
  safe (boot NUM_PRODUCERS NUM_CONSUMERS b).
Proof.
  intros Hlen. split; simpl; try done.
  - by apply buffer_wf_init.
  - intros k i [-> _]%lookup_replicate. lia.
  - intros k i [-> _]%lookup_replicate. lia.
  - apply length_replicate.
  - apply length_replicate.
  - intros x Hx. by apply elem_of_nil in Hx.
  - intros x Hx. by apply elem_of_nil in Hx.
  - apply NoDup_nil_2.
  - apply NoDup_nil_2.
Qed.

Lemma producer_not_asleep k s :
  safe s -> is_asleep (ProducerT k) s = false <-> ProducerT k ∉ asleep_not_full s.
Proof.
  intros Hs. unfold is_asleep. rewrite bool_decide_eq_false, elem_of_app.
  split; [tauto|]. intros Hn [H|H]; [done|].
  by destruct (safe_ne s Hs _ H) as (k' & i & ? & _).
Qed.

Lemma consumer_not_asleep k s :
  safe s -> is_asleep (ConsumerT k) s = false <-> ConsumerT k ∉ asleep_not_empty s.
Proof.
  intros Hs. unfold is_asleep. rewrite bool_decide_eq_false, elem_of_app.
  split; [tauto|]. intros Hn [H|H]; [|done].
  by destruct (safe_nf s Hs _ H) as (k' & i & ? & _).
Qed.

(** A step of a producer: defined, and one of three. *)
Lemma producer_moved k pick s :
  safe s ->
  exists s', pc_producer_thread BUFFER_SIZE ITEMS_PER_PRODUCER k pick s = Some s' /\
    moved s s'.
Proof.
  intros Hs. unfold pc_producer_thread.
  destruct (producer_i s !! k) as [i|] eqn:Hk;
    [|exists s; split; [done|apply moved_not]].
  destruct (Z.ltb_spec i ITEMS_PER_PRODUCER) as [Hi|Hi]; simpl;
    [|exists s; split; [done|apply moved_not]].
  destruct (is_asleep (ProducerT k) s) eqn:Ha;
    [exists s; split; [done|apply moved_not]|].
  apply (producer_not_asleep k s Hs) in Ha.
  pose proof (safe_prod s Hs k i Hk) as Hr.
  unfold critical_section.
  destruct (mutex_deleted s) eqn:Hd.
  { destruct (safe_deleted s Hs Hd) as [Hall _].
    pose proof (Forall_lookup_1 _ _ _ _ Hall Hk). simpl in *. lia. }
  destruct (buffer_insert_spec BUFFER_SIZE size_ok
              (item_of (thread_id k) i) (shared s) (safe_wf s Hs))
    as [[Hfull ->]|(Hroom & b' & -> & Hwf' & Hc' & Hcont)].
  - eexists. split; [reflexivity|].
    apply (moved_sleep_full s k i); try done. lia.
  - eexists. split; [reflexivity|].
    rewrite CInt.incr_small by (unfold CInt.INT_MIN; lia).
    apply (moved_put s k i pick b'); try done. lia.
Qed.

Lemma consumer_moved k pick s :
  safe s ->
  exists s', pc_consumer_thread BUFFER_SIZE ITEMS_PER_CONSUMER k pick s = Some s' /\
    moved s s'.
Proof.
  intros Hs. unfold pc_consumer_thread.
  destruct (consumer_i s !! k) as [i|] eqn:Hk;
    [|exists s; split; [done|apply moved_not]].
  destruct (Z.ltb_spec i ITEMS_PER_CONSUMER) as [Hi|Hi]; simpl;
    [|exists s; split; [done|apply moved_not]].
  destruct (is_asleep (ConsumerT k) s) eqn:Ha;
    [exists s; split; [done|apply moved_not]|].
  apply (consumer_not_asleep k s Hs) in Ha.
  pose proof (safe_cons s Hs k i Hk) as Hr.
  unfold critical_section.
  destruct (mutex_deleted s) eqn:Hd.
  { destruct (safe_deleted s Hs Hd) as [_ Hall].
    pose proof (Forall_lookup_1 _ _ _ _ Hall Hk). simpl in *. lia. }
  destruct (buffer_remove_spec BUFFER_SIZE size_ok (shared s) (safe_wf s Hs))
    as [[Hempty ->]|(Hsome & item & b' & -> & Hwf' & Hc' & Hcont)].
  - eexists. split; [reflexivity|].
    apply (moved_sleep_empty s k i); try done. lia.
  - eexists. split; [reflexivity|].
    rewrite CInt.incr_small by (unfold CInt.INT_MIN; lia).
    apply (moved_got s k i pick item b'); try done. lia.
Qed.

(** No step of the system is undefined. *)
Lemma step_moved a pick s :
  safe s ->
  exists s',
    step BUFFER_SIZE ITEMS_PER_PRODUCER ITEMS_PER_CONSUMER a pick s = Some s' /\
    moved s s'.
Proof.
  intros Hs. destruct a as [k|k| |cv]; simpl.
  - by apply producer_moved.
  - by apply consumer_moved.
  - unfold producer_consumer_main.
    destruct (main_returned s) eqn:Hm; [exists s; split; [done|apply moved_not]|].
    destruct (decide _) as [Hall|Hall]; [|exists s; split; [done|apply moved_not]].
    unfold cleanup_buffer.
    destruct (mutex_deleted s) eqn:Hd.
    + (* the mutex is deleted only by the main thread *)
      rewrite (safe_main s Hs) in Hm. congruence.
    + eexists. split; [reflexivity|]. by apply moved_main.
  - eexists. split; [reflexivity|]. apply moved_wake.
Qed.

Lemma safe_moved s s' : safe s -> moved s s' -> safe s'.
Proof.
  intros Hs Hm.
  destruct Hs as [Hwf Hfifo Hp Hc Hnp Hnc Hdel Hmain Hnf Hne Hdnf Hdne].
  destruct Hm as [|k i Hk Hi Ha Hd Hfull|k i pick b' Hk Hi Ha Hd Hroom Hwf' Hc' Hcont
                  |k i Hk Hi Ha Hd Hempty|k i pick item b' Hk Hi Ha Hd Hsome Hwf' Hc' Hcont
                  |cv pick|Hm Hd Hall].
  - done.
  - split; simpl; try done.
    + intros x [Hx|Hx]%elem_of_app; [by apply Hnf|].
      apply list_elem_of_singleton in Hx as ->. exists k, i. split_and!; [done..|lia].
    + apply NoDup_app. split; [done|]. split; [|apply NoDup_singleton].
      intros x Hx Hx'. apply list_elem_of_singleton in Hx' as ->. done.
  - split; simpl; try done.
    + unfold puts, gots in *. rewrite !omap_app. simpl.
      rewrite app_nil_r, Hcont, app_assoc, <- Hfifo. done.
    + intros k' i'. destruct (decide (k' = k)) as [->|Hne'].
      * rewrite list_lookup_insert_eq by (by eapply lookup_lt_Some).
        intros [= <-]. lia.
      * rewrite list_lookup_insert_ne by done. apply Hp.
    + by rewrite length_insert.
    + by rewrite Hd.
    + intros x Hx. destruct (Hnf x Hx) as (k' & i' & -> & Hk' & Hi').
      exists k', i'. split; [done|]. split; [|done].
      rewrite list_lookup_insert_ne; [done|]. by intros ->.
    + intros x Hx. apply pc_wake_one_subset in Hx. by apply Hne.
    + by apply pc_wake_one_NoDup.
  - split; simpl; try done.
    + intros x [Hx|Hx]%elem_of_app; [by apply Hne|].
      apply list_elem_of_singleton in Hx as ->. exists k, i. split_and!; [done..|lia].
    + apply NoDup_app. split; [done|]. split; [|apply NoDup_singleton].
      intros x Hx Hx'. apply list_elem_of_singleton in Hx' as ->. done.
  - split; simpl; try done.
    + unfold puts, gots in *. rewrite !omap_app. simpl.
      rewrite app_nil_r, Hfifo, Hcont, <- app_assoc. done.
    + intros k' i'. destruct (decide (k' = k)) as [->|Hne'].
      * rewrite list_lookup_insert_eq by (by eapply lookup_lt_Some).
        intros [= <-]. lia.
      * rewrite list_lookup_insert_ne by done. apply Hc.
    + by rewrite length_insert.
    + by rewrite Hd.
    + intros x Hx. apply pc_wake_one_subset in Hx. by apply Hnf.
    + intros x Hx. destruct (Hne x Hx) as (k' & i' & -> & Hk' & Hi').
      exists k', i'. split; [done|]. split; [|done].
      rewrite list_lookup_insert_ne; [done|]. by intros ->.
    + by apply pc_wake_one_NoDup.
  - destruct cv; split; simpl; try done.
    + intros x Hx. apply pc_wake_one_subset in Hx. by apply Hnf.
    + by apply pc_wake_one_NoDup.
    + intros x Hx. apply pc_wake_one_subset in Hx. by apply Hne.
    + by apply pc_wake_one_NoDup.
  - split; simpl; try done.
Qed.

Lemma safe_step a pick s s' :
  safe s ->
  step BUFFER_SIZE ITEMS_PER_PRODUCER ITEMS_PER_CONSUMER a pick s = Some s' ->
  safe s'.
Proof.
  intros Hs Hstep. destruct (step_moved a pick s Hs) as (s1 & Hs1 & Hm).
  rewrite Hstep in Hs1. injection Hs1 as <-. by eapply safe_moved.
Qed.

(** Every schedule runs, and every state it reaches is safe. *)
Lemma safe_run sched s :
  safe s ->
  exists s',
    run_system BUFFER_SIZE ITEMS_PER_PRODUCER ITEMS_PER_CONSUMER sched s = Some s' /\
    safe s'.
Proof.
  revert s. induction sched as [|[a pick] sched IH]; intros s Hs.
  - by exists s.
  - destruct (step_moved a pick s Hs) as (s1 & Hs1 & Hm).
    destruct (IH s1) as (s' & Hrun & Hs'); [by eapply safe_moved|].
    exists s'. simpl. by rewrite Hs1.
Qed.

(** *** No deadlock *)

Definition awake_producers (s : system) : nat :=
  awake ProducerT ITEMS_PER_PRODUCER (producer_i s) (asleep_not_full s).

Definition awake_consumers (s : system) : nat :=
  awake ConsumerT ITEMS_PER_CONSUMER (consumer_i s) (asleep_not_empty s).

Definition turns_left (s : system) : nat :=
  (remaining ITEMS_PER_PRODUCER (producer_i s)
   + remaining ITEMS_PER_CONSUMER (consumer_i s))%nat.

(** The items that the producers put in beyond those that the consumers
    take out. *)
Definition surplus : Z :=
  Z.of_nat NUM_PRODUCERS * ITEMS_PER_PRODUCER
  - Z.of_nat NUM_CONSUMERS * ITEMS_PER_CONSUMER.

(** While a consumer is asleep there are at least as many consumers awake
    as the buffer has items, and likewise for the producers and the free
    slots: no wake-up call is lost.  And the turns that are left differ by
    what the buffer holds. *)
Record live (s : system) : Prop := {
  live_ne :
    asleep_not_empty s <> [] ->
    count (shared s) <= Z.of_nat (awake_consumers s);
  live_nf :
    asleep_not_full s <> [] ->
    BUFFER_SIZE - count (shared s) <= Z.of_nat (awake_producers s);
  live_balance :
    Z.of_nat (remaining ITEMS_PER_PRODUCER (producer_i s)) + count (shared s)
    = Z.of_nat (remaining ITEMS_PER_CONSUMER (consumer_i s)) + surplus
}.

Lemma live_boot b : live (boot NUM_PRODUCERS NUM_CONSUMERS b).
Proof.
  split; simpl; try done.
  rewrite !remaining_replicate by lia. unfold surplus. lia.
Qed.

Lemma ProducerT_inj j k : ProducerT j = ProducerT k -> j = k.
Proof. by intros [= ->]. Qed.

Lemma ConsumerT_inj j k : ConsumerT j = ConsumerT k -> j = k.
Proof. by intros [= ->]. Qed.

Lemma wake_one_nonempty pick l : wake_one pick l <> [] -> l <> [].
Proof. by destruct l. Qed.

Lemma awake_wake_le mk limit pick cs asleep :
  (forall j k, mk j = mk k -> j = k) ->
  NoDup asleep ->
  (forall x, x ∈ asleep -> exists k i, x = mk k /\ cs !! k = Some i /\ i < limit) ->
  (awake mk limit cs asleep <= awake mk limit cs (wake_one pick asleep)
   <= S (awake mk limit cs asleep))%nat.
Proof.
  intros Hinj Hnd Hall. destruct (decide (asleep = [])) as [->|Hne].
  - simpl. lia.
  - rewrite (awake_wake mk Hinj limit pick cs asleep) by done. lia.
Qed.

Ltac fields :=
  cbn [shared mutex_deleted producer_i consumer_i asleep_not_full
       asleep_not_empty main_returned trace log with_producer_i
       with_consumer_i with_sleepers with_shared apply_wake sleepers
       delete_mutex].

Lemma live_moved s s' : safe s -> live s -> moved s s' -> live s'.
Proof.
  intros Hs [Lne Lnf Lb] Hm.
  pose proof (safe_wf s Hs) as [_ Hcount _ _].
  destruct Hm as [|k i Hk Hi Ha Hd Hfull|k i pick b' Hk Hi Ha Hd Hroom Hwf' Hc' Hcont
                  |k i Hk Hi Ha Hd Hempty|k i pick item b' Hk Hi Ha Hd Hsome Hwf' Hc' Hcont
                  |cv pick|Hm Hd Hall].
  - done.
  - split; fields; try done. intros _. lia.
  - split; unfold awake_producers, awake_consumers in *; fields.
    + intros Hne. apply wake_one_nonempty in Hne.
      rewrite (awake_wake ConsumerT ConsumerT_inj) by
        (done || apply (safe_nodup_ne s Hs) || apply (safe_ne s Hs)).
      specialize (Lne Hne). lia.
    + intros Hne. specialize (Lnf Hne).
      pose proof (awake_advance ProducerT ITEMS_PER_PRODUCER
                    (producer_i s) (asleep_not_full s) k i (i + 1) Hk
                    ltac:(lia) Ha) as H.
      destruct (i + 1 <? ITEMS_PER_PRODUCER); simpl in H; lia.
    + pose proof (remaining_advance ITEMS_PER_PRODUCER (producer_i s) k i Hk
                    ltac:(lia)) as H.
      lia.
  - split; fields; try done. intros _. lia.
  - split; unfold awake_producers, awake_consumers in *; fields.
    + intros Hne. specialize (Lne Hne).
      pose proof (awake_advance ConsumerT ITEMS_PER_CONSUMER
                    (consumer_i s) (asleep_not_empty s) k i (i + 1) Hk
                    ltac:(lia) Ha) as H.
      destruct (i + 1 <? ITEMS_PER_CONSUMER); simpl in H; lia.
    + intros Hne. apply wake_one_nonempty in Hne.
      rewrite (awake_wake ProducerT ProducerT_inj) by
        (done || apply (safe_nodup_nf s Hs) || apply (safe_nf s Hs)).
      specialize (Lnf Hne). lia.
    + pose proof (remaining_advance ITEMS_PER_CONSUMER (consumer_i s) k i Hk
                    ltac:(lia)) as H.
      lia.
  - destruct cv; split; unfold awake_producers, awake_consumers in *;
      fields; try done.
    + intros Hne. apply wake_one_nonempty in Hne.
      rewrite (awake_wake ProducerT ProducerT_inj) by
        (done || apply (safe_nodup_nf s Hs) || apply (safe_nf s Hs)).
      specialize (Lnf Hne). lia.
    + intros Hne. apply wake_one_nonempty in Hne.
      rewrite (awake_wake ConsumerT ConsumerT_inj) by
        (done || apply (safe_nodup_ne s Hs) || apply (safe_ne s Hs)).
      specialize (Lne Hne). lia.
  - split; fields; done.
Qed.

Lemma live_step a pick s s' :
  safe s -> live s ->
  step BUFFER_SIZE ITEMS_PER_PRODUCER ITEMS_PER_CONSUMER a pick s = Some s' ->
  live s'.
Proof.
  intros Hs Hl Hstep. destruct (step_moved a pick s Hs) as (s1 & Hs1 & Hm).
  rewrite Hstep in Hs1. injection Hs1 as <-. by eapply live_moved.
Qed.

Lemma live_run sched s s' :
  safe s -> live s ->
  run_system BUFFER_SIZE ITEMS_PER_PRODUCER ITEMS_PER_CONSUMER sched s = Some s' ->
  live s'.
Proof.
  revert s. induction sched as [|[a pick] sched IH]; intros s Hs Hl; simpl.
  - by intros [= <-].
  - destruct (step _ _ _ a pick s) as [s1|] eqn:Hs1; [|done].
    apply IH; [by eapply safe_step|by eapply live_step].
Qed.

(** The work that is left: two for each turn, one for each thread that
    can run. *)
Definition effort (s : system) : nat :=
  (2 * turns_left s + awake_producers s + awake_consumers s)%nat.

Definition thread_steps (sched : list (action * nat)) : Prop :=
  Forall (fun ap => match ap.1 with
                    | RunProducer _ | RunConsumer _ => True
                    | _ => False
                    end) sched.

Lemma effort_sleep_full s s' k i :
  producer_i s !! k = Some i -> i < ITEMS_PER_PRODUCER ->
  ProducerT k ∉ asleep_not_full s ->
  producer_i s' = producer_i s -> consumer_i s' = consumer_i s ->
  asleep_not_full s' = asleep_not_full s ++ [ProducerT k] ->
  asleep_not_empty s' = asleep_not_empty s ->
  (effort s' < effort s)%nat.
Proof.
  intros Hk Hi Ha E1 E2 E3 E4.
  unfold effort, turns_left, awake_producers, awake_consumers.
  rewrite E1, E2, E3, E4.
  pose proof (awake_sleep ProducerT ProducerT_inj ITEMS_PER_PRODUCER
                (producer_i s) (asleep_not_full s) k i Hk Hi Ha).
  lia.
Qed.

Lemma effort_sleep_empty s s' k i :
  consumer_i s !! k = Some i -> i < ITEMS_PER_CONSUMER ->
  ConsumerT k ∉ asleep_not_empty s ->
  producer_i s' = producer_i s -> consumer_i s' = consumer_i s ->
  asleep_not_full s' = asleep_not_full s ->
  asleep_not_empty s' = asleep_not_empty s ++ [ConsumerT k] ->
  (effort s' < effort s)%nat.
Proof.
  intros Hk Hi Ha E1 E2 E3 E4.
  unfold effort, turns_left, awake_producers, awake_consumers.
  rewrite E1, E2, E3, E4.
  pose proof (awake_sleep ConsumerT ConsumerT_inj ITEMS_PER_CONSUMER
                (consumer_i s) (asleep_not_empty s) k i Hk Hi Ha).
  lia.
Qed.

Lemma effort_put s s' k i pick :
  safe s -> producer_i s !! k = Some i -> 0 <= i < ITEMS_PER_PRODUCER ->
  ProducerT k ∉ asleep_not_full s ->
  producer_i s' = <[k := i + 1]> (producer_i s) ->
  consumer_i s' = consumer_i s ->
  asleep_not_full s' = asleep_not_full s ->
  asleep_not_empty s' = wake_one pick (asleep_not_empty s) ->
  (effort s' < effort s)%nat.
Proof.
  intros Hs Hk Hi Ha E1 E2 E3 E4.
  unfold effort, turns_left, awake_producers, awake_consumers.
  rewrite E1, E2, E3, E4.
  pose proof (awake_advance ProducerT ITEMS_PER_PRODUCER
                (producer_i s) (asleep_not_full s) k i (i + 1) Hk
                ltac:(lia) Ha) as H1.
  pose proof (remaining_advance ITEMS_PER_PRODUCER (producer_i s) k i Hk
                ltac:(lia)) as H2.
  pose proof (awake_wake_le ConsumerT ITEMS_PER_CONSUMER pick (consumer_i s)
                (asleep_not_empty s) ConsumerT_inj (safe_nodup_ne s Hs)
                (safe_ne s Hs)) as H3.
  destruct (i + 1 <? ITEMS_PER_PRODUCER); simpl in H1; lia.
Qed.

Lemma effort_got s s' k i pick :
  safe s -> consumer_i s !! k = Some i -> 0 <= i < ITEMS_PER_CONSUMER ->
  ConsumerT k ∉ asleep_not_empty s ->
  producer_i s' = producer_i s ->
  consumer_i s' = <[k := i + 1]> (consumer_i s) ->
  asleep_not_full s' = wake_one pick (asleep_not_full s) ->
  asleep_not_empty s' = asleep_not_empty s ->
  (effort s' < effort s)%nat.
Proof.
  intros Hs Hk Hi Ha E1 E2 E3 E4.
  unfold effort, turns_left, awake_producers, awake_consumers.
  rewrite E1, E2, E3, E4.
  pose proof (awake_advance ConsumerT ITEMS_PER_CONSUMER
                (consumer_i s) (asleep_not_empty s) k i (i + 1) Hk
                ltac:(lia) Ha) as H1.
  pose proof (remaining_advance ITEMS_PER_CONSUMER (consumer_i s) k i Hk
                ltac:(lia)) as H2.
  pose proof (awake_wake_le ProducerT ITEMS_PER_PRODUCER pick (producer_i s)
                (asleep_not_full s) ProducerT_inj (safe_nodup_nf s Hs)
                (safe_nf s Hs)) as H3.
  destruct (i + 1 <? ITEMS_PER_CONSUMER); simpl in H1; lia.
Qed.

(** A producer that can run does: it puts its item in or goes to
    sleep. *)
Lemma producer_progress k i pick s :
  safe s -> producer_i s !! k = Some i -> i < ITEMS_PER_PRODUCER ->
  ProducerT k ∉ asleep_not_full s ->
  exists s',
    pc_producer_thread BUFFER_SIZE ITEMS_PER_PRODUCER k pick s = Some s' /\
    (effort s' < effort s)%nat /\ mutex_deleted s' = mutex_deleted s /\
    main_returned s' = main_returned s.
Proof.
  intros Hs Hk Hi Ha. unfold pc_producer_thread. rewrite Hk.
  rewrite (proj2 (Z.ltb_lt _ _) Hi). cbn [negb].
  rewrite (proj2 (producer_not_asleep k s Hs) Ha).
  pose proof (safe_prod s Hs k i Hk) as Hr.
  unfold critical_section.
  destruct (mutex_deleted s) eqn:Hd.
  { destruct (safe_deleted s Hs Hd) as [Hall _].
    pose proof (Forall_lookup_1 _ _ _ _ Hall Hk). simpl in *. lia. }
  destruct (buffer_insert_spec BUFFER_SIZE size_ok
              (item_of (thread_id k) i) (shared s) (safe_wf s Hs))
    as [[Hfull ->]|(Hroom & b' & -> & Hwf' & Hc' & Hcont)].
  - eexists. split; [reflexivity|]. split; [|split; [simpl; exact Hd|done]].
    by apply (effort_sleep_full s _ k i).
  - eexists. split; [reflexivity|]. split; [|split; [simpl; exact Hd|done]].
    rewrite CInt.incr_small by (unfold CInt.INT_MIN; lia).
    apply (effort_put s _ k i pick); try done. lia.
Qed.

Lemma consumer_progress k i pick s :
  safe s -> consumer_i s !! k = Some i -> i < ITEMS_PER_CONSUMER ->
  ConsumerT k ∉ asleep_not_empty s ->
  exists s',
    pc_consumer_thread BUFFER_SIZE ITEMS_PER_CONSUMER k pick s = Some s' /\
    (effort s' < effort s)%nat /\ mutex_deleted s' = mutex_deleted s /\
    main_returned s' = main_returned s.
Proof.
  intros Hs Hk Hi Ha. unfold pc_consumer_thread. rewrite Hk.
  rewrite (proj2 (Z.ltb_lt _ _) Hi). cbn [negb].
  rewrite (proj2 (consumer_not_asleep k s Hs) Ha).
  pose proof (safe_cons s Hs k i Hk) as Hr.
  unfold critical_section.
  destruct (mutex_deleted s) eqn:Hd.
  { destruct (safe_deleted s Hs Hd) as [_ Hall].
    pose proof (Forall_lookup_1 _ _ _ _ Hall Hk). simpl in *. lia. }
  destruct (buffer_remove_spec BUFFER_SIZE size_ok (shared s) (safe_wf s Hs))
    as [[Hempty ->]|(Hsome & item & b' & -> & Hwf' & Hc' & Hcont)].
  - eexists. split; [reflexivity|]. split; [|split; [simpl; exact Hd|done]].
    by apply (effort_sleep_empty s _ k i).
  - eexists. split; [reflexivity|]. split; [|split; [simpl; exact Hd|done]].
    rewrite CInt.incr_small by (unfold CInt.INT_MIN; lia).
    apply (effort_got s _ k i pick); try done. lia.
Qed.

(** When the surplus fits into the buffer, some thread can run as long
    as some thread has turns left. *)
Lemma some_thread_awake s :
  safe s -> live s -> 0 <= surplus <= BUFFER_SIZE ->
  ~ all_returned ITEMS_PER_PRODUCER ITEMS_PER_CONSUMER s ->
  awake_producers s <> 0%nat \/ awake_consumers s <> 0%nat.
Proof.
  intros Hs [Lne Lnf Lb] Hbal Hnot.
  pose proof (safe_wf s Hs) as [_ Hcount _ _].
  destruct (decide (awake_producers s = 0%nat)) as [Hp|Hp]; [|by left].
  destruct (decide (awake_consumers s = 0%nat)) as [Hc|Hc]; [|by right].
  exfalso.
  assert (Hasleep : remaining ITEMS_PER_PRODUCER (producer_i s) <> 0%nat ->
                    BUFFER_SIZE - count (shared s) <= 0).
  { intros Hrp. destruct (remaining_pos _ _ Hrp) as (k' & i' & Hk' & Hi').
    pose proof (awake_zero ProducerT ITEMS_PER_PRODUCER _ _ k' i' Hp Hk' Hi')
      as Hin'.
    assert (Hnf : asleep_not_full s <> [])
      by (intros E; rewrite E in Hin'; by apply elem_of_nil in Hin').
    specialize (Lnf Hnf). rewrite Hp in Lnf. exact Lnf. }
  destruct (decide (remaining ITEMS_PER_CONSUMER (consumer_i s) = 0%nat))
    as [Hrc|Hrc].
  - destruct (decide (remaining ITEMS_PER_PRODUCER (producer_i s) = 0%nat))
      as [Hrp|Hrp].
    + apply Hnot. unfold all_returned. by rewrite <- !remaining_zero.
    + specialize (Hasleep Hrp). lia.
  - destruct (remaining_pos _ _ Hrc) as (k & i & Hk & Hi).
    pose proof (awake_zero ConsumerT ITEMS_PER_CONSUMER _ _ k i Hc Hk Hi) as Hin.
    assert (Hne : asleep_not_empty s <> [])
      by (intros E; rewrite E in Hin; by apply elem_of_nil in Hin).
    specialize (Lne Hne). rewrite Hc in Lne.
    assert (Hrp : remaining ITEMS_PER_PRODUCER (producer_i s) <> 0%nat) by lia.
    specialize (Hasleep Hrp). lia.
Qed.

Lemma pc_run_app sched1 sched2 s :
  run_system BUFFER_SIZE ITEMS_PER_PRODUCER ITEMS_PER_CONSUMER
    (sched1 ++ sched2) s
  = match run_system BUFFER_SIZE ITEMS_PER_PRODUCER ITEMS_PER_CONSUMER
            sched1 s with
    | Some s1 =>
        run_system BUFFER_SIZE ITEMS_PER_PRODUCER ITEMS_PER_CONSUMER sched2 s1
    | None => None
    end.
Proof.
  revert s. induction sched1 as [|[a p] sched1 IH]; intros s; simpl; [done|].
  destruct (step _ _ _ a p s); [apply IH|done].
Qed.

(** From every state the threads can run until all of them have left
    their loops: there is no deadlock. *)
Lemma threads_finish n : forall s,
  (effort s <= n)%nat -> safe s -> live s -> 0 <= surplus <= BUFFER_SIZE ->
  exists sched s',
    thread_steps sched /\
    run_system BUFFER_SIZE ITEMS_PER_PRODUCER ITEMS_PER_CONSUMER sched s
    = Some s' /\
    all_returned ITEMS_PER_PRODUCER ITEMS_PER_CONSUMER s' /\
    safe s' /\ live s' /\
    mutex_deleted s' = mutex_deleted s /\ main_returned s' = main_returned s.
Proof.
  induction n as [|n IH]; intros s Hn Hs Hl Hbal.
  all: destruct (decide (all_returned ITEMS_PER_PRODUCER ITEMS_PER_CONSUMER s))
         as [Hall|Hnot];
       [exists [], s; split; [by apply Forall_nil|done]|].
  all: destruct (some_thread_awake s Hs Hl Hbal Hnot) as [Hp|Hc].
  all: try (apply awake_pos in Hp as (k & i & Hk & Hi & Ha);
            destruct (producer_progress k i 0 s Hs Hk Hi Ha)
              as (s1 & Hs1 & He & Hd1 & Hm1)).
  all: try (apply awake_pos in Hc as (k & i & Hk & Hi & Ha);
            destruct (consumer_progress k i 0 s Hs Hk Hi Ha)
              as (s1 & Hs1 & He & Hd1 & Hm1)).
  1,2: lia.
  - destruct (IH s1) as (sched & s' & Hts & Hrun & Hall & Hs' & Hl' & Hd' & Hm');
      [lia|by eapply (safe_step (RunProducer k))
          |by eapply (live_step (RunProducer k))|done|].
    exists ((RunProducer k, 0%nat) :: sched), s'.
    split; [by apply Forall_cons|].
    split; [simpl; by rewrite Hs1|].
    split_and!; try done; congruence.
  - destruct (IH s1) as (sched & s' & Hts & Hrun & Hall & Hs' & Hl' & Hd' & Hm');
      [lia|by eapply (safe_step (RunConsumer k))
          |by eapply (live_step (RunConsumer k))|done|].
    exists ((RunConsumer k, 0%nat) :: sched), s'.
    split; [by apply Forall_cons|].
    split; [simpl; by rewrite Hs1|].
    split_and!; try done; congruence.
Qed.

Lemma counters_at_limit (cs : list Z) limit n :
  length cs = n ->
  (forall k i, cs !! k = Some i -> 0 <= i <= limit) ->
  Forall (fun i => ~ i < limit) cs ->
  cs = replicate n limit.
Proof.
  intros Hlen Hr Hall. apply list_eq. intros k.
  destruct (cs !! k) as [i|] eqn:Hk.
  - pose proof (Hr k i Hk). pose proof (Forall_lookup_1 _ _ _ _ Hall Hk).
    simpl in *. symmetry. apply lookup_replicate. split; [lia|].
    apply lookup_lt_Some in Hk. lia.
  - symmetry. apply lookup_ge_None. rewrite length_replicate.
    apply lookup_ge_None in Hk. lia.
Qed.

(** When every thread has left its loop, each has made all its turns,
    and the buffer holds the surplus. *)
Lemma all_returned_state s :
  safe s -> live s ->
  all_returned ITEMS_PER_PRODUCER ITEMS_PER_CONSUMER s ->
  producer_i s = replicate NUM_PRODUCERS ITEMS_PER_PRODUCER /\
  consumer_i s = replicate NUM_CONSUMERS ITEMS_PER_CONSUMER /\
  count (shared s) = surplus /\
  puts (trace s) = gots (trace s) ++ contents BUFFER_SIZE (shared s).
Proof.
  intros Hs [_ _ Lb] [Hp Hc].
  split; [|split; [|split]].
  - apply counters_at_limit; [apply (safe_np s Hs)|apply (safe_prod s Hs)|done].
  - apply counters_at_limit; [apply (safe_nc s Hs)|apply (safe_cons s Hs)|done].
  - apply remaining_zero in Hp, Hc. rewrite Hp, Hc in Lb. lia.
  - apply (safe_fifo s Hs).
Qed.

(** *** What the items are *)

(** The items of the first [n] turns of the producer [k]. *)
Definition items_of (k : nat) (n : Z) : list Z :=
  map (fun j => item_of (thread_id k) (Z.of_nat j)) (seq 0 (Z.to_nat n)).

(** All items of the demo. *)
Definition all_items : list Z :=
  concat (map (fun k => items_of k ITEMS_PER_PRODUCER) (seq 0 NUM_PRODUCERS)).

Lemma items_of_S k i :
  0 <= i -> items_of k (i + 1) = items_of k i ++ [item_of (thread_id k) i].
Proof.
  intros Hi. unfold items_of.
  replace (Z.to_nat (i + 1)) with (S (Z.to_nat i)) by lia.
  rewrite seq_S, map_app. simpl. by rewrite Z2Nat.id by lia.
Qed.

Lemma puts_of_app k tr1 tr2 :
  puts_of k (tr1 ++ tr2) = puts_of k tr1 ++ puts_of k tr2.
Proof. apply omap_app. Qed.

Lemma gots_of_app k tr1 tr2 :
  gots_of k (tr1 ++ tr2) = gots_of k tr1 ++ gots_of k tr2.
Proof. apply omap_app. Qed.

(** Each producer has put in the items of its turns, in order; each
    consumer has taken out one item per turn. *)
Record vals (s : system) : Prop := {
  vals_puts :
    forall k i, producer_i s !! k = Some i ->
                puts_of k (trace s) = items_of k i;
  vals_none :
    forall k, producer_i s !! k = None -> puts_of k (trace s) = [];
  vals_gots :
    forall k i, consumer_i s !! k = Some i ->
                Z.of_nat (length (gots_of k (trace s))) = i
}.

Lemma vals_boot b : vals (boot NUM_PRODUCERS NUM_CONSUMERS b).
Proof.
  split; simpl; try done.
  - by intros k i [-> _]%lookup_replicate.
  - by intros k i [-> _]%lookup_replicate.
Qed.

Lemma vals_moved s s' : vals s -> moved s s' -> vals s'.
Proof.
  intros [Vp Vn Vg] Hm.
  destruct Hm as [|k i Hk Hi Ha Hd Hfull|k i pick b' Hk Hi Ha Hd Hroom Hwf' Hc' Hcont
                  |k i Hk Hi Ha Hd Hempty|k i pick item b' Hk Hi Ha Hd Hsome Hwf' Hc' Hcont
                  |cv pick|Hm Hd Hall].
  - done.
  - by split.
  - split; fields.
    + intros k' i'. rewrite puts_of_app. cbn.
      destruct (decide (k = k')) as [<-|Hne].
      * rewrite list_lookup_insert_eq by (by eapply lookup_lt_Some).
        intros [= <-]. rewrite items_of_S by lia. by rewrite (Vp k i Hk).
      * rewrite list_lookup_insert_ne by done. rewrite app_nil_r. apply Vp.
    + intros k'. rewrite puts_of_app. cbn.
      destruct (decide (k = k')) as [<-|Hne].
      * rewrite list_lookup_insert_eq by (by eapply lookup_lt_Some). done.
      * rewrite list_lookup_insert_ne by done. rewrite app_nil_r. apply Vn.
    + intros k' i'. rewrite gots_of_app. cbn. rewrite app_nil_r. apply Vg.
  - by split.
  - split; fields.
    + intros k' i'. rewrite puts_of_app. cbn. rewrite app_nil_r. apply Vp.
    + intros k'. rewrite puts_of_app. cbn. rewrite app_nil_r. apply Vn.
    + intros k' i'. rewrite gots_of_app. cbn.
      destruct (decide (k = k')) as [<-|Hne].
      * rewrite list_lookup_insert_eq by (by eapply lookup_lt_Some).
        intros [= <-]. rewrite length_app. simpl.
        rewrite Nat2Z.inj_add, (Vg k i Hk). done.
      * rewrite list_lookup_insert_ne by done. rewrite app_nil_r. apply Vg.
  - by destruct cv; split.
  - by split.
Qed.

Lemma vals_run sched s s' :
  safe s -> vals s ->
  run_system BUFFER_SIZE ITEMS_PER_PRODUCER ITEMS_PER_CONSUMER sched s = Some s' ->
  vals s'.
Proof.
  revert s. induction sched as [|[a pick] sched IH]; intros s Hs Hv; simpl.
  - by intros [= <-].
  - destruct (step_moved a pick s Hs) as (s1 & Hs1 & Hm). rewrite Hs1.
    apply IH; [by eapply safe_moved|by eapply vals_moved].
Qed.

Lemma perm_of_eq {A} (l1 l2 : list A) : l1 = l2 -> l1 ≡ₚ l2.
Proof. by intros ->. Qed.

Lemma concat_cons_one (f : nat -> list Z) l k x :
  NoDup l -> k ∈ l ->
  concat (map (fun j => if decide (k = j) then x :: f j else f j) l)
  ≡ₚ x :: concat (map f l).
Proof.
  induction l as [|a l IH]; intros Hnd Hk; [by apply elem_of_nil in Hk|].
  apply NoDup_cons in Hnd as [Ha Hnd]. simpl.
  destruct (decide (k = a)) as [->|Hne].
  - simpl. apply perm_of_eq. do 3 f_equal.
    apply map_ext_in. intros j Hj%list_elem_of_In.
    destruct (decide (a = j)) as [->|]; done.
  - apply elem_of_cons in Hk as [->|Hk]; [done|].
    rewrite (IH Hnd Hk). by rewrite Permutation_middle.
Qed.

(** What went into the buffer is what the producers put in. *)
Lemma puts_by_producer n tr :
  (forall k, (n <= k)%nat -> puts_of k tr = []) ->
  puts tr ≡ₚ concat (map (fun k => puts_of k tr) (seq 0 n)).
Proof.
  induction tr as [|e tr IH]; intros Hout.
  - simpl. induction (seq 0 n) as [|? ? IH']; [done|exact IH'].
  - destruct e as [k x|k x].
    + assert (Hk : (k < n)%nat).
      { destruct (decide (k < n)%nat) as [|Hge]; [done|].
        specialize (Hout k ltac:(lia)). cbn in Hout.
        by rewrite decide_True in Hout. }
      assert (Hout' : forall j, (n <= j)%nat -> puts_of j tr = []).
      { intros j Hj. specialize (Hout j Hj). cbn in Hout.
        rewrite decide_False in Hout by lia. done. }
      cbn. rewrite (IH Hout').
      rewrite <- (concat_cons_one (fun j => puts_of j tr) (seq 0 n) k x);
        [|apply NoDup_seq|apply elem_of_seq; lia].
      apply perm_of_eq. f_equal. apply map_ext. intros j.
      unfold puts_of at 1. cbn. destruct (decide (k = j)); done.
    + cbn. rewrite IH; [done|]. intros j Hj. apply (Hout j Hj).
Qed.

Lemma puts_all_items s :
  safe s -> vals s ->
  producer_i s = replicate NUM_PRODUCERS ITEMS_PER_PRODUCER ->
  puts (trace s) ≡ₚ all_items.
Proof.
  intros Hs [Vp Vn _] Hp.
  rewrite (puts_by_producer NUM_PRODUCERS).
  - unfold all_items. apply perm_of_eq. f_equal. apply map_ext_in.
    intros k Hk%list_elem_of_In%elem_of_seq. apply Vp. rewrite Hp.
    apply lookup_replicate. split; [done|lia].
  - intros k Hk. apply Vn. apply lookup_ge_None. rewrite (safe_np s Hs). lia.
Qed.

(** [(id * 100) + i] does not overflow in the demo. *)
Lemma item_of_small k i :
  0 <= i -> (Z.of_nat k + 1) * 100 + i <= CInt.INT_MAX ->
  item_of (thread_id k) i = (Z.of_nat k + 1) * 100 + i.
Proof.
  intros Hi Hmax. unfold item_of, thread_id. unfold CInt.INT_MAX in Hmax.
  rewrite (CInt.wrap_small (Z.of_nat k + 1))
    by (unfold CInt.INT_MIN, CInt.INT_MAX; lia).
  rewrite (CInt.wrap_small ((Z.of_nat k + 1) * 100))
    by (unfold CInt.INT_MIN, CInt.INT_MAX; lia).
  apply CInt.wrap_small. unfold CInt.INT_MIN, CInt.INT_MAX. lia.
Qed.

(** *** The whole demo *)

(** When [producer_consumer_main] has returned, every thread has made
    all its turns and the buffer holds the surplus. *)
Lemma main_returned_state s :
  safe s -> live s -> vals s -> main_returned s = true ->
  mutex_deleted s = true /\
  producer_i s = replicate NUM_PRODUCERS ITEMS_PER_PRODUCER /\
  consumer_i s = replicate NUM_CONSUMERS ITEMS_PER_CONSUMER /\
  count (shared s) = surplus /\
  puts (trace s) = gots (trace s) ++ contents BUFFER_SIZE (shared s) /\
  puts (trace s) ≡ₚ all_items /\
  (forall k, (k < NUM_CONSUMERS)%nat ->
     Z.of_nat (length (gots_of k (trace s))) = ITEMS_PER_CONSUMER).
Proof.
  intros Hs Hl Hv Hm.
  assert (Hd : mutex_deleted s = true) by (by rewrite <- (safe_main s Hs)).
  pose proof (safe_deleted s Hs Hd) as Hall.
  destruct (all_returned_state s Hs Hl Hall) as (Hp & Hc & Hcount & Hfifo).
  split_and!; try done.
  - by apply puts_all_items.
  - intros k Hk. apply (vals_gots s Hv). rewrite Hc.
    apply lookup_replicate. done.
Qed.

(** From every state the demo can run to its end. *)
Lemma demo_completes s :
  safe s -> live s -> 0 <= surplus <= BUFFER_SIZE ->
  main_returned s = false ->
  exists sched s',
    thread_steps sched /\
    run_system BUFFER_SIZE ITEMS_PER_PRODUCER ITEMS_PER_CONSUMER
      (sched ++ [(RunMain, 0%nat)]) s = Some s' /\
    safe s' /\ live s' /\ main_returned s' = true.
Proof.
  intros Hs Hl Hbal Hm.
  destruct (threads_finish (effort s) s (le_n _) Hs Hl Hbal)
    as (sched & s1 & Hts & Hrun & Hall & Hs1 & Hl1 & Hd1 & Hm1).
  assert (Hmain : step BUFFER_SIZE ITEMS_PER_PRODUCER ITEMS_PER_CONSUMER
                    RunMain 0 s1 = Some (delete_mutex s1)).
  { simpl. unfold producer_consumer_main. rewrite Hm1, Hm.
    rewrite decide_True by done. unfold cleanup_buffer.
    rewrite <- (safe_main s1 Hs1), Hm1, Hm. done. }
  exists sched, (delete_mutex s1). split; [done|].
  split; [rewrite pc_run_app, Hrun; cbn [run_system]; by rewrite Hmain|].
  split; [by eapply (safe_step RunMain)|].
  split; [by eapply (live_step RunMain)|done].
Qed.

End Safety.

End PCFacts.


(** ** More runs of the demos *)

Module DemoRuns.
Import ThreadPool.

(** The main thread starts the pool, adds three jobs and calls
    [thread_pool_shutdown] before any worker has run. *)
Definition closing : list (action * nat) :=
  Demo.start :: map (Demo.add 0) (seq 0 3) ++ [Demo.close].

(** Later calls: another client offers a job, the workers run, a third
    client starts the pool again. *)
Definition after_closing : list (action * nat) :=
  Demo.add 1 7 :: Demo.workers
    ++ [(Call 3 (CallStart Demo.all_created), 0%nat); Demo.add 1 8].

(** Ten jobs, and each worker has taken one and called it. *)
Definition one_round : list (action * nat) :=
  Demo.start :: map (Demo.add 0) (seq 0 10) ++ Demo.workers ++ Demo.workers.

(** A pool of one worker: five jobs and five steps of the worker. *)
Definition single : list (action * nat) :=
  Demo.start :: map (Demo.add 0) (seq 0 5)
    ++ replicate 5 (RunWorker 0, 0%nat).

Definition run_single (sched : list (action * nat)) : option system :=
  run_system Demo.MAX_QUEUE_SIZE 1 sched (boot Demo.block).

(** Three jobs after the start, no worker has run. *)
Definition three_jobs : list (action * nat) :=
  map (Demo.add 0) (seq 0 3).

(** The third [CreateThread] fails. *)
Definition two_created : nat -> bool := fun i => (i <? 2)%nat.

(** The queue is full: a hundred jobs and no worker has run. *)
Definition full : list (action * nat) :=
  Demo.start :: map (Demo.add 1) (seq 0 100).

(** The queue is full and client [2] waits for space. *)
Definition waiting_pusher : list (action * nat) :=
  full ++ [Demo.add 2 100].

(** The queue is full and client [3] waits for space. *)
Definition crowded : list (action * nat) :=
  full ++ [Demo.add 3 200].

(** [thread_pool_demo] with the workers running between the calls of
    [thread_pool_add_work]. *)
Definition mixed : list (action * nat) :=
  concat (map (fun i => Demo.add 0 i :: Demo.workers) (seq 0 10)).

Definition ten_jobs : list (nat * work_item_t) :=
  map (fun i => (0%nat, Demo.job i)) (seq 0 10).

Lemma run_demo_eq sched :
  Demo.run_demo sched
  = run_system Demo.MAX_QUEUE_SIZE Demo.THREAD_POOL_SIZE sched
      (boot Demo.block).
Proof. reflexivity. Qed.

Lemma run_single_eq sched :
  run_single sched = run_system Demo.MAX_QUEUE_SIZE 1 sched (boot Demo.block).
Proof. reflexivity. Qed.

Lemma demo_queue_ok : 0 < Demo.MAX_QUEUE_SIZE <= CInt.INT_MAX.
Proof. by vm_compute. Qed.

End DemoRuns.

Module PCDemo.
Import ProducerConsumer PCThreads.

Definition ITEMS_PER_PRODUCER : Z := 10.
Definition ITEMS_PER_CONSUMER : Z := 10.
Definition NUM_PRODUCERS : nat := 2.
Definition NUM_CONSUMERS : nat := 2.

Definition run_pc (sched : list (action * nat)) : option system :=
  run_system Demo.BUFFER_SIZE ITEMS_PER_PRODUCER ITEMS_PER_CONSUMER sched
    (boot NUM_PRODUCERS NUM_CONSUMERS (static_buffer Demo.BUFFER_SIZE)).

(** Each thread takes a step in turn. *)
Definition round : list (action * nat) :=
  [(RunProducer 0, 0%nat); (RunProducer 1, 0%nat);
   (RunConsumer 0, 0%nat); (RunConsumer 1, 0%nat)].

(** The producers run until both sleep on the full buffer, then one
    consumer takes three items. *)
Definition burst : list (action * nat) :=
  replicate 4 (RunProducer 0, 0%nat) ++ replicate 3 (RunProducer 1, 0%nat)
    ++ replicate 3 (RunConsumer 1, 0%nat).

(** Both consumers find the buffer empty and go to sleep. *)
Definition waiting : list (action * nat) :=
  [(RunConsumer 0, 0%nat); (RunConsumer 1, 0%nat)].

(** The whole demo, the threads in turn, then the main thread. *)
Definition whole : list (action * nat) :=
  concat (replicate 10 round) ++ [(RunMain, 0%nat)].



Lemma pc_fact {A} (f : system -> A) (o : option system) s v :
  o = Some s -> f <$> o = Some v -> f s = v.
Proof. intros -> [= ->]. reflexivity. Defined.

Lemma run_pc_eq sched :
  run_pc sched
  = run_system Demo.BUFFER_SIZE ITEMS_PER_PRODUCER ITEMS_PER_CONSUMER sched
      (boot NUM_PRODUCERS NUM_CONSUMERS (static_buffer Demo.BUFFER_SIZE)).
Proof. reflexivity. Qed.


Lemma demo_buffer_ok : 0 < Demo.BUFFER_SIZE <= CInt.INT_MAX.
Proof. by vm_compute. Qed.

Lemma demo_producer_ok : 0 <= ITEMS_PER_PRODUCER <= CInt.INT_MAX.
Proof. by vm_compute. Qed.

Lemma demo_consumer_ok : 0 <= ITEMS_PER_CONSUMER <= CInt.INT_MAX.
Proof. by vm_compute. Qed.

End PCDemo.

(** * The properties of the queue and of the pool *)

Import ProducerConsumer ThreadPool ThreadPoolFacts.

(** C1 (capacity invariant).  For a capacity [C] that is positive (and an
    [int]), after any history of critical sections [ops] and one more
    operation [o], the length of the queue lies between [0] and [C]; an
    insertion only happens below [C] and adds one, a removal only happens
    above [0] and takes one, and every other outcome (a sleep, a rejection,
    a worker leaving, the shutdown) leaves the length alone.  This holds for
    [count] in producer_consumer.c and for [queue_size] in thread_pool.c. *)
Theorem capacity_invariant (C : Z) (HC : 0 < C <= CInt.INT_MAX) :
  (forall b0 ops o,
      Z.of_nat (length (buffer b0)) = C ->
      exists es b e b',
        ProducerConsumer.run C ops (init_buffer b0) = Some (es, b) /\
        ProducerConsumer.exec C o b = Some (e, b') /\
        0 <= count b <= C /\ 0 <= count b' <= C /\
        count_step C e (count b) (count b'))
  /\
  (forall mem ops o,
      Z.of_nat (length (queue mem)) = C ->
      exists es tp e tp',
        ThreadPool.run C ops (thread_pool_init mem) = Some (es, tp) /\
        ThreadPool.exec C o tp = Some (e, tp') /\
        0 <= queue_size tp <= C /\ 0 <= queue_size tp' <= C /\
        size_step C e (queue_size tp) (queue_size tp')).
Proof.
  split.
  - intros b0 ops o Hlen.
    destruct (ProducerConsumer.buffer_run_spec C HC ops (init_buffer b0))
      as (es & b & Hrun & Hwf & _); [by apply ProducerConsumer.buffer_wf_init|].
    destruct (ProducerConsumer.buffer_exec_spec C HC o b Hwf)
      as (e & b' & Hex & Hwf' & Hstep).
    exists es, b, e, b'. repeat split; try done; destruct Hwf, Hwf'; lia.
  - intros mem ops o Hlen.
    destruct (ThreadPool.queue_run_spec C HC ops (thread_pool_init mem))
      as (es & tp & Hrun & Hwf & _); [by apply ThreadPool.queue_wf_init|].
    destruct (ThreadPool.exec_size C HC o tp Hwf)
      as (e & tp' & Hex & Hwf' & Hstep).
    exists es, tp, e, tp'. repeat split; try done; destruct Hwf, Hwf'; lia.
Qed.

Lemma capacity_invariant_witness :
  0 < 5 <= CInt.INT_MAX /\
  exists es b e b',
    ProducerConsumer.run 5 [Insert 7; Remove] (init_buffer (static_buffer 5))
      = Some (es, b) /\
    ProducerConsumer.exec 5 (Insert 8) b = Some (e, b') /\
    0 <= count b <= 5 /\ 0 <= count b' <= 5 /\
    count_step 5 e (count b) (count b').
Proof.
  assert (H : 0 < 5 <= CInt.INT_MAX) by (unfold CInt.INT_MAX; lia).
  split; [exact H|].
  apply (proj1 (capacity_invariant 5 H)). reflexivity.
Defined.

(** C2 (FIFO).  In every execution of producer_consumer.c, whatever the
    interleaving of insertions and removals, the items removed so far
    followed by the items still in the buffer are the items inserted, in
    the order of insertion; so when as many removals as insertions have
    completed, the removed items are the inserted ones in the same order.
    In particular, inserting [N] values (that fit) and then removing [N]
    times returns exactly these values in order, without any wait.  The
    queue of thread_pool.c hands over the accepted work in the same way. *)
Theorem fifo_order (C : Z) (HC : 0 < C <= CInt.INT_MAX) :
  (forall b0 ops,
      Z.of_nat (length (buffer b0)) = C ->
      exists es b,
        ProducerConsumer.run C ops (init_buffer b0) = Some (es, b) /\
        removed es ++ ProducerConsumer.contents C b = inserted es /\
        (length (removed es) = length (inserted es) ->
         removed es = inserted es))
  /\
  (forall b0 xs,
      Z.of_nat (length (buffer b0)) = C ->
      Z.of_nat (length xs) <= C ->
      exists b,
        ProducerConsumer.run C (map Insert xs ++ replicate (length xs) Remove)
          (init_buffer b0)
        = Some (map Inserted xs ++ map Removed xs, b) /\
        ProducerConsumer.contents C b = [])
  /\
  (forall mem ops,
      Z.of_nat (length (queue mem)) = C ->
      exists es tp,
        ThreadPool.run C ops (thread_pool_init mem) = Some (es, tp) /\
        took es ++ ThreadPool.contents C tp = accepted es).
Proof.
  split; [|split].
  - intros b0 ops Hlen.
    destruct (ProducerConsumer.buffer_run_spec C HC ops (init_buffer b0))
      as (es & b & Hrun & Hwf & Heq); [by apply ProducerConsumer.buffer_wf_init|].
    rewrite ProducerConsumer.contents_init in Heq. simpl in Heq.
    exists es, b. split; [done|]. split; [done|].
    intros Hn. rewrite Heq in Hn. rewrite length_app in Hn.
    destruct (ProducerConsumer.contents C b) as [|x l]; simpl in Hn; [|lia].
    by rewrite app_nil_r in Heq.
  - intros b0 xs Hlen Hfit.
    pose proof (ProducerConsumer.buffer_wf_init C HC b0 Hlen) as Hwf.
    destruct (ProducerConsumer.run_inserts C HC xs (init_buffer b0) Hwf)
      as (b1 & Hrun1 & Hwf1 & Hc1); [simpl; lia|].
    rewrite ProducerConsumer.contents_init in Hc1. simpl in Hc1.
    destruct (ProducerConsumer.run_removes C HC xs [] b1 Hwf1)
      as (b2 & Hrun2 & Hwf2 & Hc2); [by rewrite app_nil_r|].
    exists b2. rewrite ProducerConsumer.buffer_run_app, Hrun1, Hrun2. done.
  - intros mem ops Hlen.
    destruct (ThreadPool.queue_run_spec C HC ops (thread_pool_init mem))
      as (es & tp & Hrun & Hwf & _ & Heq); [by apply ThreadPool.queue_wf_init|].
    exists es, tp. split; [done|]. symmetry. exact Heq.
Qed.

Lemma fifo_order_witness :
  0 < 5 <= CInt.INT_MAX /\
  exists b,
    ProducerConsumer.run 5
      (map Insert [101; 102; 201] ++ replicate 3%nat Remove)
      (init_buffer (static_buffer 5))
    = Some (map Inserted [101; 102; 201] ++ map Removed [101; 102; 201], b) /\
    ProducerConsumer.contents 5 b = [].
Proof.
  assert (H : 0 < 5 <= CInt.INT_MAX) by (unfold CInt.INT_MAX; lia).
  split; [exact H|].
  apply (proj1 (proj2 (fifo_order 5 H)) (static_buffer 5) [101; 102; 201]).
  - reflexivity.
  - simpl. lia.
Defined.

(** C10 (bookkeeping of the circular buffer).  After any history of
    critical sections the insertion index and the removal index lie in
    [0, C), the insertion index is the removal index plus the length modulo
    [C], the array has [C] slots, and the next operation is defined: its
    array access is inside the array.  This holds for [in]/[out]/[count] of
    producer_consumer.c and for [tail]/[head]/[queue_size] of
    thread_pool.c. *)
Theorem ring_bookkeeping (C : Z) (HC : 0 < C <= CInt.INT_MAX) :
  (forall b0 ops o,
      Z.of_nat (length (buffer b0)) = C ->
      exists es b e b',
        ProducerConsumer.run C ops (init_buffer b0) = Some (es, b) /\
        ProducerConsumer.exec C o b = Some (e, b') /\
        Z.of_nat (length (buffer b)) = C /\
        0 <= in_ b < C /\ 0 <= out b < C /\
        in_ b = (out b + count b) mod C)
  /\
  (forall mem ops o,
      Z.of_nat (length (queue mem)) = C ->
      exists es tp e tp',
        ThreadPool.run C ops (thread_pool_init mem) = Some (es, tp) /\
        ThreadPool.exec C o tp = Some (e, tp') /\
        Z.of_nat (length (queue tp)) = C /\
        0 <= tail tp < C /\ 0 <= head tp < C /\
        tail tp = (head tp + queue_size tp) mod C).
Proof.
  split.
  - intros b0 ops o Hlen.
    destruct (ProducerConsumer.buffer_run_spec C HC ops (init_buffer b0))
      as (es & b & Hrun & Hwf & _); [by apply ProducerConsumer.buffer_wf_init|].
    destruct (ProducerConsumer.buffer_exec_spec C HC o b Hwf) as (e & b' & Hex & _).
    exists es, b, e, b'.
    pose proof (ProducerConsumer.wf_in_range C HC b Hwf).
    by destruct Hwf.
  - intros mem ops o Hlen.
    destruct (ThreadPool.queue_run_spec C HC ops (thread_pool_init mem))
      as (es & tp & Hrun & Hwf & _); [by apply ThreadPool.queue_wf_init|].
    destruct (ThreadPool.exec_size C HC o tp Hwf) as (e & tp' & Hex & _).
    exists es, tp, e, tp'.
    pose proof (ThreadPool.wf_tail_range C HC tp Hwf).
    by destruct Hwf.
Qed.

Lemma ring_bookkeeping_witness :
  0 < 100 <= CInt.INT_MAX /\
  exists es tp e tp',
    ThreadPool.run 100 [AddWork 4096 1; WorkerTurn; AddWork 4096 2]
      (thread_pool_init
         {| queue := replicate 100 {| function := 0; argument := 0 |};
            queue_size := 12345; head := -7; tail := 999;
            worker_threads := replicate 4 0%nat; shutdown := true |})
    = Some (es, tp) /\
    ThreadPool.exec 100 WorkerTurn tp = Some (e, tp') /\
    Z.of_nat (length (queue tp)) = 100 /\
    0 <= tail tp < 100 /\ 0 <= head tp < 100 /\
    tail tp = (head tp + queue_size tp) mod 100.
Proof.
  assert (H : 0 < 100 <= CInt.INT_MAX) by (unfold CInt.INT_MAX; lia).
  split; [exact H|].
  apply (proj2 (ring_bookkeeping 100 H)). reflexivity.
Defined.

(** C3 (no item is lost by closing).  Take any history of the pool and let
    [M] be the number of work items that were accepted and not yet taken,
    that is, the items queued when the shutdown flag is set.  Setting the
    flag leaves them in the queue; the next [M] turns of workers take
    exactly these items, in order, and every later turn ([k] of them, for
    any [k]) leaves the loop.  Whatever else happens after the flag is set,
    nothing is accepted any more, and the items taken followed by the items
    still queued are those [M] items. *)
Theorem close_keeps_items (C : Z) (HC : 0 < C <= CInt.INT_MAX) :
  forall mem ops,
    Z.of_nat (length (queue mem)) = C ->
    exists es tp,
      ThreadPool.run C ops (thread_pool_init mem) = Some (es, tp) /\
      took es ++ ThreadPool.contents C tp = accepted es /\
      (forall k, exists tp',
          ThreadPool.run C
            (Shutdown ::
               replicate (length (ThreadPool.contents C tp) + k) WorkerTurn) tp
          = Some (FlagSet :: map Took (ThreadPool.contents C tp)
                    ++ replicate k WorkerExit, tp') /\
          ThreadPool.contents C tp' = []) /\
      (forall ops', exists es' tp',
          ThreadPool.run C (Shutdown :: ops') tp = Some (FlagSet :: es', tp') /\
          accepted es' = [] /\
          took es' ++ ThreadPool.contents C tp' = ThreadPool.contents C tp).
Proof.
  intros mem ops Hlen.
  destruct (ThreadPool.queue_run_spec C HC ops (thread_pool_init mem))
    as (es & tp & Hrun & Hwf & _ & Heq); [by apply ThreadPool.queue_wf_init|].
  exists es, tp. split; [done|]. split; [by symmetry|].
  pose proof (ThreadPool.wf_set_shutdown C tp Hwf) as Hwf1.
  split.
  - intros k.
    destruct (ThreadPool.run_drain C HC (ThreadPool.contents C tp) []
                (set_shutdown tp) Hwf1)
      as (tp1 & Hrun1 & Hwf2 & Hsd2 & Hc2); [by rewrite app_nil_r|].
    exists tp1. cbn [ThreadPool.run ThreadPool.exec shutdown_cs].
    rewrite replicate_add, ThreadPool.queue_run_app, Hrun1.
    rewrite (ThreadPool.run_closed_empty C k tp1); [done|done|].
    pose proof (ThreadPool.queue_contents_length C tp1 Hwf2) as Hl.
    rewrite Hc2 in Hl. simpl in Hl. lia.
  - intros ops'.
    destruct (ThreadPool.queue_run_spec C HC ops' (set_shutdown tp) Hwf1)
      as (es' & tp' & Hrun' & Hwf' & _ & Heq').
    exists es', tp'. cbn [ThreadPool.run ThreadPool.exec shutdown_cs].
    rewrite Hrun'. split; [done|].
    destruct (ThreadPool.run_closed C ops' (set_shutdown tp) es' tp')
      as [Hacc _]; [done|done|].
    split; [done|]. rewrite Hacc, app_nil_r in Heq'. by symmetry.
Qed.

Lemma close_keeps_items_witness :
  0 < 100 <= CInt.INT_MAX /\
  exists es tp,
    ThreadPool.run 100 [AddWork 4096 1; AddWork 4096 2; WorkerTurn; AddWork 4096 3]
      (thread_pool_init
         {| queue := replicate 100 {| function := 0; argument := 0 |};
            queue_size := 0; head := 0; tail := 0;
            worker_threads := replicate 4 0%nat; shutdown := false |})
    = Some (es, tp) /\
    took es ++ ThreadPool.contents 100 tp = accepted es /\
    (forall k, exists tp',
        ThreadPool.run 100
          (Shutdown ::
             replicate (length (ThreadPool.contents 100 tp) + k) WorkerTurn) tp
        = Some (FlagSet :: map Took (ThreadPool.contents 100 tp)
                  ++ replicate k WorkerExit, tp') /\
        ThreadPool.contents 100 tp' = []) /\
    (forall ops', exists es' tp',
        ThreadPool.run 100 (Shutdown :: ops') tp = Some (FlagSet :: es', tp') /\
        accepted es' = [] /\
        took es' ++ ThreadPool.contents 100 tp' = ThreadPool.contents 100 tp).
Proof.
  assert (H : 0 < 100 <= CInt.INT_MAX) by (unfold CInt.INT_MAX; lia).
  split; [exact H|].
  apply (close_keeps_items 100 H). reflexivity.
Defined.

(** C5 (a closed queue answers at once), where it fails.  A caller of
    [thread_pool_add_work] that waits for space when the queue is closed
    is not answered at once.  [thread_pool_shutdown] sets the flag and
    wakes every sleeper of [queue_not_empty] but none of [queue_not_full]:
    the caller stays asleep, inside its call; when it is scheduled nothing
    changes, and nothing is returned to it.  It tests the predicate again
    only when something else wakes it, and then it returns [false] without
    touching the queue.  The rest of the claim holds: a worker on a closed
    and empty queue, awake, leaves its loop instead of sleeping. *)
Theorem close_misses_a_waiting_caller (C : Z) (W : nat) :
  forall s t t0 pick f a,
    freed s = false -> lock_deleted s = false ->
    (W <= length (worker_threads (pool s)))%nat ->
    blocked s !! t = Some (CallAddWork f a, InAddWork f a) ->
    Client t ∈ asleep_not_full s ->
    blocked s !! t0 = None ->
    exists s1,
      step C W (Call t0 (CallShutdown PoolPtr)) pick s = Some s1 /\
      shutdown (pool s1) = true /\
      asleep_not_empty s1 = [] /\
      asleep_not_full s1 = asleep_not_full s /\
      blocked s1 !! t = Some (CallAddWork f a, InAddWork f a) /\
      (forall p, step C W (Resume t) p s1 = Some s1) /\
      (forall r, Ret t (CallAddWork f a) r ∈ trace s1 ->
                 Ret t (CallAddWork f a) r ∈ trace s) /\
      (forall s2 p,
         shutdown (pool s2) = true ->
         freed s2 = false -> lock_deleted s2 = false ->
         blocked s2 !! t = Some (CallAddWork f a, InAddWork f a) ->
         is_asleep (Client t) s2 = false ->
         step C W (Resume t) p s2
         = Some (log (Ret t (CallAddWork f a) (VBool false))
                   (with_blocked (delete t (blocked s2)) s2))) /\
      (forall s2 i p th,
         shutdown (pool s2) = true -> queue_size (pool s2) = 0 ->
         freed s2 = false -> lock_deleted s2 = false ->
         threads s2 !! i = Some th -> pc th = AtLoop ->
         is_asleep (Worker i) s2 = false ->
         worker_thread C i p s2 = Some (set_pc i Exited s2)).
Proof.
  intros s t t0 pick f a Hfr Hld Hlen Hb Hin Hb0.
  assert (Hworker : forall s2 i p th,
            shutdown (pool s2) = true -> queue_size (pool s2) = 0 ->
            freed s2 = false -> lock_deleted s2 = false ->
            threads s2 !! i = Some th -> pc th = AtLoop ->
            is_asleep (Worker i) s2 = false ->
            worker_thread C i p s2 = Some (set_pc i Exited s2)).
  { intros s2 i p th. apply worker_closed_empty. }
  assert (Hne : t <> t0) by (intros ->; congruence).
  destruct (PoolLife.join_workers_runs W 0 (PoolLife.after_shutdown_cs s))
    as (r & sj & Hj & [O1 O2 O3 O4 O5 O6 O7 O8 O9]); [done|simpl; lia|].
  simpl in O1, O2, O3, O4, O5, O6, O7.
  assert (Hasleep : forall s1, asleep_not_full s1 = asleep_not_full s ->
            is_asleep (Client t) s1 = true).
  { intros s1 E. apply bool_decide_eq_true. apply elem_of_app. right.
    by rewrite E. }
  assert (Hcall : step C W (Call t0 (CallShutdown PoolPtr)) pick s
                  = settle t0 (CallShutdown PoolPtr) (shutdown_joined (Some (r, sj)))).
  { cbn [step]. rewrite Hb0. cbn [invoke thread_pool_shutdown].
    unfold critical_section. rewrite Hfr, Hld.
    cbn [orb shutdown_cs foldl apply_wake].
    fold (PoolLife.after_shutdown_cs s). unfold shutdown_join.
    by rewrite Nat.sub_0_r, Hj. }
  assert (Hlate : forall s2 p,
            shutdown (pool s2) = true ->
            freed s2 = false -> lock_deleted s2 = false ->
            blocked s2 !! t = Some (CallAddWork f a, InAddWork f a) ->
            is_asleep (Client t) s2 = false ->
            step C W (Resume t) p s2
            = Some (log (Ret t (CallAddWork f a) (VBool false))
                      (with_blocked (delete t (blocked s2)) s2))).
  { intros s2 p Hsd2 Hfr2 Hld2 Hb2 Haw2. cbn [step]. rewrite Hb2, Haw2.
    cbn [resume]. by rewrite (add_work_closed C t p f a s2 Hsd2 Hfr2 Hld2). }
  rewrite Hcall. unfold shutdown_joined. destruct r as [[i h]|].
  - eexists. split; [reflexivity|]. cbn [settle].
    split; [simpl; by rewrite O1|]. split; [done|]. split; [done|].
    assert (Hb1 : <[t0 := (CallShutdown PoolPtr, InShutdownJoin i h)]>
                    (blocked sj) !! t
                  = Some (CallAddWork f a, InAddWork f a)).
    { rewrite lookup_insert_ne by done. by rewrite O6. }
    split; [exact Hb1|]. split.
    { intros p. cbn [step]. simpl blocked. rewrite Hb1.
      by rewrite Hasleep. }
    split; [|split; [exact Hlate|exact Hworker]].
    intros r0. simpl. by rewrite O7.
  - rewrite O2, O3. simpl freed. simpl lock_deleted. rewrite Hfr, Hld.
    cbn [orb settle]. eexists. split; [reflexivity|].
    split; [simpl; by rewrite O1|]. split; [done|]. split; [done|].
    assert (Hb1 : delete t0 (blocked sj) !! t
                  = Some (CallAddWork f a, InAddWork f a)).
    { rewrite lookup_delete_ne by done. by rewrite O6. }
    split; [exact Hb1|]. split.
    { intros p. cbn [step]. simpl blocked. rewrite Hb1.
      by rewrite Hasleep. }
    split; [|split; [exact Hlate|exact Hworker]].
    intros r0. simpl. rewrite O7.
    intros [H|H%list_elem_of_singleton]%elem_of_app; [done|discriminate H].
Qed.

(** C5, at the values of the demo: the queue holds a hundred jobs, client
    [2] waits for space, the main thread shuts the pool down. *)
Lemma close_misses_a_waiting_caller_witness :
  exists s s1,
    Demo.run_demo DemoRuns.waiting_pusher = Some s /\
    queue_size (pool s) = Demo.MAX_QUEUE_SIZE /\
    step Demo.MAX_QUEUE_SIZE Demo.THREAD_POOL_SIZE
      (Call 0 (CallShutdown PoolPtr)) 0 s = Some s1 /\
    shutdown (pool s1) = true /\
    asleep_not_full s1 = [Client 2] /\
    blocked s1 !! 2%nat
    = Some (CallAddWork Demo.example_job (Demo.job_data 100),
            InAddWork Demo.example_job (Demo.job_data 100)) /\
    step Demo.MAX_QUEUE_SIZE Demo.THREAD_POOL_SIZE (Resume 2) 0 s1 = Some s1.
Proof.
  destruct (Demo.run_demo DemoRuns.waiting_pusher) as [s|] eqn:H1;
    [|vm_compute in H1; discriminate H1].
  assert (Hnf : asleep_not_full s = [Client 2]).
  { apply (Demo.run_fact asleep_not_full _ s _ H1). vm_compute. reflexivity. }
  destruct (close_misses_a_waiting_caller Demo.MAX_QUEUE_SIZE
              Demo.THREAD_POOL_SIZE s 2%nat 0%nat 0%nat
              Demo.example_job (Demo.job_data 100))
    as (s1 & Hs1 & Hsd & _ & Hnf1 & Hb1 & Hres & _).
  - apply (Demo.run_fact freed _ s _ H1). vm_compute. reflexivity.
  - apply (Demo.run_fact lock_deleted _ s _ H1). vm_compute. reflexivity.
  - apply Nat.leb_le.
    apply (Demo.run_fact
             (fun s => (Demo.THREAD_POOL_SIZE
                        <=? length (worker_threads (pool s)))%nat) _ s _ H1).
    vm_compute. reflexivity.
  - apply (Demo.run_fact (fun s => blocked s !! 2%nat) _ s _ H1).
    vm_compute. reflexivity.
  - rewrite Hnf. apply list_elem_of_singleton. reflexivity.
  - apply (Demo.run_fact (fun s => blocked s !! 0%nat) _ s _ H1).
    vm_compute. reflexivity.
  - exists s, s1. split; [reflexivity|]. split.
    { apply (Demo.run_fact (fun s => queue_size (pool s)) _ s _ H1).
      vm_compute. reflexivity. }
    split; [exact Hs1|]. split; [exact Hsd|].
    split; [rewrite Hnf1; exact Hnf|]. split; [exact Hb1|]. apply Hres.
Defined.

(** C4 (exactly once).  In every run of the pool, with any number [W] of
    workers per start and any interleaving of clients and workers, the
    accepted work items are, as a multiset, the executed ones, those a
    worker has taken and is about to call, and those still queued: no item
    is executed twice and none disappears.  Hence when the workers have all
    left their loop (which they do only on a closed and empty queue), the
    executions are exactly the accepted items.  And the workers do get
    there: once the flag is set, with the pool alive and no worker asleep,
    steps of the workers alone lead to a state in which all of them have
    left and every accepted item has been executed. *)
Theorem exactly_once (C : Z) (HC : 0 < C <= CInt.INT_MAX) (W : nat) :
  forall mem sched s,
    Z.of_nat (length (queue mem)) = C ->
    run_system C W sched (boot mem) = Some s ->
    jobs_accepted s
    ≡ₚ jobs_executed s ++ jobs_in_flight s ++ ThreadPool.contents C (pool s)
    /\ (threads s <> [] ->
        Forall (fun th => pc th = Exited) (threads s) ->
        jobs_executed s ≡ₚ jobs_accepted s /\
        length (jobs_executed s) = length (jobs_accepted s))
    /\ (shutdown (pool s) = true -> freed s = false ->
        lock_deleted s = false -> no_worker_asleep s ->
        exists sched' s',
          worker_steps sched' /\
          run_system C W sched' s = Some s' /\
          Forall (fun th => pc th = Exited) (threads s') /\
          jobs_accepted s' = jobs_accepted s /\
          (threads s <> [] -> jobs_executed s' ≡ₚ jobs_accepted s)).
Proof.
  intros mem sched s Hlen Hrun.
  assert (Hinv : sys_inv C s).
  { eapply inv_run; [exact HC| |exact Hrun]. by apply inv_boot. }
  split; [|split].
  - rewrite in_flight_pcs. by destruct Hinv.
  - intros Hne Hall.
    pose proof (all_exited_all_executed C s Hinv Hne Hall) as Hp.
    split; [exact Hp|]. by rewrite Hp.
  - intros Hsd Hfr Hld Hawake.
    destruct (drain_exists C W HC (work_left s) s eq_refl Hinv Hsd Hfr Hld Hawake)
      as (sched' & s' & Hw & Hrun' & Hall & Hinv' & Hacc & Hlen').
    exists sched', s'. split_and!; try done.
    intros Hne. rewrite <- Hacc.
    apply (all_exited_all_executed C s' Hinv'); [|done].
    intros E. apply Hne. apply length_zero_iff_nil.
    rewrite <- Hlen', E. done.
Qed.

Lemma exactly_once_witness :
  exists s,
    Demo.run_demo Demo.demo = Some s /\
    threads s = replicate 4 {| pc := Exited; handle_open := false |} /\
    jobs_executed s ≡ₚ jobs_accepted s /\
    length (jobs_executed s) = length (jobs_accepted s) /\
    length (jobs_accepted s) = 10%nat.
Proof.
  assert (HC : 0 < 100 <= CInt.INT_MAX) by (unfold CInt.INT_MAX; lia).
  destruct (Demo.run_demo Demo.demo) as [s|] eqn:Hrun; [|by vm_compute in Hrun].
  exists s. split; [done|].
  assert (Hth : threads s = replicate 4 {| pc := Exited; handle_open := false |}).
  { apply (Demo.run_fact threads _ s _ Hrun). vm_compute. reflexivity. }
  split; [exact Hth|].
  destruct (exactly_once 100 HC 4 Demo.block Demo.demo s) as (_ & Hdone & _).
  - reflexivity.
  - exact Hrun.
  - destruct Hdone as [Hp Hl].
    + rewrite Hth. done.
    + rewrite Hth. repeat constructor.
    + split; [exact Hp|]. split; [exact Hl|].
      apply (Demo.run_fact (fun s => length (jobs_accepted s)) _ s _ Hrun).
      vm_compute. reflexivity.
Defined.

(** C6 (notification), evaluated where it fails.  The main thread starts
    the pool and fills the queue with [MAX_QUEUE_SIZE] jobs before any
    worker runs; client [2] then calls [thread_pool_add_work] and goes to
    sleep on [queue_not_full].  When the main thread now calls
    [thread_pool_shutdown], its critical section sets the flag and wakes
    the sleepers of [queue_not_empty] only: client [2] is still asleep on
    [queue_not_full], and scheduling it changes nothing. *)
Lemma shutdown_leaves_pusher_asleep :
  exists s,
    Demo.run_demo
      (Demo.start :: map (Demo.add 1) (seq 0 100)
         ++ [Demo.add 2 100; Demo.close]) = Some s /\
    shutdown (pool s) = true /\
    queue_size (pool s) = Demo.MAX_QUEUE_SIZE /\
    asleep_not_empty s = [] /\
    asleep_not_full s = [Client 2] /\
    blocked s !! 2%nat
    = Some (CallAddWork Demo.example_job (Demo.job_data 100),
            InAddWork Demo.example_job (Demo.job_data 100)) /\
    step Demo.MAX_QUEUE_SIZE Demo.THREAD_POOL_SIZE (Resume 2) 0 s = Some s.
Proof.
  eexists. split; [vm_compute; reflexivity|].
  repeat split; vm_compute; reflexivity.
Qed.

(** C7, the claim as stated fails: after the demo has run and
    [thread_pool_shutdown] has returned, the block is freed; a second call
    on the same pointer is not a no-op, it has no defined behaviour. *)
Lemma second_shutdown_is_undefined :
  exists s,
    Demo.run_demo Demo.demo = Some s /\
    last (trace s) = Some (Ret 0 (CallShutdown PoolPtr) VVoid) /\
    freed s = true /\
    thread_pool_shutdown Demo.THREAD_POOL_SIZE 0 0 PoolPtr s = Crash /\
    Demo.run_demo (Demo.demo ++ [Demo.close]) = None.
Proof.
  eexists. split; [vm_compute; reflexivity|].
  repeat split; vm_compute; reflexivity.
Qed.

(** C7, amended.  [thread_pool_shutdown] called with [NULL], which is what
    the demo's [g_pool] holds once the first call has returned, returns at
    once and changes nothing: no flag is set, no thread is joined, no
    handle is closed.  Called again with the pointer to the freed block it
    has no defined behaviour. *)
Theorem shutdown_null_is_noop (W : nat) :
  forall s t pick,
    thread_pool_shutdown W t pick NULL s = Returned VVoid s /\
    (freed s = true -> thread_pool_shutdown W t pick PoolPtr s = Crash).
Proof.
  intros s t pick. split; [reflexivity|].
  intros Hfr. simpl. unfold critical_section. by rewrite Hfr.
Qed.

Lemma shutdown_null_is_noop_witness :
  freed (free (boot Demo.block)) = true /\
  thread_pool_shutdown 4 0 0 PoolPtr (free (boot Demo.block)) = Crash.
Proof.
  split; [reflexivity|].
  apply (proj2 (shutdown_null_is_noop 4 (free (boot Demo.block)) 0 0)).
  reflexivity.
Defined.

(** C8, the claim as stated fails: a second [thread_pool_start] on the
    started pool of the demo returns [true] and leaves eight worker
    threads, with the handles of the first four overwritten. *)
Lemma second_start_spawns_again :
  exists s1 s2,
    Demo.run_demo [Demo.start] = Some s1 /\
    length (threads s1) = 4%nat /\
    worker_threads (pool s1) = [1; 2; 3; 4]%nat /\
    thread_pool_start Demo.THREAD_POOL_SIZE Demo.all_created s1
    = Returned (VBool true) s2 /\
    length (threads s2) = 8%nat /\
    worker_threads (pool s2) = [5; 6; 7; 8]%nat.
Proof.
  eexists _, _. split; [vm_compute; reflexivity|].
  split; [reflexivity|]. split; [reflexivity|].
  split; [vm_compute; reflexivity|]. split; reflexivity.
Qed.

(** C8, amended.  [thread_pool_start] keeps no record of an earlier call:
    on any pool that is not freed, started before or not, when every
    [CreateThread] succeeds it returns [true], adds [THREAD_POOL_SIZE] new
    worker threads to the threads that exist and stores their handles in
    [worker_threads] over the old ones; nothing else changes. *)
Theorem start_has_no_guard (W : nat) :
  forall created s,
    freed s = false ->
    length (worker_threads (pool s)) = W ->
    (forall i, (i < W)%nat -> created i = true) ->
    exists s',
      thread_pool_start W created s = Returned (VBool true) s' /\
      threads s' = threads s ++ replicate W fresh_thread /\
      worker_threads (pool s')
      = map (fun k => S (length (threads s) + k)) (seq 0 W) /\
      queue (pool s') = queue (pool s) /\
      queue_size (pool s') = queue_size (pool s) /\
      head (pool s') = head (pool s) /\ tail (pool s') = tail (pool s) /\
      shutdown (pool s') = shutdown (pool s) /\
      trace s' = trace s.
Proof.
  intros created s Hfr Hlen Hok.
  destruct (start_workers_ok created W 0 s Hfr) as
    (s' & Hrun & Hth & Hnew & _ & Hl & Hq & Hsz & Hh & Ht & Hsd & _ & _ & _ & _ & _ & Htr).
  { lia. }
  { intros j Hj. apply Hok. lia. }
  exists s'. split; [exact Hrun|]. split; [exact Hth|].
  split; [|done].
  apply list_eq. intros k.
  destruct (decide (k < W)%nat) as [Hk|Hk].
  - etrans; [exact (Hnew k Hk)|]. symmetry.
    rewrite list_lookup_fmap, lookup_seq_lt by done. done.
  - etrans; [apply lookup_ge_None_2; lia|]. symmetry.
    apply lookup_ge_None_2. rewrite length_map, length_seq. lia.
Qed.

Lemma start_has_no_guard_witness :
  exists s',
    thread_pool_start 4 Demo.all_created (boot Demo.block)
    = Returned (VBool true) s' /\
    threads s' = replicate 4 fresh_thread /\
    worker_threads (pool s') = [1; 2; 3; 4]%nat.
Proof.
  destruct (start_has_no_guard 4 Demo.all_created (boot Demo.block)
              eq_refl eq_refl) as (s' & Hstart & Hth & Hh & _).
  { reflexivity. }
  exists s'. split; [exact Hstart|]. split; [exact Hth|exact Hh].
Defined.

(** C9, the claim as stated fails: two jobs are queued and no worker has
    taken one when [thread_pool_shutdown] is called; the workers still take
    and run both before they leave, and the call returns nothing. *)
Lemma shutdown_runs_queued_jobs :
  exists s1 s2,
    Demo.run_demo (Demo.start :: map (Demo.add 0) (seq 0 2)) = Some s1 /\
    ThreadPool.contents Demo.MAX_QUEUE_SIZE (pool s1)
    = [Demo.job 0; Demo.job 1] /\
    jobs_executed s1 = [] /\
    run_system Demo.MAX_QUEUE_SIZE Demo.THREAD_POOL_SIZE
      (Demo.close :: Demo.workers ++ Demo.workers ++ Demo.workers
         ++ [(Resume 0, 0%nat)]) s1 = Some s2 /\
    last (trace s2) = Some (Ret 0 (CallShutdown PoolPtr) VVoid) /\
    jobs_executed s2 = [Demo.job 0; Demo.job 1].
Proof.
  eexists _, _. split; [vm_compute; reflexivity|].
  split; [vm_compute; reflexivity|]. split; [reflexivity|].
  split; [vm_compute; reflexivity|]. split; reflexivity.
Qed.

(** C9, amended.  [thread_pool_shutdown] has one mode, the graceful one,
    and no mode argument.  In every state that a run of the pool reaches:
    its critical section sets the flag and leaves the queue as it is; a
    worker has left its loop only if the flag is set and nothing is queued;
    once all workers have left, every accepted job has been executed; and
    whenever the call returns, at once or after a join that blocked, it
    returns nothing, so no job is dropped and no count is reported. *)
Theorem shutdown_is_graceful_only (C : Z) (HC : 0 < C <= CInt.INT_MAX) (W : nat) :
  forall mem sched s,
    Z.of_nat (length (queue mem)) = C ->
    run_system C W sched (boot mem) = Some s ->
    (forall t pick,
        freed s = false -> lock_deleted s = false ->
        exists s',
          critical_section (Client t) pick shutdown_cs s = Some (Some tt, s') /\
          shutdown (pool s') = true /\
          ThreadPool.contents C (pool s') = ThreadPool.contents C (pool s))
    /\ (Exited ∈ map pc (threads s) ->
        shutdown (pool s) = true /\ ThreadPool.contents C (pool s) = [])
    /\ (threads s <> [] ->
        Forall (fun th => pc th = Exited) (threads s) ->
        jobs_executed s ≡ₚ jobs_accepted s)
    /\ (forall t pick tp r s',
          thread_pool_shutdown W t pick tp s = Returned r s' -> r = VVoid)
    /\ (forall t pick i h r s',
          resume C W t pick (InShutdownJoin i h) s = Returned r s' ->
          r = VVoid).
Proof.
  intros mem sched s Hlen Hrun.
  assert (Hinv : sys_inv C s).
  { eapply inv_run; [exact HC| |exact Hrun]. by apply inv_boot. }
  split; [|split; [|split; [|split]]].
  - intros t pick Hfr Hld.
    destruct (shutdown_wakes_workers_only t pick s Hfr Hld)
      as (s' & Hcs & Hp & _).
    exists s'. split; [exact Hcs|]. by rewrite Hp.
  - intros Hex. destruct (inv_exit C s Hinv Hex) as [Hsd Hz].
    split; [exact Hsd|]. by apply contents_empty.
  - exact (all_exited_all_executed C s Hinv).
  - intros t pick tp r s'. apply thread_pool_shutdown_returns.
  - intros t pick i h r s'. apply shutdown_rejoin_returns.
Qed.

Lemma shutdown_is_graceful_only_witness :
  exists s,
    Demo.run_demo Demo.demo = Some s /\
    threads s = replicate 4 {| pc := Exited; handle_open := false |} /\
    jobs_executed s ≡ₚ jobs_accepted s.
Proof.
  assert (HC : 0 < 100 <= CInt.INT_MAX) by (unfold CInt.INT_MAX; lia).
  destruct (Demo.run_demo Demo.demo) as [s|] eqn:Hrun; [|by vm_compute in Hrun].
  exists s. split; [done|].
  assert (Hth : threads s = replicate 4 {| pc := Exited; handle_open := false |}).
  { assert (H : threads <$> Demo.run_demo Demo.demo
                = Some (replicate 4 {| pc := Exited; handle_open := false |}))
      by (vm_compute; reflexivity).
    rewrite Hrun in H. by injection H. }
  split; [exact Hth|].
  destruct (shutdown_is_graceful_only 100 HC 4 Demo.block Demo.demo s)
    as (_ & _ & Hdone & _).
  - reflexivity.
  - exact Hrun.
  - apply Hdone; rewrite Hth; [done|repeat constructor].
Defined.

(** * More properties of the pool *)

Import PoolSteps PoolLife PoolCalls PoolProgram.

(** X1 (the flag is final).  Once the shutdown flag of the pool is set,
    by [thread_pool_shutdown] or by the failure path of
    [thread_pool_start], it stays set in every continuation of the run,
    and no call of [thread_pool_add_work] by any client gets work accepted
    any more, whatever the workers do and even if the pool is started
    again. *)
Theorem closed_pool_stays_closed (C : Z) (HC : 0 < C <= CInt.INT_MAX) (W : nat) :
  forall mem sched1 sched2 s s',
    Z.of_nat (length (queue mem)) = C ->
    run_system C W sched1 (boot mem) = Some s ->
    shutdown (pool s) = true ->
    run_system C W sched2 s = Some s' ->
    shutdown (pool s') = true /\ jobs_accepted s' = jobs_accepted s.
Proof.
  intros mem sched1 sched2 s s' Hlen H1 Hsd H2.
  apply (closed_run C W HC sched2 s s'); try done.
  eapply inv_run; [exact HC| |exact H1]. by apply inv_boot.
Qed.

Lemma closed_pool_stays_closed_witness :
  exists s s',
    Demo.run_demo DemoRuns.closing = Some s /\
    run_system Demo.MAX_QUEUE_SIZE Demo.THREAD_POOL_SIZE
      DemoRuns.after_closing s = Some s' /\
    shutdown (pool s') = true /\
    jobs_accepted s' = jobs_accepted s /\
    length (jobs_accepted s') = 3%nat /\
    length (threads s') = 8%nat.
Proof.
  destruct (Demo.run_demo DemoRuns.closing) as [s|] eqn:H1;
    [|vm_compute in H1; discriminate H1].
  pose proof (run_system_app Demo.MAX_QUEUE_SIZE Demo.THREAD_POOL_SIZE
                DemoRuns.closing DemoRuns.after_closing (boot Demo.block))
    as Happ.
  rewrite <- !DemoRuns.run_demo_eq, H1 in Happ.
  destruct (run_system Demo.MAX_QUEUE_SIZE Demo.THREAD_POOL_SIZE
              DemoRuns.after_closing s) as [s'|] eqn:H2;
    [|vm_compute in Happ; discriminate Happ].
  exists s, s'. split; [reflexivity|]. split; [exact H2|].
  assert (Hsd : shutdown (pool s) = true).
  { apply (Demo.run_fact (fun s => shutdown (pool s)) _ s _ H1).
    vm_compute. reflexivity. }
  pose proof H1 as H1'. rewrite DemoRuns.run_demo_eq in H1'.
  destruct (closed_pool_stays_closed Demo.MAX_QUEUE_SIZE
              DemoRuns.demo_queue_ok Demo.THREAD_POOL_SIZE Demo.block
              _ _ s s' eq_refl H1' Hsd H2) as [Hs Ha].
  split; [exact Hs|]. split; [exact Ha|]. split.
  - rewrite Ha.
    apply (Demo.run_fact (fun s => length (jobs_accepted s)) _ s _ H1).
    vm_compute. reflexivity.
  - apply (Demo.run_fact (fun s => length (threads s)) _ s' _ Happ).
    vm_compute. reflexivity.
Defined.

(** X2 (oldest first).  In every run of the pool, with any number of
    workers and clients, the work items that the workers have taken out
    of the queue are the oldest accepted ones: the accepted items are
    those taken, in some order executed or about to be called, followed
    by the queued ones in the order of their acceptance. *)
Theorem jobs_taken_in_order (C : Z) (HC : 0 < C <= CInt.INT_MAX) (W : nat) :
  forall mem sched s,
    Z.of_nat (length (queue mem)) = C ->
    run_system C W sched (boot mem) = Some s ->
    exists taken,
      jobs_accepted s = taken ++ ThreadPool.contents C (pool s) /\
      taken ≡ₚ jobs_executed s ++ jobs_in_flight s.
Proof.
  intros mem sched s Hlen Hrun.
  destruct (fifo_taken_run C W HC sched (boot mem) s) as (taken & Ha & Hp).
  - by apply inv_boot.
  - by exists [].
  - exact Hrun.
  - exists taken. by rewrite in_flight_pcs.
Qed.

Lemma jobs_taken_in_order_witness :
  exists s taken,
    Demo.run_demo DemoRuns.one_round = Some s /\
    jobs_accepted s
    = taken ++ ThreadPool.contents Demo.MAX_QUEUE_SIZE (pool s) /\
    taken ≡ₚ jobs_executed s ++ jobs_in_flight s /\
    ThreadPool.contents Demo.MAX_QUEUE_SIZE (pool s)
    = map Demo.job (seq 4 6).
Proof.
  destruct (Demo.run_demo DemoRuns.one_round) as [s|] eqn:H1;
    [|vm_compute in H1; discriminate H1].
  pose proof H1 as H1'. rewrite DemoRuns.run_demo_eq in H1'.
  destruct (jobs_taken_in_order Demo.MAX_QUEUE_SIZE DemoRuns.demo_queue_ok
              Demo.THREAD_POOL_SIZE Demo.block _ s eq_refl H1')
    as (taken & Ha & Hp).
  exists s, taken. split; [reflexivity|]. split; [exact Ha|].
  split; [exact Hp|].
  apply (Demo.run_fact
           (fun s => ThreadPool.contents Demo.MAX_QUEUE_SIZE (pool s))
           _ s _ H1).
  vm_compute. reflexivity.
Defined.

(** X3 (one worker keeps the order).  As long as at most one worker
    thread exists, the work items are called in exactly the order in which
    [thread_pool_add_work] accepted them: the accepted items are the
    executed ones, then the one the worker is about to call, then the
    queued ones. *)
Theorem one_worker_keeps_the_order (C : Z) (HC : 0 < C <= CInt.INT_MAX) (W : nat) :
  forall mem sched s,
    Z.of_nat (length (queue mem)) = C ->
    run_system C W sched (boot mem) = Some s ->
    (length (threads s) <= 1)%nat ->
    jobs_accepted s
    = jobs_executed s ++ jobs_in_flight s ++ ThreadPool.contents C (pool s).
Proof.
  intros mem sched s Hlen Hrun Hone.
  assert (Hord : in_order C s).
  { apply (in_order_run C W HC sched (boot mem) s);
      [by apply inv_boot| |exact Hrun].
    by intros _. }
  rewrite in_flight_pcs. apply Hord. unfold pcs. by rewrite length_fmap.
Qed.

Lemma one_worker_keeps_the_order_witness :
  exists s,
    DemoRuns.run_single DemoRuns.single = Some s /\
    jobs_accepted s
    = jobs_executed s ++ jobs_in_flight s
        ++ ThreadPool.contents Demo.MAX_QUEUE_SIZE (pool s) /\
    jobs_executed s = [Demo.job 0; Demo.job 1] /\
    jobs_in_flight s = [Demo.job 2].
Proof.
  destruct (DemoRuns.run_single DemoRuns.single) as [s|] eqn:H1;
    [|vm_compute in H1; discriminate H1].
  pose proof H1 as H1'. rewrite DemoRuns.run_single_eq in H1'.
  exists s. split; [reflexivity|]. split.
  - apply (one_worker_keeps_the_order Demo.MAX_QUEUE_SIZE
             DemoRuns.demo_queue_ok 1 Demo.block _ s eq_refl H1').
    apply Nat.leb_le.
    apply (Demo.run_fact (fun s => (length (threads s) <=? 1)%nat) _ s _ H1).
    vm_compute. reflexivity.
  - split.
    + apply (Demo.run_fact jobs_executed _ s _ H1). vm_compute. reflexivity.
    + apply (Demo.run_fact jobs_in_flight _ s _ H1). vm_compute. reflexivity.
Defined.

(** X4 (shutdown completes).  On a pool that was started once, is not yet
    freed, and whose caller is not inside another call, a call of
    [thread_pool_shutdown] can always be completed: after the call there
    are steps of the workers after which the caller's joins go through,
    and then the call has returned, the lock is deleted and the pool
    freed, every worker has left its loop, and every work item accepted
    before the call has been executed. *)
Theorem shutdown_completes (C : Z) (HC : 0 < C <= CInt.INT_MAX) (W : nat) :
  forall mem created t0 p0 sched s t,
    Z.of_nat (length (queue mem)) = C ->
    length (worker_threads mem) = W -> W <> 0%nat ->
    (forall i, (i < W)%nat -> created i = true) ->
    no_restart sched ->
    run_system C W ((Call t0 (CallStart created), p0) :: sched) (boot mem)
    = Some s ->
    freed s = false -> blocked s !! t = None ->
    exists sched' s',
      worker_steps sched' /\
      run_system C W
        ((Call t (CallShutdown PoolPtr), 0%nat) :: sched'
           ++ [(Resume t, 0%nat)]) s = Some s' /\
      last (trace s') = Some (Ret t (CallShutdown PoolPtr) VVoid) /\
      freed s' = true /\ lock_deleted s' = true /\
      Forall (fun th => pc th = Exited) (threads s') /\
      jobs_accepted s' = jobs_accepted s /\
      jobs_executed s' ≡ₚ jobs_accepted s.
Proof.
  intros mem created t0 p0 sched s t Hq Hlen HW Hok Hnr Hrun Hfr Hb.
  cbn [run_system] in Hrun.
  destruct (step C W (Call t0 (CallStart created)) p0 (boot mem))
    as [s0|] eqn:Hs0; [|done].
  destruct (pool_inv_started C W mem created t0 p0 s0 Hlen Hok Hs0)
    as (Hp0 & _ & _).
  assert (Hinv0 : sys_inv C s0).
  { eapply inv_step; [exact HC| |exact Hs0]. by apply inv_boot. }
  assert (Hinv : sys_inv C s) by (by eapply inv_run).
  assert (Hp : pool_inv W s) by (by eapply (pool_inv_run C W HC sched s0)).
  destruct (shutdown_completes_from C W HC s t Hinv Hp Hfr Hb)
    as (sched' & s' & Hw & Hrun' & Hfr' & Hld' & Hlast & Hacc & Hall & Hex).
  exists sched', s'. split_and!; try done.
  by rewrite (Hex HW), Hacc.
Qed.

Lemma shutdown_completes_witness :
  exists s sched' s',
    Demo.run_demo (Demo.start :: DemoRuns.three_jobs) = Some s /\
    worker_steps sched' /\
    run_system Demo.MAX_QUEUE_SIZE Demo.THREAD_POOL_SIZE
      (Demo.close :: sched' ++ [(Resume 0, 0%nat)]) s = Some s' /\
    freed s' = true /\
    jobs_executed s' ≡ₚ map Demo.job (seq 0 3).
Proof.
  destruct (Demo.run_demo (Demo.start :: DemoRuns.three_jobs)) as [s|] eqn:H1;
    [|vm_compute in H1; discriminate H1].
  pose proof H1 as H1'. rewrite DemoRuns.run_demo_eq in H1'.
  destruct (shutdown_completes Demo.MAX_QUEUE_SIZE DemoRuns.demo_queue_ok
              Demo.THREAD_POOL_SIZE Demo.block Demo.all_created 0 0
              DemoRuns.three_jobs s 0%nat)
    as (sched' & s' & Hw & Hrun & _ & Hfr & _ & _ & _ & Hex).
  - reflexivity.
  - reflexivity.
  - discriminate.
  - reflexivity.
  - apply no_restart_check. vm_compute. reflexivity.
  - exact H1'.
  - apply (Demo.run_fact freed _ s _ H1). vm_compute. reflexivity.
  - apply (Demo.run_fact (fun s => blocked s !! 0%nat) _ s _ H1).
    vm_compute. reflexivity.
  - exists s, sched', s'. split; [reflexivity|]. split; [exact Hw|].
    split; [exact Hrun|]. split; [exact Hfr|].
    rewrite Hex.
    rewrite (Demo.run_fact jobs_accepted _ s (map Demo.job (seq 0 3)) H1);
      [reflexivity|].
    vm_compute. reflexivity.
Defined.

(** X5 (shutdown returns last).  In every run of a pool that is started
    once, [thread_pool_shutdown] has returned only when the pool is freed,
    every worker thread has left its loop and every accepted work item
    has been executed: the call never comes back while work is queued or
    running. *)
Theorem shutdown_returns_after_the_work
    (C : Z) (HC : 0 < C <= CInt.INT_MAX) (W : nat) :
  forall mem created t0 p0 sched s t r,
    Z.of_nat (length (queue mem)) = C ->
    length (worker_threads mem) = W -> W <> 0%nat ->
    (forall i, (i < W)%nat -> created i = true) ->
    no_restart sched ->
    run_system C W ((Call t0 (CallStart created), p0) :: sched) (boot mem)
    = Some s ->
    Ret t (CallShutdown PoolPtr) r ∈ trace s ->
    freed s = true /\
    Forall (fun th => pc th = Exited) (threads s) /\
    ThreadPool.contents C (pool s) = [] /\
    jobs_executed s ≡ₚ jobs_accepted s.
Proof.
  intros mem created t0 p0 sched s t r Hq Hlen HW Hok Hnr Hrun Hret.
  cbn [run_system] in Hrun.
  destruct (step C W (Call t0 (CallStart created)) p0 (boot mem))
    as [s0|] eqn:Hs0; [|done].
  destruct (pool_inv_started C W mem created t0 p0 s0 Hlen Hok Hs0)
    as (Hp0 & _ & _).
  assert (Hinv0 : sys_inv C s0).
  { eapply inv_step; [exact HC| |exact Hs0]. by apply inv_boot. }
  assert (Hinv : sys_inv C s) by (by eapply inv_run).
  assert (Hp : pool_inv W s) by (by eapply (pool_inv_run C W HC sched s0)).
  destruct (shutdown_returned_done C W s t r Hinv Hp HW Hret)
    as (Hfr & Hall & Hex).
  split_and!; try done.
  apply contents_empty.
  apply (inv_exit C s Hinv).
  assert (Hne : threads s <> []) by (by apply (no_Exited_threads_nil W)).
  unfold pcs. destruct (threads s) as [|th l]; [done|].
  apply Forall_cons in Hall as [Hth _]. simpl. rewrite Hth. by left.
Qed.

Lemma shutdown_returns_after_the_work_witness :
  exists s,
    Demo.run_demo Demo.demo = Some s /\
    freed s = true /\
    Forall (fun th => pc th = Exited) (threads s) /\
    ThreadPool.contents Demo.MAX_QUEUE_SIZE (pool s) = [] /\
    jobs_executed s ≡ₚ jobs_accepted s.
Proof.
  destruct (Demo.run_demo Demo.demo) as [s|] eqn:H1;
    [|vm_compute in H1; discriminate H1].
  pose proof H1 as H1'. rewrite DemoRuns.run_demo_eq in H1'.
  exists s. split; [reflexivity|].
  apply (shutdown_returns_after_the_work Demo.MAX_QUEUE_SIZE
           DemoRuns.demo_queue_ok Demo.THREAD_POOL_SIZE Demo.block
           Demo.all_created 0 0 (List.tl Demo.demo) s 0%nat VVoid).
  - reflexivity.
  - reflexivity.
  - discriminate.
  - reflexivity.
  - apply no_restart_check. vm_compute. reflexivity.
  - exact H1'.
  - assert (Hl : last (trace s) = Some (Ret 0 (CallShutdown PoolPtr) VVoid)).
    { apply (Demo.run_fact (fun s => last (trace s)) _ s _ H1).
      vm_compute. reflexivity. }
    apply last_Some in Hl as [l ->]. apply elem_of_app. right.
    apply list_elem_of_singleton. reflexivity.
Defined.


(** X6 (a start that fails).  When [CreateThread] fails at index [i0]
    after [i0] threads were made, the caller of [thread_pool_start] stands
    at the failure path with the flag still clear and the threads it made
    free to run.  From there on, as long as no other client calls the
    pool, every step of the threads and of the caller is defined; the
    call has returned only when the [i0] threads have all left their
    loops, and then it has returned [false], no work item was executed,
    the flag is set and the lock is deleted while the pool is not freed,
    so that every later [thread_pool_add_work] or [thread_pool_shutdown]
    on it has no defined behaviour.  The call can return: if every
    thread gets the notification, the threads leave and the joins go
    through. *)
Theorem failed_start_leaves_the_lock_deleted
    (C : Z) (HC : 0 < C <= CInt.INT_MAX) (W : nat) :
  forall mem created t i0 p,
    Z.of_nat (length (queue mem)) = C ->
    length (worker_threads mem) = W -> (i0 < W)%nat ->
    (forall j, (j < i0)%nat -> created j = true) -> created i0 = false ->
    exists s1,
      step C W (Call t (CallStart created)) p (boot mem) = Some s1 /\
      blocked s1 !! t = Some (CallStart created, InStartFailed i0) /\
      threads s1 = replicate i0 fresh_thread /\
      shutdown (pool s1) = false /\
      (forall sched, no_calls sched ->
         exists s,
           run_system C W sched s1 = Some s /\
           (blocked s !! t <> None ->
              trace s = [] /\ lock_deleted s = false) /\
           (blocked s !! t = None ->
              trace s = [Ret t (CallStart created) (VBool false)] /\
              length (threads s) = i0 /\
              Forall (fun th => pc th = Exited) (threads s) /\
              shutdown (pool s) = true /\
              lock_deleted s = true /\ freed s = false /\
              (forall t' p' f a, thread_pool_add_work C t' p' f a s = Crash) /\
              (forall t' p', thread_pool_shutdown W t' p' PoolPtr s = Crash))) /\
      (exists sched' s',
         worker_steps sched' /\
         run_system C W
           ((Resume t, 0%nat) :: sched' ++ [(Resume t, 0%nat)]) s1 = Some s' /\
         blocked s' !! t = None).
Proof.
  intros mem created t i0 p Hq Hlen Hi0 Hok Hfail.
  by apply (start_fails C W HC).
Qed.

Lemma failed_start_leaves_the_lock_deleted_witness :
  exists s1 sched' s',
    step Demo.MAX_QUEUE_SIZE Demo.THREAD_POOL_SIZE
      (Call 0 (CallStart DemoRuns.two_created)) 0 (boot Demo.block)
    = Some s1 /\
    blocked s1 !! 0%nat
    = Some (CallStart DemoRuns.two_created, InStartFailed 2) /\
    length (threads s1) = 2%nat /\
    run_system Demo.MAX_QUEUE_SIZE Demo.THREAD_POOL_SIZE
      ((Resume 0, 0%nat) :: sched' ++ [(Resume 0, 0%nat)]) s1 = Some s' /\
    trace s' = [Ret 0 (CallStart DemoRuns.two_created) (VBool false)] /\
    Forall (fun th => pc th = Exited) (threads s') /\
    lock_deleted s' = true /\ freed s' = false /\
    thread_pool_shutdown Demo.THREAD_POOL_SIZE 0 0 PoolPtr s' = Crash.
Proof.
  destruct (failed_start_leaves_the_lock_deleted Demo.MAX_QUEUE_SIZE
              DemoRuns.demo_queue_ok Demo.THREAD_POOL_SIZE Demo.block
              DemoRuns.two_created 0%nat 2%nat 0%nat)
    as (s1 & Hs1 & Hb1 & Hth1 & _ & Hsafe & sched' & s' & Hw & Hrun & Hb').
  - reflexivity.
  - reflexivity.
  - unfold Demo.THREAD_POOL_SIZE. lia.
  - intros [|[|j]] Hj; [reflexivity|reflexivity|lia].
  - reflexivity.
  - destruct (Hsafe ((Resume 0, 0%nat) :: sched' ++ [(Resume 0, 0%nat)]))
      as (s & Hrun0 & _ & Hret).
    { apply Forall_cons. split; [done|]. apply Forall_app. split.
      - by apply worker_steps_no_calls.
      - apply Forall_cons. split; [done|]. apply Forall_nil. exact I. }
    rewrite Hrun in Hrun0. injection Hrun0 as <-.
    destruct (Hret Hb') as (Htr & _ & Hall & _ & Hld & Hfr & _ & Hsh).
    exists s1, sched', s'. split; [exact Hs1|]. split; [exact Hb1|].
    split; [by rewrite Hth1|]. split; [exact Hrun|]. split; [exact Htr|].
    split; [exact Hall|]. split; [exact Hld|]. split; [exact Hfr|]. apply Hsh.
Defined.

(** X15 (a start that fails need not return).  The failure path of
    [thread_pool_start] sets the flag and notifies [queue_not_empty]
    without taking the lock.  When that happens after a thread has
    tested its wait loop and before the thread sleeps, the thread sleeps
    with the flag set and nothing wakes it: whatever the threads and the
    caller do from then on, the caller stays in its first
    [WaitForSingleObject], the call does not return and nothing is
    logged. *)
Theorem failed_start_can_hang (C : Z) (W : nat) :
  forall mem created t i0 p,
    length (worker_threads mem) = W -> (i0 < W)%nat -> i0 <> 0%nat ->
    (forall j, (j < i0)%nat -> created j = true) -> created i0 = false ->
    exists s1 s2,
      step C W (Call t (CallStart created)) p (boot mem) = Some s1 /\
      run_system C W [(RunWorker 0, 0%nat); (Resume t, 1%nat)] s1 = Some s2 /\
      forall sched, threads_only sched ->
        exists s,
          run_system C W sched s2 = Some s /\
          blocked s !! t = Some (CallStart created, InStartJoin 0 i0 1%nat) /\
          trace s = [] /\ shutdown (pool s) = true /\
          freed s = false /\ lock_deleted s = false /\
          is_asleep (Worker 0) s = true /\ pcs s !! 0%nat = Some AtLoop.
Proof.
  intros mem created t i0 p Hlen Hi0 Hpos Hok Hfail.
  by apply (start_hangs C W).
Qed.

Lemma failed_start_can_hang_witness :
  exists s1 s2 s,
    step Demo.MAX_QUEUE_SIZE Demo.THREAD_POOL_SIZE
      (Call 0 (CallStart DemoRuns.two_created)) 0 (boot Demo.block)
    = Some s1 /\
    run_system Demo.MAX_QUEUE_SIZE Demo.THREAD_POOL_SIZE
      [(RunWorker 0, 0%nat); (Resume 0, 1%nat)] s1 = Some s2 /\
    run_system Demo.MAX_QUEUE_SIZE Demo.THREAD_POOL_SIZE
      [(RunWorker 1, 0%nat); (RunWorker 0, 0%nat); (Resume 0, 0%nat)] s2
    = Some s /\
    blocked s !! 0%nat
    = Some (CallStart DemoRuns.two_created, InStartJoin 0 2 1%nat) /\
    trace s = [] /\ is_asleep (Worker 0) s = true.
Proof.
  destruct (failed_start_can_hang Demo.MAX_QUEUE_SIZE Demo.THREAD_POOL_SIZE
              Demo.block DemoRuns.two_created 0%nat 2%nat 0%nat)
    as (s1 & s2 & Hs1 & Hs2 & Hall).
  - reflexivity.
  - unfold Demo.THREAD_POOL_SIZE. lia.
  - discriminate.
  - intros [|[|j]] Hj; [reflexivity|reflexivity|lia].
  - reflexivity.
  - destruct (Hall [(RunWorker 1, 0%nat); (RunWorker 0, 0%nat);
                    (Resume 0, 0%nat)])
      as (s & Hrun & Hb & Htr & _ & _ & _ & Hasleep & _).
    { repeat (apply Forall_cons; split); [left|left|right|]; simpl;
        [by eexists..|]. apply Forall_nil. exact I. }
    exists s1, s2, s. split; [exact Hs1|]. split; [exact Hs2|].
    split; [exact Hrun|]. split; [exact Hb|]. split; [exact Htr|].
    exact Hasleep.
Defined.

(** X7 (a full queue holds the caller back).  On an open pool whose
    queue is full, [thread_pool_add_work] does not return: its caller
    joins the sleepers of [queue_not_full], the queue is unchanged and
    scheduling the caller changes nothing.  A worker that then takes the
    oldest item wakes one of these sleepers, whichever the system picks.
    If it is this caller, the caller's next turn puts the work behind the
    items that were there and returns [true]; if it is another one, this
    caller sleeps on although the queue has room. *)
Theorem full_queue_holds_the_caller_back
    (C : Z) (HC : 0 < C <= CInt.INT_MAX) (W : nat) :
  forall mem sched s t f a i th p1 p2,
    Z.of_nat (length (queue mem)) = C ->
    run_system C W sched (boot mem) = Some s ->
    freed s = false -> lock_deleted s = false ->
    shutdown (pool s) = false -> queue_size (pool s) = C ->
    blocked s !! t = None -> is_asleep (Client t) s = false ->
    threads s !! i = Some th -> pc th = AtLoop ->
    is_asleep (Worker i) s = false ->
    exists w rest s1 s2,
      ThreadPool.contents C (pool s) = w :: rest /\
      step C W (Call t (CallAddWork f a)) p1 s = Some s1 /\
      blocked s1 !! t = Some (CallAddWork f a, InAddWork f a) /\
      asleep_not_full s1 = asleep_not_full s ++ [Client t] /\
      trace s1 = trace s /\ pool s1 = pool s /\
      (forall p, step C W (Resume t) p s1 = Some s1) /\
      step C W (RunWorker i) p2 s1 = Some s2 /\
      pcs s2 !! i = Some (Calling w) /\
      ThreadPool.contents C (pool s2) = rest /\
      asleep_not_full s2 = wake_one p2 (asleep_not_full s ++ [Client t]) /\
      (Nat.modulo p2 (S (length (asleep_not_full s)))
       = length (asleep_not_full s) ->
       forall p3, exists s3,
         step C W (Resume t) p3 s2 = Some s3 /\
         trace s3 = trace s ++ [Ret t (CallAddWork f a) (VBool true)] /\
         ThreadPool.contents C (pool s3)
         = rest ++ [{| function := f; argument := a |}] /\
         blocked s3 !! t = None) /\
      (Nat.modulo p2 (S (length (asleep_not_full s)))
       <> length (asleep_not_full s) ->
       Client t ∈ asleep_not_full s2 /\
       forall p3, step C W (Resume t) p3 s2 = Some s2).
Proof.
  intros mem sched s t f a i th p1 p2 Hq Hrun Hfr Hld Hsd Hfull Hb Hct
    Hth Hpc Hwi.
  apply (full_queue_waits C W HC t f a i th p1 p2 s); try done.
  eapply inv_run; [exact HC| |exact Hrun]. by apply inv_boot.
Qed.

(** X7, at the values of the demo: the queue is full and client [3] waits
    already when client [2] calls.  With [pick = 1] the worker wakes client
    [2], which is then served; with [pick = 0] it wakes client [3] and
    client [2] sleeps on. *)
Lemma full_queue_holds_the_caller_back_witness :
  exists s s1 s2 s3 s2',
    Demo.run_demo DemoRuns.crowded = Some s /\
    asleep_not_full s = [Client 3] /\
    step Demo.MAX_QUEUE_SIZE Demo.THREAD_POOL_SIZE (Demo.add 2 100).1 0 s
    = Some s1 /\
    step Demo.MAX_QUEUE_SIZE Demo.THREAD_POOL_SIZE (RunWorker 0) 1 s1
    = Some s2 /\
    step Demo.MAX_QUEUE_SIZE Demo.THREAD_POOL_SIZE (Resume 2) 0 s2 = Some s3 /\
    ThreadPool.contents Demo.MAX_QUEUE_SIZE (pool s3)
    = map Demo.job (seq 1 100) /\
    blocked s3 !! 2%nat = None /\
    step Demo.MAX_QUEUE_SIZE Demo.THREAD_POOL_SIZE (RunWorker 0) 0 s1
    = Some s2' /\
    Client 2 ∈ asleep_not_full s2' /\
    step Demo.MAX_QUEUE_SIZE Demo.THREAD_POOL_SIZE (Resume 2) 0 s2' = Some s2'.
Proof.
  destruct (Demo.run_demo DemoRuns.crowded) as [s|] eqn:H1;
    [|vm_compute in H1; discriminate H1].
  pose proof H1 as H1'. rewrite DemoRuns.run_demo_eq in H1'.
  assert (Hth : threads s !! 0%nat = Some {| pc := AtLoop; handle_open := true |}).
  { apply (Demo.run_fact (fun s => threads s !! 0%nat) _ s _ H1).
    vm_compute. reflexivity. }
  assert (Hnf : asleep_not_full s = [Client 3]).
  { apply (Demo.run_fact asleep_not_full _ s _ H1). vm_compute. reflexivity. }
  assert (Hfr : freed s = false).
  { apply (Demo.run_fact freed _ s _ H1). vm_compute. reflexivity. }
  assert (Hld : lock_deleted s = false).
  { apply (Demo.run_fact lock_deleted _ s _ H1). vm_compute. reflexivity. }
  assert (Hsd : shutdown (pool s) = false).
  { apply (Demo.run_fact (fun s => shutdown (pool s)) _ s _ H1).
    vm_compute. reflexivity. }
  assert (Hsz : queue_size (pool s) = Demo.MAX_QUEUE_SIZE).
  { apply (Demo.run_fact (fun s => queue_size (pool s)) _ s _ H1).
    vm_compute. reflexivity. }
  assert (Hb : blocked s !! 2%nat = None).
  { apply (Demo.run_fact (fun s => blocked s !! 2%nat) _ s _ H1).
    vm_compute. reflexivity. }
  assert (Hct : is_asleep (Client 2) s = false).
  { apply (Demo.run_fact (is_asleep (Client 2)) _ s _ H1).
    vm_compute. reflexivity. }
  assert (Hwi : is_asleep (Worker 0) s = false).
  { apply (Demo.run_fact (is_asleep (Worker 0)) _ s _ H1).
    vm_compute. reflexivity. }
  assert (Hall : ThreadPool.contents Demo.MAX_QUEUE_SIZE (pool s)
                 = map Demo.job (seq 0 100)).
  { apply (Demo.run_fact
             (fun s => ThreadPool.contents Demo.MAX_QUEUE_SIZE (pool s))
             _ s _ H1). vm_compute. reflexivity. }
  destruct (full_queue_holds_the_caller_back Demo.MAX_QUEUE_SIZE
              DemoRuns.demo_queue_ok Demo.THREAD_POOL_SIZE Demo.block _ s
              2%nat Demo.example_job (Demo.job_data 100) 0%nat
              {| pc := AtLoop; handle_open := true |}
              0%nat 1%nat eq_refl H1' Hfr Hld Hsd Hsz Hb Hct Hth eq_refl Hwi)
    as (w & rest & s1 & s2 & Hc & Hs1 & _ & _ & _ & _ & _ & Hs2 & _ & _ & _
          & Hpicked & _).
  destruct (full_queue_holds_the_caller_back Demo.MAX_QUEUE_SIZE
              DemoRuns.demo_queue_ok Demo.THREAD_POOL_SIZE Demo.block _ s
              2%nat Demo.example_job (Demo.job_data 100) 0%nat
              {| pc := AtLoop; handle_open := true |}
              0%nat 0%nat eq_refl H1' Hfr Hld Hsd Hsz Hb Hct Hth eq_refl Hwi)
    as (w' & rest' & s1' & s2' & _ & Hs1' & _ & _ & _ & _ & _ & Hs2' & _ & _
          & _ & _ & Hother).
  rewrite Hs1 in Hs1'. injection Hs1' as <-.
  assert (Hm1 : Nat.modulo 1 (S (length (asleep_not_full s)))
                = length (asleep_not_full s)) by (rewrite Hnf; reflexivity).
  destruct (Hpicked Hm1 0%nat) as (s3 & Hs3 & _ & Hc3 & Hb3).
  destruct Hother as [Hin Hstay]; [rewrite Hnf; discriminate|].
  exists s, s1, s2, s3, s2'. split; [reflexivity|]. split; [exact Hnf|].
  split; [exact Hs1|]. split; [exact Hs2|]. split; [exact Hs3|].
  split.
  { rewrite Hc3. rewrite Hall in Hc. injection Hc as _ <-. reflexivity. }
  split; [exact Hb3|]. split; [exact Hs2'|]. split; [exact Hin|].
  apply Hstay.
Defined.

(** X8 (the demo of the pool).  A client that starts the pool, offers at
    most [MAX_QUEUE_SIZE] work items and then shuts the pool down, as
    [thread_pool_demo] does with its ten jobs: whatever the workers do
    between the calls, and whatever spurious wake-ups happen, no call is
    undefined, every offer is accepted at once and in order, and after
    the call of [thread_pool_shutdown] the workers can run so that the
    call returns with the pool freed, all workers gone and every offered
    item executed exactly once. *)
Theorem client_program_runs_every_job
    (C : Z) (HC : 0 < C <= CInt.INT_MAX) (W : nat) :
  forall mem created t0 p0 sched offers,
    Z.of_nat (length (queue mem)) = C ->
    length (worker_threads mem) = W -> W <> 0%nat ->
    (forall i, (i < W)%nat -> created i = true) ->
    calls_of sched = map offer offers ->
    Z.of_nat (length offers) <= C ->
    exists s,
      run_system C W ((Call t0 (CallStart created), p0) :: sched) (boot mem)
      = Some s /\
      jobs_accepted s = map snd offers /\
      exists sched' s',
        worker_steps sched' /\
        run_system C W
          ((Call t0 (CallShutdown PoolPtr), 0%nat) :: sched'
             ++ [(Resume t0, 0%nat)]) s = Some s' /\
        last (trace s') = Some (Ret t0 (CallShutdown PoolPtr) VVoid) /\
        freed s' = true /\
        Forall (fun th => pc th = Exited) (threads s') /\
        jobs_executed s' ≡ₚ map snd offers.
Proof.
  intros mem created t0 p0 sched offers Hq Hlen HW Hok Hc Hn.
  by apply (program_runs C W HC).
Qed.

Lemma client_program_runs_every_job_witness :
  exists s sched' s',
    Demo.run_demo (Demo.start :: DemoRuns.mixed) = Some s /\
    jobs_accepted s = map Demo.job (seq 0 10) /\
    run_system Demo.MAX_QUEUE_SIZE Demo.THREAD_POOL_SIZE
      (Demo.close :: sched' ++ [(Resume 0, 0%nat)]) s = Some s' /\
    freed s' = true /\
    jobs_executed s' ≡ₚ map Demo.job (seq 0 10).
Proof.
  destruct (client_program_runs_every_job Demo.MAX_QUEUE_SIZE
              DemoRuns.demo_queue_ok Demo.THREAD_POOL_SIZE Demo.block
              Demo.all_created 0%nat 0%nat DemoRuns.mixed DemoRuns.ten_jobs)
    as (s & Hrun & Ha & sched' & s' & _ & Hrun' & _ & Hfr & _ & Hex).
  - reflexivity.
  - reflexivity.
  - discriminate.
  - reflexivity.
  - vm_compute. reflexivity.
  - vm_compute. discriminate.
  - exists s, sched', s'. split.
    { rewrite DemoRuns.run_demo_eq. exact Hrun. }
    split; [exact Ha|]. split; [exact Hrun'|]. split; [exact Hfr|].
    exact Hex.
Defined.

(** X9 (when the start succeeds).  [thread_pool_start] returns [true]
    exactly when every one of its [THREAD_POOL_SIZE] calls of
    [CreateThread] succeeds.  It has then made [THREAD_POOL_SIZE] new
    threads, all at the start of [worker_thread], and stored their handles
    in [worker_threads] in the order of creation; the queue, the flag, the
    sleepers and the trace are as before. *)
Theorem start_succeeds_iff_all_threads_are_created (W : nat) :
  forall created s,
    freed s = false -> (W <= length (worker_threads (pool s)))%nat ->
    ((forall i, (i < W)%nat -> created i = true)
     <-> exists s', thread_pool_start W created s = Returned (VBool true) s')
    /\ forall s',
         thread_pool_start W created s = Returned (VBool true) s' ->
         threads s' = threads s ++ replicate W fresh_thread /\
         (forall k, (k < W)%nat ->
            worker_threads (pool s') !! k
            = Some (S (length (threads s) + k))) /\
         queue (pool s') = queue (pool s) /\
         queue_size (pool s') = queue_size (pool s) /\
         head (pool s') = head (pool s) /\ tail (pool s') = tail (pool s) /\
         shutdown (pool s') = shutdown (pool s) /\
         asleep_not_empty s' = asleep_not_empty s /\
         asleep_not_full s' = asleep_not_full s /\
         trace s' = trace s.
Proof.
  intros created s Hfr Hlen. split; [by apply start_true_iff|].
  intros s' Hs'.
  assert (Hok : forall i, (i < W)%nat -> created i = true).
  { apply (start_true_iff W created s Hfr Hlen). by exists s'. }
  destruct (start_workers_ok created W 0 s Hfr) as
    (s1 & Hs1 & Hth & Hnew & _ & _ & Hq & Hsz & Hh & Ht & Hsd & _ & _
       & Hne & Hnf & _ & Htr);
    [simpl; lia|intros j Hj; apply Hok; lia|].
  unfold thread_pool_start in Hs'. rewrite Hs1 in Hs'. injection Hs' as <-.
  split_and!; try done.
Qed.

Lemma start_succeeds_iff_all_threads_are_created_witness :
  exists s',
    thread_pool_start Demo.THREAD_POOL_SIZE Demo.all_created (boot Demo.block)
    = Returned (VBool true) s' /\
    threads s' = replicate 4 fresh_thread /\
    worker_threads (pool s') !! 3%nat = Some 4%nat /\
    ~ exists s'',
        thread_pool_start Demo.THREAD_POOL_SIZE DemoRuns.two_created
          (boot Demo.block) = Returned (VBool true) s''.
Proof.
  destruct (start_succeeds_iff_all_threads_are_created Demo.THREAD_POOL_SIZE
              Demo.all_created (boot Demo.block)) as [[Hto _] Hshape].
  - reflexivity.
  - vm_compute. lia.
  - destruct Hto as [s' Hs']; [reflexivity|].
    destruct (Hshape s' Hs') as (Hth & Hh & _).
    exists s'. split; [exact Hs'|]. split; [exact Hth|].
    split; [apply (Hh 3%nat); unfold Demo.THREAD_POOL_SIZE; lia|].
    destruct (start_succeeds_iff_all_threads_are_created Demo.THREAD_POOL_SIZE
                DemoRuns.two_created (boot Demo.block)) as [[_ Hfrom] _].
    + reflexivity.
    + vm_compute. lia.
    + intros Hex. specialize (Hfrom Hex 2%nat).
      assert (H : DemoRuns.two_created 2 = true)
        by (apply Hfrom; unfold Demo.THREAD_POOL_SIZE; lia).
      discriminate H.
Defined.

(** * Properties of the producers and consumers *)

Import PCFacts.



(** X11 (no deadlock).  When the items that the producers put in beyond
    those that the consumers take out fit into the buffer (in the demo
    both numbers are twenty), no wake-up call is lost: from every state
    that any interleaving reaches there are steps of the threads alone,
    without spurious wake-ups, after which every thread has left its loop,
    and then [producer_consumer_main] gets through its waits, deletes the
    mutex and returns. *)
Theorem pc_no_deadlock
    (N IP IC : Z) (P Q : nat) (HN : 0 < N <= CInt.INT_MAX)
    (HP : 0 <= IP <= CInt.INT_MAX) (HQ : 0 <= IC <= CInt.INT_MAX) :
  forall b sched s,
    Z.of_nat (length (buffer b)) = N ->
    0 <= surplus IP IC P Q <= N ->
    PCThreads.run_system N IP IC sched (PCThreads.boot P Q b) = Some s ->
    PCThreads.main_returned s = false ->
    exists sched' s',
      thread_steps sched' /\
      PCThreads.run_system N IP IC (sched' ++ [(PCThreads.RunMain, 0%nat)]) s
      = Some s' /\
      PCThreads.main_returned s' = true /\
      PCThreads.producer_i s' = replicate P IP /\
      PCThreads.consumer_i s' = replicate Q IC /\
      count (PCThreads.shared s') = surplus IP IC P Q.
Proof.
  intros b sched s Hlen Hsur Hrun Hm.
  assert (Hs0 : safe N IP IC P Q (PCThreads.boot P Q b)) by (by apply safe_boot).
  assert (Hl0 : live N IP IC P Q (PCThreads.boot P Q b)) by (by apply live_boot).
  destruct (safe_run N IP IC P Q HN HP HQ sched _ Hs0) as (s1 & Hrun1 & Hs).
  rewrite Hrun in Hrun1. injection Hrun1 as <-.
  pose proof (live_run N IP IC P Q HN HP HQ sched _ s Hs0 Hl0 Hrun) as Hl.
  pose proof (vals_run N IP IC P Q HN HP HQ sched _ s Hs0 (vals_boot P Q b) Hrun)
    as Hv.
  destruct (demo_completes N IP IC P Q HN HP HQ s Hs Hl Hsur Hm)
    as (sched' & s' & Hts & Hrun' & Hs' & Hl' & Hm').
  pose proof (vals_run N IP IC P Q HN HP HQ _ s s' Hs Hv Hrun') as Hv'.
  destruct (main_returned_state N IP IC P Q s' Hs' Hl' Hv' Hm')
    as (_ & Hp & Hc & Hcount & _).
  exists sched', s'. done.
Qed.

Lemma pc_no_deadlock_witness :
  exists s sched' s',
    PCDemo.run_pc PCDemo.waiting = Some s /\
    PCThreads.asleep_not_empty s
    = [PCThreads.ConsumerT 0; PCThreads.ConsumerT 1] /\
    PCThreads.run_system Demo.BUFFER_SIZE PCDemo.ITEMS_PER_PRODUCER
      PCDemo.ITEMS_PER_CONSUMER
      (sched' ++ [(PCThreads.RunMain, 0%nat)]) s = Some s' /\
    PCThreads.main_returned s' = true /\
    count (PCThreads.shared s') = 0.
Proof.
  destruct (PCDemo.run_pc PCDemo.waiting) as [s|] eqn:Hrun;
    [|vm_compute in Hrun; discriminate Hrun].
  pose proof Hrun as Hrun0. rewrite PCDemo.run_pc_eq in Hrun0.
  destruct (pc_no_deadlock Demo.BUFFER_SIZE PCDemo.ITEMS_PER_PRODUCER
              PCDemo.ITEMS_PER_CONSUMER PCDemo.NUM_PRODUCERS
              PCDemo.NUM_CONSUMERS PCDemo.demo_buffer_ok
              PCDemo.demo_producer_ok PCDemo.demo_consumer_ok
              (static_buffer Demo.BUFFER_SIZE) PCDemo.waiting s)
    as (sched' & s' & _ & Hrun' & Hm' & _ & _ & Hc').
  - reflexivity.
  - vm_compute. split; discriminate.
  - exact Hrun0.
  - apply (PCDemo.pc_fact PCThreads.main_returned _ s _ Hrun).
    vm_compute. reflexivity.
  - exists s, sched', s'. split; [reflexivity|]. split.
    + apply (PCDemo.pc_fact PCThreads.asleep_not_empty _ s _ Hrun).
      vm_compute. reflexivity.
    + split; [exact Hrun'|]. split; [exact Hm'|].
      rewrite Hc'. vm_compute. reflexivity.
Defined.

(** X12 (the end of the demo).  Whenever [producer_consumer_main] has
    returned, in whatever interleaving, the mutex is deleted, every
    producer has made its [ITEMS_PER_PRODUCER] turns and every consumer has
    received exactly [ITEMS_PER_CONSUMER] items, the items that went into
    the buffer are, as a multiset, the items [id * 100 + i] of all turns
    of all producers, and the buffer holds what was put in beyond what was
    taken out.  With the balanced numbers of the demo the buffer is empty
    and the consumers have received every item exactly once, in the order
    in which the items went in. *)
Theorem pc_main_returns_when_all_is_done
    (N IP IC : Z) (P Q : nat) (HN : 0 < N <= CInt.INT_MAX)
    (HP : 0 <= IP <= CInt.INT_MAX) (HQ : 0 <= IC <= CInt.INT_MAX) :
  forall b sched s,
    Z.of_nat (length (buffer b)) = N ->
    PCThreads.run_system N IP IC sched (PCThreads.boot P Q b) = Some s ->
    PCThreads.main_returned s = true ->
    PCThreads.mutex_deleted s = true /\
    PCThreads.producer_i s = replicate P IP /\
    PCThreads.consumer_i s = replicate Q IC /\
    (forall k, (k < Q)%nat ->
       Z.of_nat (length (PCThreads.gots_of k (PCThreads.trace s))) = IC) /\
    PCThreads.puts (PCThreads.trace s) ≡ₚ all_items IP P /\
    count (PCThreads.shared s) = surplus IP IC P Q /\
    (surplus IP IC P Q = 0 ->
       ProducerConsumer.contents N (PCThreads.shared s) = [] /\
       PCThreads.gots (PCThreads.trace s) = PCThreads.puts (PCThreads.trace s)).
Proof.
  intros b sched s Hlen Hrun Hm.
  assert (Hs0 : safe N IP IC P Q (PCThreads.boot P Q b)) by (by apply safe_boot).
  assert (Hl0 : live N IP IC P Q (PCThreads.boot P Q b)) by (by apply live_boot).
  destruct (safe_run N IP IC P Q HN HP HQ sched _ Hs0) as (s1 & Hrun1 & Hs).
  rewrite Hrun in Hrun1. injection Hrun1 as <-.
  pose proof (live_run N IP IC P Q HN HP HQ sched _ s Hs0 Hl0 Hrun) as Hl.
  pose proof (vals_run N IP IC P Q HN HP HQ sched _ s Hs0 (vals_boot P Q b) Hrun)
    as Hv.
  destruct (main_returned_state N IP IC P Q s Hs Hl Hv Hm)
    as (Hd & Hp & Hc & Hcount & Hfifo & Hall & Hgot).
  split_and!; try done.
  intros Hz.
  assert (Hnil : ProducerConsumer.contents N (PCThreads.shared s) = []).
  { apply length_zero_iff_nil.
    pose proof (buffer_contents_length N _ (safe_wf _ _ _ _ _ s Hs)) as H.
    lia. }
  split; [exact Hnil|]. by rewrite Hfifo, Hnil, app_nil_r.
Qed.

Lemma pc_main_returns_when_all_is_done_witness :
  exists s,
    PCDemo.run_pc PCDemo.whole = Some s /\
    PCThreads.mutex_deleted s = true /\
    PCThreads.puts (PCThreads.trace s)
    ≡ₚ [100; 101; 102; 103; 104; 105; 106; 107; 108; 109;
        200; 201; 202; 203; 204; 205; 206; 207; 208; 209] /\
    PCThreads.gots (PCThreads.trace s) = PCThreads.puts (PCThreads.trace s) /\
    count (PCThreads.shared s) = 0.
Proof.
  destruct (PCDemo.run_pc PCDemo.whole) as [s|] eqn:Hrun;
    [|vm_compute in Hrun; discriminate Hrun].
  pose proof Hrun as Hrun0. rewrite PCDemo.run_pc_eq in Hrun0.
  destruct (pc_main_returns_when_all_is_done Demo.BUFFER_SIZE
              PCDemo.ITEMS_PER_PRODUCER PCDemo.ITEMS_PER_CONSUMER
              PCDemo.NUM_PRODUCERS PCDemo.NUM_CONSUMERS
              PCDemo.demo_buffer_ok PCDemo.demo_producer_ok
              PCDemo.demo_consumer_ok
              (static_buffer Demo.BUFFER_SIZE) PCDemo.whole s)
    as (Hd & _ & _ & _ & Hall & Hcount & Hz).
  - reflexivity.
  - exact Hrun0.
  - apply (PCDemo.pc_fact PCThreads.main_returned _ s _ Hrun).
    vm_compute. reflexivity.
  - destruct Hz as [_ Hz]; [vm_compute; reflexivity|].
    exists s. split; [reflexivity|]. split; [exact Hd|].
    split; [exact Hall|]. split; [exact Hz|].
    rewrite Hcount. vm_compute. reflexivity.
Defined.

(** X13 (what a producer puts in).  At any time of any run, the items
    that producer [k] has put into the buffer are, in this order,
    [(k + 1) * 100 + 0], [(k + 1) * 100 + 1], ... up to its current turn:
    [pc_producer_thread] loses, repeats or reorders none of its items,
    however often it had to wait for a free slot. *)
Theorem pc_items_of_a_producer
    (N IP IC : Z) (P Q : nat) (HN : 0 < N <= CInt.INT_MAX)
    (HP : 0 <= IP <= CInt.INT_MAX) (HQ : 0 <= IC <= CInt.INT_MAX) :
  forall b sched s k i,
    Z.of_nat (length (buffer b)) = N ->
    Z.of_nat P * 100 + IP <= CInt.INT_MAX ->
    PCThreads.run_system N IP IC sched (PCThreads.boot P Q b) = Some s ->
    PCThreads.producer_i s !! k = Some i ->
    0 <= i <= IP /\
    PCThreads.puts_of k (PCThreads.trace s)
    = map (fun j => (Z.of_nat k + 1) * 100 + Z.of_nat j) (seq 0 (Z.to_nat i)).
Proof.
  intros b sched s k i Hlen Hmax Hrun Hk.
  assert (Hs0 : safe N IP IC P Q (PCThreads.boot P Q b)) by (by apply safe_boot).
  destruct (safe_run N IP IC P Q HN HP HQ sched _ Hs0) as (s1 & Hrun1 & Hs).
  rewrite Hrun in Hrun1. injection Hrun1 as <-.
  pose proof (vals_run N IP IC P Q HN HP HQ sched _ s Hs0 (vals_boot P Q b) Hrun)
    as Hv.
  pose proof (safe_prod _ _ _ _ _ s Hs k i Hk) as Hi.
  split; [exact Hi|].
  rewrite (vals_puts s Hv k i Hk). unfold items_of.
  apply map_ext_in. intros j Hj%list_elem_of_In%elem_of_seq.
  apply item_of_small; [lia|].
  pose proof (lookup_lt_Some _ _ _ Hk) as Hlt.
  rewrite (safe_np _ _ _ _ _ s Hs) in Hlt. lia.
Qed.

Lemma pc_items_of_a_producer_witness :
  exists s,
    PCDemo.run_pc PCDemo.burst = Some s /\
    PCThreads.producer_i s !! 0%nat = Some 4 /\
    PCThreads.puts_of 0 (PCThreads.trace s) = [100; 101; 102; 103].
Proof.
  destruct (PCDemo.run_pc PCDemo.burst) as [s|] eqn:Hrun;
    [|vm_compute in Hrun; discriminate Hrun].
  pose proof Hrun as Hrun0. rewrite PCDemo.run_pc_eq in Hrun0.
  assert (Hk : PCThreads.producer_i s !! 0%nat = Some 4).
  { apply (PCDemo.pc_fact (fun s => PCThreads.producer_i s !! 0%nat)
             _ s _ Hrun). vm_compute. reflexivity. }
  exists s. split; [reflexivity|]. split; [exact Hk|].
  apply (pc_items_of_a_producer Demo.BUFFER_SIZE
           PCDemo.ITEMS_PER_PRODUCER PCDemo.ITEMS_PER_CONSUMER
           PCDemo.NUM_PRODUCERS PCDemo.NUM_CONSUMERS
           PCDemo.demo_buffer_ok PCDemo.demo_producer_ok
           PCDemo.demo_consumer_ok
           (static_buffer Demo.BUFFER_SIZE) PCDemo.burst s 0%nat 4).
  - reflexivity.
  - vm_compute. discriminate.
  - exact Hrun0.
  - exact Hk.
Defined.


